(** * PixelServe: the request-fingerprinting cache layer

    A shallow embedding of [src/services/cache.ts] (with the cache part of
    [src/config.ts]) and the properties of its fingerprint generator, its
    memory and disk backends and its facade.

    Conventions of the embedding.
    - A JavaScript string is a [string] of bytes (its UTF-8 encoding); a
      [Buffer] is a list of bytes.
    - [Date.now()] and file modification times are integers (milliseconds
      since the epoch) passed explicitly.
    - A Number is given by its sign, its shortest decimal digits and its
      exponent, from which [Number::toString] writes it; where the code
      holds an integer (a time, a size, a number of the configuration) the
      definitions hold an integer, which stands for the Number nearest to
      it where a Number is asked for.
    - A [Map] is an association list in insertion order, without repeated
      keys; the regular files of the cache directory are a finite map from
      path to file.
    - What the host provides and the repository does not pin down (the
      collation behind [localeCompare], the [find] binary) is a parameter
      of the definitions that use it; the usual instances are given. *)

From Stdlib Require Import ZArith Lia Permutation Sorted.
From Stdlib Require Import Ascii String DecimalString DecimalPos DecimalZ.
From stdpp Require Import gmap strings list fin_maps sorting.

Local Open Scope Z_scope.

(** * node:crypto: [createHash("sha256")]  *)

Module SHA256.

(** 32-bit words are integers in [0, 2^32); every operation wraps. *)
Definition w32 (x : Z) : Z := x mod 2 ^ 32.

Definition add32 (x y : Z) : Z := w32 (x + y).

Definition rotr (n x : Z) : Z :=
  Z.lor (Z.shiftr x n) (w32 (Z.shiftl x (32 - n))).

Definition not32 (x : Z) : Z := Z.lxor x (2 ^ 32 - 1).

Definition Ch (x y z : Z) : Z :=
  Z.lxor (Z.land x y) (Z.land (not32 x) z).

Definition Maj (x y z : Z) : Z :=
  Z.lxor (Z.lxor (Z.land x y) (Z.land x z)) (Z.land y z).

Definition Sigma0 (x : Z) : Z :=
  Z.lxor (Z.lxor (rotr 2 x) (rotr 13 x)) (rotr 22 x).

Definition Sigma1 (x : Z) : Z :=
  Z.lxor (Z.lxor (rotr 6 x) (rotr 11 x)) (rotr 25 x).

Definition sigma0 (x : Z) : Z :=
  Z.lxor (Z.lxor (rotr 7 x) (rotr 18 x)) (Z.shiftr x 3).

Definition sigma1 (x : Z) : Z :=
  Z.lxor (Z.lxor (rotr 17 x) (rotr 19 x)) (Z.shiftr x 10).

(** The constants are the fractional parts of the square and cube roots
    of the first primes (FIPS 180-4, sections 4.2.2 and 5.3.3). *)
Definition is_prime (n : nat) : bool :=
  forallb (fun d => negb (Nat.eqb (Nat.modulo n d) 0)) (seq 2 (n - 2)).

Definition primes64 : list Z :=
  Eval vm_compute in
    List.map Z.of_nat (List.filter is_prime (seq 2 310)).

(** Largest [r] below [2^bits] with [r^3 <= n]. *)
Definition icbrt (bits : nat) (n : Z) : Z :=
  fold_left
    (fun r i => let r' := r + 2 ^ Z.of_nat i in
                if r' * r' * r' <=? n then r' else r)
    (rev (seq 0 bits)) 0.

Definition K256 : list Z :=
  Eval vm_compute in
    List.map (fun p => w32 (icbrt 36 (p * 2 ^ 96))) primes64.

Definition H0 : list Z :=
  Eval vm_compute in
    List.map (fun p => w32 (Z.sqrt (p * 2 ^ 64))) (firstn 8 primes64).

(** Padding: a one bit, zeros, and the bit length on 64 bits. *)
Definition be_bytes (n : nat) (x : Z) : list Z :=
  List.map (fun i => (Z.shiftr x (8 * Z.of_nat i)) mod 256) (rev (seq 0 n)).

Definition pad (msg : list Z) : list Z :=
  let len := Z.of_nat (length msg) in
  msg ++ 128 :: repeat 0 (Z.to_nat ((55 - len) mod 64)) ++ be_bytes 8 (8 * len).

Definition be_word (bs : list Z) : Z :=
  fold_left (fun acc b => acc * 256 + b) bs 0.

Fixpoint words (n : nat) (bs : list Z) : list Z :=
  match n with
  | O => []
  | S n' => be_word (firstn 4 bs) :: words n' (skipn 4 bs)
  end.

Definition schedule (block : list Z) : list Z :=
  fold_left
    (fun w i =>
       let at_ k := nth (i - k) w 0 in
       w ++ [add32 (add32 (sigma1 (at_ 2%nat)) (at_ 7%nat))
                   (add32 (sigma0 (at_ 15%nat)) (at_ 16%nat))])
    (seq 16 48) (words 16 block).

Record regs := Regs { ra : Z; rb : Z; rc : Z; rd : Z;
                      re : Z; rf : Z; rg : Z; rh : Z }.

Definition round (s : regs) (kw : Z * Z) : regs :=
  let t1 := add32 (add32 (add32 (rh s) (Sigma1 (re s)))
                         (add32 (Ch (re s) (rf s) (rg s)) (fst kw))) (snd kw) in
  let t2 := add32 (Sigma0 (ra s)) (Maj (ra s) (rb s) (rc s)) in
  Regs (add32 t1 t2) (ra s) (rb s) (rc s) (add32 (rd s) t1) (re s) (rf s) (rg s).

Definition regs_of (h : list Z) : regs :=
  Regs (nth 0 h 0) (nth 1 h 0) (nth 2 h 0) (nth 3 h 0)
       (nth 4 h 0) (nth 5 h 0) (nth 6 h 0) (nth 7 h 0).

Definition list_of (s : regs) : list Z :=
  [ra s; rb s; rc s; rd s; re s; rf s; rg s; rh s].

Definition compress (h : list Z) (block : list Z) : list Z :=
  let s := fold_left round (combine K256 (schedule block)) (regs_of h) in
  List.map (fun p => add32 (fst p) (snd p)) (combine h (list_of s)).

Fixpoint blocks (n : nat) (h : list Z) (bs : list Z) : list Z :=
  match n with
  | O => h
  | S n' => blocks n' (compress h (firstn 64 bs)) (skipn 64 bs)
  end.

Definition digest (msg : list Z) : list Z :=
  let padded := pad msg in
  List.flat_map (be_bytes 4) (blocks (length padded / 64) H0 padded).

(** [digest("hex")]: two lowercase hexadecimal digits per byte. *)
Definition hex_digit (d : Z) : ascii :=
  ascii_of_nat (Z.to_nat (if d <? 10 then 48 + d else 87 + d)).

Definition hex (bs : list Z) : string :=
  fold_right (fun b s => String (hex_digit (b / 16)) (String (hex_digit (b mod 16)) s))
             EmptyString bs.

Definition bytes_of_string (s : string) : list Z :=
  List.map (fun c => Z.of_nat (nat_of_ascii c)) (list_ascii_of_string s).

End SHA256.

(** [createHash("sha256").update(s).digest("hex")]. *)
Definition sha256_hex (s : string) : string :=
  SHA256.hex (SHA256.digest (SHA256.bytes_of_string s)).

(** * Fingerprint generator: [generateCacheKey] *)

(** ** Numbers

    A Number is an IEEE 754 double.  It is given here by what
    [Number::toString] (ECMA-262, 6.1.6.1.20) reads of it: NaN, an infinity,
    a zero, or its sign, its decimal digits [s] (the shortest that denote
    it, so that neither the first nor the last digit is 0) and the exponent
    [n] for which the number is [0.s] times [10^n].  So 800 is the digit 8
    with the exponent 3, 0.3 the digit 3 with the exponent 0, and 10^21 the
    digit 1 with the exponent 22.  Every double has such a term; a term
    whose digits are not the shortest ones of a double stands for no
    Number. *)
Inductive Number :=
| NumNaN
| NumInfinity (negative : bool)
| NumZero (negative : bool)
| NumFinite (negative : bool) (digits : string) (exponent : Z).

(** The decimal numeral of an integer. *)
Definition decimal (n : Z) : string :=
  NilZero.string_of_int (Z.to_int n).

Fixpoint zeros (n : nat) : string :=
  match n with
  | O => EmptyString
  | S n' => String "0" (zeros n')
  end.

(** The exponent part: [e], the sign, and the decimal numeral of the
    magnitude. *)
Definition exponent_part (e : Z) : string :=
  "e" +:+ (if e <? 0 then "-" else "+") +:+ decimal (Z.abs e).

(** Steps 6 to 10 of [Number::toString] for the digits [s], of which there
    are [k], and the exponent [n]. *)
Definition digits_toString (s : string) (n : Z) : string :=
  let k := Z.of_nat (String.length s) in
  if (k <=? n) && (n <=? 21)
  then s +:+ zeros (Z.to_nat (n - k))
  else if (0 <? n) && (n <=? 21)
  then substring 0 (Z.to_nat n) s +:+ "." +:+ substring (Z.to_nat n) (Z.to_nat (k - n)) s
  else if (-6 <? n) && (n <=? 0)
  then "0." +:+ zeros (Z.to_nat (- n)) +:+ s
  else if k =? 1
  then s +:+ exponent_part (n - 1)
  else substring 0 1 s +:+ "." +:+ substring 1 (Z.to_nat (k - 1)) s
       +:+ exponent_part (n - 1).

(** [Number::toString], radix 10. *)
Definition Number_toString (x : Number) : string :=
  match x with
  | NumNaN => "NaN"
  | NumZero _ => "0"
  | NumInfinity negative => if negative then "-Infinity" else "Infinity"
  | NumFinite negative s n =>
      (if negative then "-" else "") +:+ digits_toString s n
  end.

(** *** The Number of an integer

    The double nearest to a natural number [a], ties to the even
    significand; from 2^1024 on there is none. *)
Definition round53 (a : Z) : Z :=
  let bits := Z.log2 a + 1 in
  if bits <=? 53 then a
  else
    let shift := bits - 53 in
    let q := Z.shiftr a shift in
    let r := a - Z.shiftl q shift in
    let half := 2 ^ (shift - 1) in
    let q' := if (half <? r) || ((r =? half) && Z.odd q) then q + 1 else q in
    Z.shiftl q' shift.

(** A numeral without the zeros at its end. *)
Fixpoint strip_zeros (d : string) : string :=
  match d with
  | EmptyString => EmptyString
  | String c d' =>
      let r := strip_zeros d' in
      if Ascii.eqb c "0" && String.eqb r "" then EmptyString else String c r
  end.

(** Step 5 of [Number::toString] for a double [x] that is an integer of
    [n] digits, from 2^53 on: the least number [k] of digits for which
    some [s] of [k] digits has [s * 10^(n - k)] round to [x]; of two such
    [s] the one nearer to [x], and the even one when they are as near. *)
Fixpoint shortest_digits (fuel : nat) (k : Z) (x : Z) (n : Z) : string * Z :=
  match fuel with
  | O => (strip_zeros (decimal x), n)
  | S fuel' =>
      if n <? k then (strip_zeros (decimal x), n)
      else
        let u := 10 ^ (n - k) in
        let lo := x / u in
        let hi := lo + 1 in
        let lo_ok := round53 (lo * u) =? x in
        let hi_ok := round53 (hi * u) =? x in
        if lo_ok || hi_ok then
          let s :=
            if lo_ok && hi_ok then
              if x - lo * u <? hi * u - x then lo
              else if hi * u - x <? x - lo * u then hi
              else if Z.even lo then lo else hi
            else if lo_ok then lo else hi in
          if s =? 10 ^ k then ("1"%string, n + 1) else (decimal s, n)
        else shortest_digits fuel' (k + 1) x n
  end.

(** The Number that an integer denotes: the double nearest to it.  An
    integer below 2^53 is a double, and its digits are the shortest. *)
Definition Number_of_Z (z : Z) : Number :=
  if z =? 0 then NumZero false
  else
    let x := round53 (Z.abs z) in
    if x <? 2 ^ 53
    then NumFinite (z <? 0) (strip_zeros (decimal x))
           (Z.of_nat (String.length (decimal x)))
    else if 2 ^ 1024 <=? x then NumInfinity (z <? 0)
    else
      let r := shortest_digits 17 1 x (Z.of_nat (String.length (decimal x))) in
      NumFinite (z <? 0) (fst r) (snd r).

(** An integer in the place of a Number stands for that Number. *)
Coercion Number_of_Z : Z >-> Number.

(** ** The values of a parameter record

    [string | number | boolean | undefined]. *)
Inductive value :=
| VString (s : string)
| VNumber (x : Number)
| VBoolean (b : bool)
| VUndefined.

(** [Object.entries(params)]: the own properties in enumeration order.  An
    object holds a name once. *)
Definition entry : Type := string * value.

Definition is_defined (e : entry) : bool :=
  match snd e with
  | VUndefined => false
  | _ => true
  end.

Definition names (p : list entry) : list string := List.map fst p.

(** The conversion that a template literal applies to [v]. *)
Definition ToString (v : value) : string :=
  match v with
  | VString s => s
  | VNumber x => Number_toString x
  | VBoolean true => "true"
  | VBoolean false => "false"
  | VUndefined => "undefined"
  end.

(** [`${k}=${v}`] *)
Definition pair_text (e : entry) : string :=
  fst e +:+ "=" +:+ ToString (snd e).

(** [Array.prototype.join]. *)
Fixpoint Array_join (sep : string) (l : list string) : string :=
  match l with
  | [] => ""
  | x :: l' =>
      match l' with
      | [] => x
      | _ :: _ => x +:+ sep +:+ Array_join sep l'
      end
  end.

(** [Array.prototype.sort(compareFn)] is a stable sort.  For a comparator
    that is consistent on the elements, every stable sort returns the same
    array; it is computed here by insertion from the right, an element
    going in front of the first one that it does not follow. *)
Section ArraySort.
Context {A : Type} (compareFn : A -> A -> Z).

Fixpoint sort_insert (x : A) (l : list A) : list A :=
  match l with
  | [] => [x]
  | y :: l' =>
      if compareFn x y <=? 0 then x :: l else y :: sort_insert x l'
  end.

Definition Array_sort (l : list A) : list A :=
  fold_right sort_insert [] l.
End ArraySort.

Section Fingerprint.
(** [String.prototype.localeCompare] of the host: negative, zero or
    positive. *)
Variable localeCompare : string -> string -> Z.

(** The [filtered] string of [generateCacheKey]. *)
Definition cacheKeyInput (params : list entry) : string :=
  Array_join "&"
    (List.map pair_text
       (Array_sort (fun a b => localeCompare (fst a) (fst b))
          (List.filter is_defined params))).

Definition generateCacheKey (params : list entry) : string :=
  sha256_hex (cacheKeyInput params).
End Fingerprint.

(** ** The collation of the host on ASCII

    Without a locale argument [localeCompare] compares by the collation of
    the default locale.  For English (and every locale that does not tailor
    the Latin letters) that is the CLDR root collation, which on ASCII is:
    white space, then punctuation and symbols in the order of
    [punctuation_order], then the digits, then the letters in alphabetical
    order, a lowercase letter before its uppercase; the other control
    characters are ignored.  Strings are compared first by the letters they
    are made of, and only when these agree by case. *)

Definition punctuation_order : string :=
  "_-,;:!?.'" +:+ String (ascii_of_nat 34) "()[]{}@*/\&#%`^+<=>|~$".

Fixpoint index_of (c : ascii) (s : string) (i : Z) : option Z :=
  match s with
  | EmptyString => None
  | String d s' => if Ascii.eqb c d then Some i else index_of c s' (i + 1)
  end.

(** Primary weight and case weight of a character; [None] for one that
    collation ignores, and for a byte that is not ASCII, which this table
    does not cover. *)
Definition collation_element (c : ascii) : option (Z * Z) :=
  let n := Z.of_nat (nat_of_ascii c) in
  if (9 <=? n) && (n <=? 13) then Some (n - 9, 0)
  else if n =? 32 then Some (5, 0)
  else if (48 <=? n) && (n <=? 57) then Some (100 + (n - 48), 0)
  else if (97 <=? n) && (n <=? 122) then Some (200 + (n - 97), 0)
  else if (65 <=? n) && (n <=? 90) then Some (200 + (n - 65), 1)
  else if (33 <=? n) && (n <=? 126) then
    match index_of c punctuation_order 0 with
    | Some i => Some (10 + i, 0)
    | None => None
    end
  else None.

Definition collation_elements (s : string) : list (Z * Z) :=
  omap collation_element (list_ascii_of_string s).

(** Lexicographic comparison of two weight sequences: -1, 0 or 1. *)
Fixpoint compare_weights (u v : list Z) : Z :=
  match u, v with
  | [], [] => 0
  | [], _ :: _ => -1
  | _ :: _, [] => 1
  | a :: u', b :: v' =>
      if a <? b then -1 else if b <? a then 1 else compare_weights u' v'
  end.

Definition localeCompare_root (a b : string) : Z :=
  let ea := collation_elements a in
  let eb := collation_elements b in
  match compare_weights (List.map fst ea) (List.map fst eb) with
  | 0 => compare_weights (List.map snd ea) (List.map snd eb)
  | c => c
  end.

(** The order of the specification: byte by byte. *)
Definition bytewiseCompare (a b : string) : Z :=
  compare_weights (SHA256.bytes_of_string a) (SHA256.bytes_of_string b).

(** * Configuration: the cache settings of [src/config.ts] *)

(** [CacheModeSchema]: the union of the four literals. *)
Inductive CacheMode := ModeDisk | ModeMemory | ModeHybrid | ModeNone.

(** [Value.Check(CacheModeSchema, s)], with the mode that [s] denotes. *)
Definition CacheModeSchema (s : string) : option CacheMode :=
  if String.eqb s "disk" then Some ModeDisk
  else if String.eqb s "memory" then Some ModeMemory
  else if String.eqb s "hybrid" then Some ModeHybrid
  else if String.eqb s "none" then Some ModeNone
  else None.

Record Config := {
  cacheMode : CacheMode;
  cacheDir : string;
  cacheTTL : Z;                 (* seconds, at least 0 *)
  maxMemoryCacheItems : nat;    (* at least 1 *)
  browserCacheTTL : Z           (* seconds, at least 0 *)
}.

(** * [Map]: an association list in insertion order *)

Section JSMap.
Context {V : Type}.

Fixpoint Map_get (key : string) (m : list (string * V)) : option V :=
  match m with
  | [] => None
  | (k, v) :: m' => if String.eqb k key then Some v else Map_get key m'
  end.

Fixpoint Map_delete (key : string) (m : list (string * V)) : list (string * V) :=
  match m with
  | [] => []
  | (k, v) :: m' => if String.eqb k key then m' else (k, v) :: Map_delete key m'
  end.

(** [Map.prototype.set]: the value of a key that is present is replaced
    where it stands; a new key goes to the end. *)
Fixpoint Map_set (key : string) (v : V) (m : list (string * V)) : list (string * V) :=
  match m with
  | [] => [(key, v)]
  | (k, x) :: m' =>
      if String.eqb k key then (k, v) :: m' else (k, x) :: Map_set key v m'
  end.

(** [m.keys().next().value] *)
Definition Map_first_key (m : list (string * V)) : option string :=
  match m with
  | [] => None
  | (k, _) :: _ => Some k
  end.

Definition Map_keys (m : list (string * V)) : list string := List.map fst m.

End JSMap.

(** The truth value of a string in a condition: the empty string is false. *)
Definition truthy (s : string) : bool := negb (String.eqb s "").

(** * Memory backend: [LRUCache] *)

Record MemoryCacheEntry := {
  data : list Byte.byte;
  createdAt : Z
}.

Definition LRUCache_get (cfg : Config) (key : string) (now : Z)
    (cache : list (string * MemoryCacheEntry))
  : option (list Byte.byte) * list (string * MemoryCacheEntry) :=
  match Map_get key cache with
  | None => (None, cache)
  | Some entry =>
      let age := now - createdAt entry in
      if age >? cacheTTL cfg * 1000 then (None, Map_delete key cache)
      else (Some (data entry), Map_set key entry (Map_delete key cache))
  end.

(** The [while] loop of [set]; each round deletes an entry or leaves the
    loop, so as many rounds as the map has entries are enough
    ([evict_oldest_fuel]). *)
Fixpoint evict_oldest (fuel : nat) (maxItems : nat)
    (cache : list (string * MemoryCacheEntry)) : list (string * MemoryCacheEntry) :=
  match fuel with
  | O => cache
  | S fuel' =>
      if (maxItems <=? length cache)%nat then
        match Map_first_key cache with
        | Some firstKey =>
            if truthy firstKey
            then evict_oldest fuel' maxItems (Map_delete firstKey cache)
            else cache
        | None => cache
        end
      else cache
  end.

Definition LRUCache_set (maxItems : nat) (key : string) (bytes : list Byte.byte)
    (now : Z) (cache : list (string * MemoryCacheEntry))
  : list (string * MemoryCacheEntry) :=
  Map_set key {| data := bytes; createdAt := now |}
    (evict_oldest (length cache) maxItems cache).

Definition LRUCache_clear (cache : list (string * MemoryCacheEntry))
  : list (string * MemoryCacheEntry) := [].

Definition LRUCache_size (cache : list (string * MemoryCacheEntry)) : nat :=
  length cache.

Definition LRUCache_cleanup (cfg : Config) (now : Z)
    (cache : list (string * MemoryCacheEntry))
  : nat * list (string * MemoryCacheEntry) :=
  let ttlMs := cacheTTL cfg * 1000 in
  fold_left
    (fun (acc : nat * list (string * MemoryCacheEntry)) (e : string * MemoryCacheEntry) =>
       if now - createdAt (snd e) >? ttlMs
       then (S (fst acc), Map_delete (fst e) (snd acc))
       else acc)
    cache (O, cache).

(** * node:path: [join] *)

(** The segments of a path between its slashes. *)
Fixpoint split_slash (cur : string) (s : string) : list string :=
  match s with
  | EmptyString => [cur]
  | String c s' =>
      if Ascii.eqb c "/" then cur :: split_slash "" s'
      else split_slash (cur +:+ String c "") s'
  end.

(** [normalizeString]: "." and empty segments go, ".." takes the segment
    before it away (and stays, in a relative path, when there is none).
    [res] holds the segments kept so far, last first. *)
Fixpoint normalize_segments (allowAboveRoot : bool) (res : list string)
    (segs : list string) : list string :=
  match segs with
  | [] => rev res
  | seg :: segs' =>
      if String.eqb seg "" || String.eqb seg "." then
        normalize_segments allowAboveRoot res segs'
      else if String.eqb seg ".." then
        match res with
        | last :: res' =>
            if String.eqb last ".."
            then
              if allowAboveRoot
              then normalize_segments allowAboveRoot (seg :: res) segs'
              else normalize_segments allowAboveRoot res segs'
            else normalize_segments allowAboveRoot res' segs'
        | [] =>
            if allowAboveRoot
            then normalize_segments allowAboveRoot [seg] segs'
            else normalize_segments allowAboveRoot [] segs'
        end
      else normalize_segments allowAboveRoot (seg :: res) segs'
  end.

(** [path.charCodeAt(0) === 47] and [path.charCodeAt(path.length - 1) === 47] *)
Definition is_absolute (p : string) : bool :=
  match p with
  | String c _ => Ascii.eqb c "/"
  | EmptyString => false
  end.

Fixpoint ends_with_slash (p : string) : bool :=
  match p with
  | EmptyString => false
  | String c p' =>
      match p' with
      | EmptyString => Ascii.eqb c "/"
      | String _ _ => ends_with_slash p'
      end
  end.

Definition path_normalize (p : string) : string :=
  if String.eqb p "" then "."
  else
    let isAbsolute := is_absolute p in
    let trailingSeparator := ends_with_slash p in
    let body :=
      Array_join "/" (normalize_segments (negb isAbsolute) [] (split_slash "" p)) in
    if String.eqb body "" then
      if isAbsolute then "/" else if trailingSeparator then "./" else "."
    else
      let body := if trailingSeparator then body +:+ "/" else body in
      if isAbsolute then "/" +:+ body else body.

Definition path_join (parts : list string) : string :=
  match List.filter truthy parts with
  | [] => "."
  | nonempty => path_normalize (Array_join "/" nonempty)
  end.

(** * Disk backend *)

(** A regular file: its content and its modification time (milliseconds).
    The disk is the regular files of the cache directory, by path. *)
Record File := {
  contents : list Byte.byte;
  mtime : Z
}.

(** The [find] binary of the host decides what [-mmin +n] means.  GNU
    findutils matches a file modified more than [n] minutes ago; BusyBox
    (the [find] of the Alpine image of the Dockerfile) counts the age in
    whole seconds and matches from [n + 1] minutes on. *)
Inductive FindFlavour := GnuFind | BusyBoxFind.

Definition mmin_plus (flavour : FindFlavour) (n : Z) (now : Z) (f : File) : bool :=
  match flavour with
  | GnuFind => n * 60000 <? now - mtime f
  | BusyBoxFind => n * 60 + 60 <=? now / 1000 - mtime f / 1000
  end.

(** What the host decides: the [find] in use, and which writes and removals
    succeed (a full disk or a missing permission makes one fail). *)
Record Host := {
  find : FindFlavour;
  write_succeeds : string -> bool;
  rm_succeeds : string -> bool
}.

Definition getCachePath (cfg : Config) (key : string) : string :=
  let shard := substring 0 2 key in
  path_join [cacheDir cfg; shard; key].

(** The removal of an expired file is started and not awaited; it has
    taken place, when it succeeds, in the disk that is returned. *)
Definition getDiskCached (cfg : Config) (host : Host) (key : string) (now : Z)
    (disk : gmap string File) : option (list Byte.byte) * gmap string File :=
  let path := getCachePath cfg key in
  match disk !! path with
  | Some file =>
      let age := now - mtime file in
      if age <? cacheTTL cfg * 1000 then (Some (contents file), disk)
      else (None, if rm_succeeds host path then delete path disk else disk)
  | None => (None, disk)
  end.

(** A write that fails is logged and changes nothing. *)
Definition setDiskCache (cfg : Config) (host : Host) (key : string)
    (bytes : list Byte.byte) (now : Z) (disk : gmap string File) : gmap string File :=
  let path := getCachePath cfg key in
  if write_succeeds host path
  then <[path := {| contents := bytes; mtime := now |}]> disk
  else disk.

(** [find ${cacheDir} -type f -mmin +${n}]: the paths of the files matched. *)
Definition find_mmin (host : Host) (n : Z) (now : Z) (disk : gmap string File)
  : list string :=
  List.map fst
    (List.filter (fun pf : string * File => mmin_plus (find host) n now (snd pf))
       (map_to_list disk)).

(** The disk branch of [cleanupCache]. *)
Definition cleanupDisk (cfg : Config) (host : Host) (now : Z)
    (disk : gmap string File) : Z * gmap string File :=
  let maxAgeMinutes := cacheTTL cfg / 60 in
  let oldFiles := find_mmin host maxAgeMinutes now disk in
  fold_left
    (fun (acc : Z * gmap string File) (file : string) =>
       if rm_succeeds host file
       then (fst acc + 1, delete file (snd acc))
       else acc)
    oldFiles (0, disk).

(** * Cache facade *)

Record State := {
  memoryCache : list (string * MemoryCacheEntry);
  disk : gmap string File
}.

Definition getCached (cfg : Config) (host : Host) (key : string) (now : Z)
    (st : State) : option (list Byte.byte) * State :=
  match cacheMode cfg with
  | ModeDisk =>
      let r := getDiskCached cfg host key now (disk st) in
      (fst r, {| memoryCache := memoryCache st; disk := snd r |})
  | ModeMemory =>
      let r := LRUCache_get cfg key now (memoryCache st) in
      (fst r, {| memoryCache := snd r; disk := disk st |})
  | ModeNone => (None, st)
  | _ => (None, st)
  end.

(** [_format] is not used. *)
Definition setCache (cfg : Config) (host : Host) (key : string)
    (bytes : list Byte.byte) (_format : string) (now : Z) (st : State) : State :=
  match cacheMode cfg with
  | ModeDisk =>
      {| memoryCache := memoryCache st;
         disk := setDiskCache cfg host key bytes now (disk st) |}
  | ModeMemory =>
      {| memoryCache :=
           LRUCache_set (maxMemoryCacheItems cfg) key bytes now (memoryCache st);
         disk := disk st |}
  | ModeNone => st
  | ModeHybrid => st    (* no case of the switch applies *)
  end.

Definition cleanupCache (cfg : Config) (host : Host) (now : Z) (st : State)
  : Z * State :=
  match cacheMode cfg with
  | ModeNone => (0, st)
  | ModeMemory =>
      let r := LRUCache_cleanup cfg now (memoryCache st) in
      (Z.of_nat (fst r), {| memoryCache := snd r; disk := disk st |})
  | _ =>
      let r := cleanupDisk cfg host now (disk st) in
      (fst r, {| memoryCache := memoryCache st; disk := snd r |})
  end.

(** The object that [getCacheStats] returns; [None] is [undefined], the
    value of a call in which no case of the switch returns. *)
Record CacheStats := {
  mode : CacheMode;
  items : option nat;
  directory : option string
}.

Definition getCacheStats (cfg : Config) (st : State) : option CacheStats :=
  match cacheMode cfg with
  | ModeMemory =>
      Some {| mode := ModeMemory;
              items := Some (LRUCache_size (memoryCache st));
              directory := None |}
  | ModeDisk =>
      Some {| mode := ModeDisk; items := None; directory := Some (cacheDir cfg) |}
  | ModeNone =>
      Some {| mode := ModeNone; items := None; directory := None |}
  | ModeHybrid => None
  end.

(** * Response headers: [getCacheHeaders] *)

(** The own properties of the [MIME_TYPES] object. *)
Definition MIME_TYPES : gmap string string :=
  list_to_map
    [("webp", "image/webp"); ("avif", "image/avif"); ("png", "image/png");
     ("jpg", "image/jpeg"); ("jpeg", "image/jpeg"); ("gif", "image/gif")].

(** [MIME_TYPES] is an object literal: a name that is not its own property
    is looked up in [Object.prototype], whose properties are these. *)
Definition Object_prototype_names : list string :=
  ["constructor"; "__defineGetter__"; "__defineSetter__"; "hasOwnProperty";
   "__lookupGetter__"; "__lookupSetter__"; "isPrototypeOf";
   "propertyIsEnumerable"; "toString"; "valueOf"; "__proto__";
   "toLocaleString"].

(** The value of a property read: a string, or what [Object.prototype]
    holds under that name (a function, or the prototype object itself). *)
Inductive PropertyValue :=
| PString (s : string)
| PInherited (name : string).

(** [MIME_TYPES[format]]; [None] is [undefined]. *)
Definition MIME_TYPES_get (format : string) : option PropertyValue :=
  match MIME_TYPES !! format with
  | Some s => Some (PString s)
  | None =>
      if bool_decide (format ∈ Object_prototype_names)
      then Some (PInherited format)
      else None
  end.

(** [x || y] on a property read. *)
Definition or_else (x : option PropertyValue) (y : string) : PropertyValue :=
  match x with
  | Some (PString s) => if truthy s then PString s else PString y
  | Some (PInherited n) => PInherited n
  | None => PString y
  end.

Record Headers := {
  Content_Type : PropertyValue;
  Cache_Control : string;
  Vary : string
}.

Definition getCacheHeaders (cfg : Config) (format : string) : Headers :=
  {| Content_Type := or_else (MIME_TYPES_get format) "image/jpeg";
     Cache_Control :=
       "public, max-age=" +:+ Number_toString (browserCacheTTL cfg) +:+ ", immutable";
     Vary := "Accept" |}.

(** * Notions used in the statements *)

(** The serialization as the specification words it: names sorted byte by
    byte. *)
Definition cacheKeyInput_bytewise (params : list entry) : string :=
  cacheKeyInput bytewiseCompare params.

(** [cmp] orders the names [ks]: any two of them are comparable, and it is
    transitive on them. *)
Definition orders (cmp : string -> string -> Z) (ks : list string) : Prop :=
  (forall a b, a ∈ ks -> b ∈ ks -> cmp a b <= 0 \/ cmp b a <= 0) /\
  (forall a b c, a ∈ ks -> b ∈ ks -> c ∈ ks ->
                 cmp a b <= 0 -> cmp b c <= 0 -> cmp a c <= 0).

(** [cmp] tells the names [ks] apart: no two different ones compare equal. *)
Definition separates (cmp : string -> string -> Z) (ks : list string) : Prop :=
  forall a b, a ∈ ks -> b ∈ ks -> cmp a b <= 0 -> cmp b a <= 0 -> a = b.

(** Both, as a check that computes. *)
Definition ordersb (cmp : string -> string -> Z) (ks : list string) : bool :=
  forallb (fun a =>
    forallb (fun b =>
      ((cmp a b <=? 0) || (cmp b a <=? 0)) &&
      forallb (fun c =>
        implb ((cmp a b <=? 0) && (cmp b c <=? 0)) (cmp a c <=? 0)) ks) ks) ks.

Definition separatesb (cmp : string -> string -> Z) (ks : list string) : bool :=
  forallb (fun a =>
    forallb (fun b =>
      implb ((cmp a b <=? 0) && (cmp b a <=? 0)) (String.eqb a b)) ks) ks.

(** [a] stands before [b] in the list [l]. *)
Definition before {A : Type} (a b : A) (l : list A) : Prop :=
  exists l1 l2 l3, l = l1 ++ a :: l2 ++ b :: l3.

(** The control character U+0001. *)
Definition SOH : string := String (ascii_of_nat 1) "".

(** The states of the memory backend that calls can produce from the empty
    cache of [new LRUCache(maxItems)], the keys being cache keys (digests in
    hexadecimal, so never the empty string). *)
Inductive reachable (cfg : Config) : list (string * MemoryCacheEntry) -> Prop :=
| reachable_new : reachable cfg []
| reachable_get key now cache :
    reachable cfg cache ->
    reachable cfg (snd (LRUCache_get cfg key now cache))
| reachable_set key bytes now cache :
    key <> ""%string ->
    reachable cfg cache ->
    reachable cfg (LRUCache_set (maxMemoryCacheItems cfg) key bytes now cache)
| reachable_cleanup now cache :
    reachable cfg cache ->
    reachable cfg (snd (LRUCache_cleanup cfg now cache))
| reachable_clear cache :
    reachable cfg cache ->
    reachable cfg (LRUCache_clear cache).

(** What every reachable state satisfies. *)
Definition cache_ok (maxItems : nat) (cache : list (string * MemoryCacheEntry)) : Prop :=
  NoDup (Map_keys cache) /\
  Forall (fun k => k <> ""%string) (Map_keys cache) /\
  (length cache <= maxItems)%nat.

(** Inserting a sequence of keys, each with its bytes and its time. *)
Definition set_all (maxItems : nat) (writes : list (string * list Byte.byte * Z))
    (cache : list (string * MemoryCacheEntry)) : list (string * MemoryCacheEntry) :=
  fold_left
    (fun c w => LRUCache_set maxItems (fst (fst w)) (snd (fst w)) (snd w) c)
    writes cache.

Definition write_keys (writes : list (string * list Byte.byte * Z)) : list string :=
  List.map (fun w => fst (fst w)) writes.

(** The configuration that [src/config.ts] builds when the environment sets
    nothing, and the same with another mode or item bound. *)
Definition defaultConfig : Config :=
  {| cacheMode := ModeDisk; cacheDir := "./cache"; cacheTTL := 86400;
     maxMemoryCacheItems := 1000; browserCacheTTL := 31536000 |}.

Definition memoryConfig (maxItems : nat) : Config :=
  {| cacheMode := ModeMemory; cacheDir := "./cache"; cacheTTL := 86400;
     maxMemoryCacheItems := maxItems; browserCacheTTL := 31536000 |}.

Definition configWith (m : CacheMode) (ttl : Z) : Config :=
  {| cacheMode := m; cacheDir := "./cache"; cacheTTL := ttl;
     maxMemoryCacheItems := 1000; browserCacheTTL := 31536000 |}.

(** The cache keys: 64 lowercase hexadecimal digits. *)
Definition is_hex_digit (c : ascii) : bool :=
  let n := nat_of_ascii c in
  ((48 <=? n) && (n <=? 57) || (97 <=? n) && (n <=? 102))%nat.

Definition isCacheKey (key : string) : bool :=
  (String.length key =? 64)%nat && forallb is_hex_digit (list_ascii_of_string key).

(** The segments of the cache directory, as [join] keeps them. *)
Definition root_segments (dir : string) : list string :=
  normalize_segments (negb (is_absolute dir)) [] (split_slash "" dir).

(** A segment that [join] keeps as it is. *)
Definition plain_segment (s : string) : bool :=
  forallb (fun c => negb (Ascii.eqb c "/")) (list_ascii_of_string s)
  && negb (String.eqb s "") && negb (String.eqb s ".") && negb (String.eqb s "..").

(** A host on which every write and removal succeeds. *)
Definition reliableHost (flavour : FindFlavour) : Host :=
  {| find := flavour; write_succeeds := fun _ => true; rm_succeeds := fun _ => true |}.

(** A sequence of [setCache] calls: key, bytes, format and time of each. *)
Definition setCache_all (cfg : Config) (host : Host)
    (writes : list (string * list Byte.byte * string * Z)) (st : State) : State :=
  fold_left
    (fun s w => setCache cfg host (fst (fst (fst w))) (snd (fst (fst w)))
                  (snd (fst w)) (snd w) s)
    writes st.

(** The six formats of the [ImageFormat] type. *)
Definition ImageFormat_names : list string :=
  ["webp"; "avif"; "png"; "jpg"; "jpeg"; "gif"].

(** The file is at least as new as now - ttl ([now] and [t] in
    milliseconds, [ttl] in seconds). *)
Definition at_least_as_new (now ttl t : Z) : bool := now - ttl * 1000 <=? t.

(** * Recency in the memory backend *)

(** The calls on the memory backend, each with its time. *)
Inductive CacheCall :=
| CacheGet (key : string) (now : Z)
| CacheSet (key : string) (bytes : list Byte.byte) (now : Z).

Definition call (cfg : Config) (cache : list (string * MemoryCacheEntry))
    (c : CacheCall) : list (string * MemoryCacheEntry) :=
  match c with
  | CacheGet key now => snd (LRUCache_get cfg key now cache)
  | CacheSet key bytes now =>
      LRUCache_set (maxMemoryCacheItems cfg) key bytes now cache
  end.

(** The table after a sequence of calls on a new cache. *)
Definition calls (cfg : Config) (cs : list CacheCall)
  : list (string * MemoryCacheEntry) :=
  fold_left (call cfg) cs [].

(** The key that a call uses: a [set] its key, a [get] its key when it is
    a hit. *)
Definition used_key (cfg : Config) (cache : list (string * MemoryCacheEntry))
    (c : CacheCall) : option string :=
  match c with
  | CacheSet key _ _ => Some key
  | CacheGet key now =>
      match fst (LRUCache_get cfg key now cache) with
      | Some _ => Some key
      | None => None
      end
  end.

(** The keys in the order of their last use, the least recently used
    first, after the calls [cs] made from the table [cache], [order] being
    the order before them. *)
Fixpoint recency (cfg : Config) (cache : list (string * MemoryCacheEntry))
    (order : list string) (cs : list CacheCall) : list string :=
  match cs with
  | [] => order
  | c :: cs' =>
      let order' :=
        match used_key cfg cache c with
        | Some key => List.filter (fun k => negb (String.eqb k key)) order ++ [key]
        | None => order
        end in
      recency cfg (call cfg cache c) order' cs'
  end.

(** The least recently used of the entries that the table holds after the
    calls [cs]. *)
Definition least_recently_used (cfg : Config) (cs : list CacheCall)
  : option string :=
  List.find (fun k => bool_decide (k ∈ Map_keys (calls cfg cs)))
    (recency cfg [] [] cs).

(** * More of [src/services/cache.ts] *)

(** An entry is expired at [now] when it is older than the time to live:
    the test of [LRUCache.get] and of [LRUCache.cleanup]. *)
Definition expired (cfg : Config) (now : Z) (e : string * MemoryCacheEntry) : bool :=
  now - createdAt (snd e) >? cacheTTL cfg * 1000.

(** [cleanupInterval]: the timer of the periodic sweep, when one is
    installed; [unref] has been called on it. *)
Record Interval := {
  intervalMs : Z;
  unrefed : bool
}.

Definition startCacheCleanup (cfg : Config) (ms : Z)
    (cleanupInterval : option Interval) : option Interval :=
  match cleanupInterval with
  | Some _ => cleanupInterval
  | None =>
      match cacheMode cfg with
      | ModeNone => None
      | _ => Some {| intervalMs := ms; unrefed := true |}
      end
  end.

Definition stopCacheCleanup (cleanupInterval : option Interval) : option Interval :=
  match cleanupInterval with
  | Some _ => None
  | None => None
  end.

(** The calls that start and stop the timer. *)
Inductive TimerCall := CallStart (ms : Z) | CallStop.

Definition timer_call (cfg : Config) (t : option Interval) (c : TimerCall)
  : option Interval :=
  match c with
  | CallStart ms => startCacheCleanup cfg ms t
  | CallStop => stopCacheCleanup t
  end.

(** * The routes: [src/routes/image.ts] and [src/routes/og.ts] *)

(** The [query] object of a request after validation: the value of each
    property, [undefined] for a parameter that the request does not give. *)
Definition Query : Type := string -> value.

(** The properties of the [params] object of the image route, in the order
    in which the object literal lists them. *)
Definition ImageParams_names : list string :=
  ["url"; "w"; "h"; "size"; "fit"; "position"; "q"; "format"; "blur";
   "grayscale"; "rotate"; "flip"; "flop"; "brightness"; "saturation";
   "sharpen"; "tint"; "trim"; "crop"; "wm_image"; "wm_text"; "wm_position";
   "wm_opacity"; "wm_scale"; "wm_padding"; "wm_font"; "wm_fontsize";
   "wm_color"].

Definition image_params (query : Query) : list entry :=
  List.map (fun name => (name, query name)) ImageParams_names.

(** The same for the route of the Open Graph images. *)
Definition OGParams_names : list string :=
  ["title"; "description"; "template"; "bg"; "fg"; "titleColor"; "descColor";
   "accentColor"; "image"; "logo"; "w"; "h"; "config"; "font"].

Definition og_params (query : Query) : list entry :=
  List.map (fun name => (name, query name)) OGParams_names.

(** [{ type: "og", ...params }], the object of which the route takes the
    cache key. *)
Definition og_cache_params (query : Query) : list entry :=
  ("type"%string, VString "og") :: og_params query.

(** ** Errors: [src/utils/errors.ts] *)

(** The classes of errors; [PixelServeError] is an instance of the base
    class itself, with the status and the code it was made with. *)
Inductive ErrorClass :=
| PixelServeError (status : Z) (error : string)
| ValidationError
| ForbiddenError
| NotFoundError
| FetchError
| TimeoutError
| ImageProcessingError.

Definition statusCode (c : ErrorClass) : Z :=
  match c with
  | PixelServeError status _ => status
  | ValidationError => 400
  | ForbiddenError => 403
  | NotFoundError => 404
  | FetchError => 502
  | TimeoutError => 504
  | ImageProcessingError => 422
  end.

Definition code (c : ErrorClass) : string :=
  match c with
  | PixelServeError _ error => error
  | ValidationError => "VALIDATION_ERROR"
  | ForbiddenError => "FORBIDDEN"
  | NotFoundError => "NOT_FOUND"
  | FetchError => "FETCH_ERROR"
  | TimeoutError => "TIMEOUT"
  | ImageProcessingError => "IMAGE_PROCESSING_ERROR"
  end.

(** What a [throw] can throw: an instance of one of the classes above, an
    [Error] that is no [PixelServeError], with its [name] and its message,
    or a value that is no [Error]. *)
Inductive Thrown :=
| ThrownPixelServe (c : ErrorClass) (message : string)
| ThrownError (name : string) (message : string)
| ThrownValue.

(** ** The end of [processImage]: the output format and the [catch] *)

(** [defaultFormat] of [rawConfig] in [src/config.ts]. *)
Definition defaultFormat : string := "webp".

(** [params.name] on the [params] object. *)
Fixpoint property (params : list entry) (name : string) : value :=
  match params with
  | [] => VUndefined
  | (k, v) :: params' => if String.eqb k name then v else property params' name
  end.

(** [v || d], as the name of a property of [MIME_TYPES]. *)
Definition value_or (v : value) (d : string) : string :=
  match v with
  | VString s => if truthy s then s else d
  | VNumber NumNaN => d
  | VNumber (NumZero _) => d
  | VNumber x => Number_toString x
  | VBoolean b => if b then "true" else d
  | VUndefined => d
  end.

(** The [catch] clause of [processImage]. *)
Definition processImage_catch (error : Thrown) : Thrown :=
  match error with
  | ThrownPixelServe ValidationError _ => error
  | ThrownPixelServe ImageProcessingError _ => error
  | ThrownPixelServe _ message =>
      ThrownPixelServe ImageProcessingError ("Image processing failed: " +:+ message)
  | ThrownError _ message =>
      ThrownPixelServe ImageProcessingError ("Image processing failed: " +:+ message)
  | ThrownValue => ThrownPixelServe ImageProcessingError "Image processing failed"
  end.

(** [processImage]: [pipeline] is the body of the [try] up to the buffer
    that [pipeline.toBuffer()] returns, the fetch of the source and the
    transformations; it returns the buffer or throws. *)
Definition processImage (pipeline : list entry -> Thrown + list Byte.byte)
    (params : list entry) : Thrown + (list Byte.byte * string) :=
  match pipeline params with
  | inr buffer => inr (buffer, value_or (property params "format") defaultFormat)
  | inl error => inl (processImage_catch error)
  end.

(** ** The handlers *)

Record ErrorBody := {
  error_code : string;
  error_message : string
}.

(** [onError] of the image route and of the Open Graph route: the status
    and the body of the answer. *)
Definition onError (error : Thrown) : Z * ErrorBody :=
  match error with
  | ThrownPixelServe c message =>
      (statusCode c, {| error_code := code c; error_message := message |})
  | _ =>
      (500, {| error_code := "INTERNAL_ERROR";
               error_message := "An unexpected error occurred" |})
  end.

Record Response := {
  body : list Byte.byte;
  headers : Headers
}.

(** The handler of [GET /image].  [t_get] is the time of the lookup and
    [t_set] that of the write; the state that is returned is the one in
    which the write, which the handler does not wait for, has been done. *)
Definition image_handler (cfg : Config) (host : Host)
    (localeCompare : string -> string -> Z)
    (pipeline : list entry -> Thrown + list Byte.byte)
    (query : Query) (t_get t_set : Z) (st : State)
  : (Thrown + Response) * State :=
  let params := image_params query in
  let cacheKey := generateCacheKey localeCompare params in
  let r := getCached cfg host cacheKey t_get st in
  match fst r with
  | Some cached =>
      let format := value_or (property params "format") "webp" in
      (inr {| body := cached; headers := getCacheHeaders cfg format |}, snd r)
  | None =>
      match processImage pipeline params with
      | inl error => (inl error, snd r)
      | inr (buffer, format) =>
          (inr {| body := buffer; headers := getCacheHeaders cfg format |},
           setCache cfg host cacheKey buffer format t_set (snd r))
      end
  end.

(** Two comparisons put the names [ks] in the same order. *)
Definition agreeb (cmp1 cmp2 : string -> string -> Z) (ks : list string) : bool :=
  forallb (fun a =>
    forallb (fun b => Bool.eqb (cmp1 a b <=? 0) (cmp2 a b <=? 0)) ks) ks.

(** * Regular expressions, as far as the sources use them *)

(** The patterns of [src/utils/url-validator.ts]: literal characters,
    classes of ranges, sequence, alternative, a fixed number of repetitions,
    and the assertions [^] and [$]. *)
Inductive regex :=
| Bol
| Eol
| Lit (s : string)
| Class (ranges : list (ascii * ascii))
| Seq (r1 r2 : regex)
| Alt (r1 r2 : regex)
| Times (n : nat) (r : regex).

(** A sequence of more than two. *)
Definition Cat (l : list regex) : regex := fold_right Seq (Lit "") l.

Definition in_ranges (c : ascii) (ranges : list (ascii * ascii)) : bool :=
  existsb (fun r => (nat_of_ascii (fst r) <=? nat_of_ascii c)%nat
                    && (nat_of_ascii c <=? nat_of_ascii (snd r))%nat) ranges.

(** What is left of [s] after the prefix [t], if [s] starts with it. *)
Fixpoint strip_prefix (t s : string) : option string :=
  match t with
  | EmptyString => Some s
  | String a t' =>
      match s with
      | EmptyString => None
      | String b s' => if Ascii.eqb a b then strip_prefix t' s' else None
      end
  end.

(** [accept r s bol k]: some match of [r] at the start of [s] leaves a rest
    that [k] accepts; [bol] tells whether [s] starts at the start of the
    input. *)
Fixpoint accept (r : regex) (s : string) (bol : bool)
    (k : string -> bool -> bool) {struct r} : bool :=
  match r with
  | Bol => if bol then k s bol else false
  | Eol => match s with EmptyString => k s bol | _ => false end
  | Lit t =>
      match strip_prefix t s with
      | Some s' => k s' (bol && (String.length t =? 0)%nat)
      | None => false
      end
  | Class ranges =>
      match s with
      | String c s' => if in_ranges c ranges then k s' false else false
      | EmptyString => false
      end
  | Seq r1 r2 => accept r1 s bol (fun s' bol' => accept r2 s' bol' k)
  | Alt r1 r2 => accept r1 s bol k || accept r2 s bol k
  | Times n r1 =>
      (fix times (n : nat) (s : string) (bol : bool) : bool :=
         match n with
         | O => k s bol
         | S n' => accept r1 s bol (fun s' bol' => times n' s' bol')
         end) n s bol
  end.

(** A match that starts at the start of [s] or further on. *)
Fixpoint search (r : regex) (s : string) (bol : bool) : bool :=
  accept r s bol (fun _ _ => true)
  || match s with
     | EmptyString => false
     | String _ s' => search r s' false
     end.

(** [RegExp.prototype.test]. *)
Definition RegExp_test (r : regex) (s : string) : bool := search r s true.

(** * [src/utils/url-validator.ts] *)

Definition digit_0_9 : list (ascii * ascii) := [("0", "9")]%char.

Definition PRIVATE_IP_RANGES : list regex :=
  [ Cat [Bol; Lit "127."];
    Cat [Bol; Lit "10."];
    Cat [Bol; Lit "172.";
         Alt (Cat [Lit "1"; Class [("6", "9")]%char])
           (Alt (Cat [Lit "2"; Class [("0", "9")]%char])
                (Cat [Lit "3"; Class [("0", "1")]%char]));
         Lit "."];
    Cat [Bol; Lit "192.168."];
    Cat [Bol; Lit "169.254."];
    Cat [Bol; Lit "0."];
    Cat [Bol; Lit "100.";
         Alt (Cat [Lit "6"; Class [("4", "9")]%char])
           (Alt (Cat [Class [("7", "9")]%char; Class [("0", "9")]%char])
                (Cat [Lit "1"; Class [("0", "2")]%char; Class [("0", "9")]%char]));
         Lit "."];
    Cat [Bol; Lit "::1"; Eol];
    Cat [Bol; Lit "fe80:"];
    Cat [Bol; Lit "fc00:"];
    Cat [Bol; Lit "fd"] ].

Definition isPrivateIP (ip : string) : bool :=
  existsb (fun range => RegExp_test range ip) PRIVATE_IP_RANGES.

Definition hex_class : list (ascii * ascii) :=
  [("0", "9"); ("A", "F"); ("a", "f")]%char.

Definition isValidHexColor (color : string) : bool :=
  RegExp_test
    (Alt (Cat [Bol; Times 3 (Class hex_class); Eol])
         (Cat [Bol; Times 6 (Class hex_class); Eol]))
    color.

(** [color.replace(/^#/, "")]. *)
Definition strip_hash (color : string) : string :=
  match color with
  | String c rest => if Ascii.eqb c "#" then rest else color
  | EmptyString => color
  end.

Definition sanitizeHexColor (color : string) : Thrown + string :=
  let cleaned := strip_hash color in
  if negb (isValidHexColor cleaned)
  then inl (ThrownPixelServe ValidationError ("Invalid hex color: " +:+ color))
  else inr cleaned.

(** The parts of a [URL] object that the code reads.  [hostname] is in
    ASCII: the parser has turned an international name into its ASCII
    form. *)
Record URL := {
  protocol : string;
  hostname : string;
  href : string
}.

(** [String.prototype.toLowerCase] on ASCII. *)
Definition lower_ascii (c : ascii) : ascii :=
  let n := nat_of_ascii c in
  if ((65 <=? n) && (n <=? 90))%nat then ascii_of_nat (n + 32) else c.

Fixpoint toLowerCase (s : string) : string :=
  match s with
  | EmptyString => EmptyString
  | String c s' => String (lower_ascii c) (toLowerCase s')
  end.

(** [String.prototype.endsWith]. *)
Definition endsWith (s t : string) : bool :=
  (String.length t <=? String.length s)%nat
  && String.eqb (substring (String.length s - String.length t) (String.length t) s) t.

(** [blockedDomains] of [rawConfig] in [src/config.ts]. *)
Definition blockedDomains : list string :=
  ["localhost"; "127.0.0.1"; "0.0.0.0"; "::1"].

(** The test of the block list and of the allow list. *)
Definition domain_matches (hostname d : string) : bool :=
  String.eqb hostname d || endsWith hostname ("." +:+ d).

(** [dns.resolve4(hostname).catch(() => [])]: [None] is a lookup that
    fails. *)
Definition or_empty (r : option (list string)) : list string :=
  match r with
  | Some l => l
  | None => []
  end.

(** [validateUrl]: [parsed] is what [new URL(urlString)] gives, [None] when
    it throws; [resolve4] and [resolve6] are the lookups of the resolver. *)
Definition validateUrl (allowedDomains : list string) (parsed : option URL)
    (resolve4 resolve6 : string -> option (list string)) : Thrown + URL :=
  match parsed with
  | None => inl (ThrownPixelServe ValidationError "Invalid URL format")
  | Some url =>
      if negb (bool_decide (protocol url ∈ ["http:"; "https:"]%string))
      then inl (ThrownPixelServe ForbiddenError "Only HTTP/HTTPS URLs are allowed")
      else
        let hostname := toLowerCase (hostname url) in
        if existsb (domain_matches hostname) blockedDomains
        then inl (ThrownPixelServe ForbiddenError "Blocked domain")
        else if (0 <? length allowedDomains)%nat
                && negb (existsb (domain_matches hostname) allowedDomains)
        then inl (ThrownPixelServe ForbiddenError "Domain not in allowlist")
        else
          let addresses := or_empty (resolve4 hostname) in
          if existsb isPrivateIP addresses
          then inl (ThrownPixelServe ForbiddenError
                      "Private IP addresses are not allowed")
          else
            let ipv6Addresses := or_empty (resolve6 hostname) in
            if existsb isPrivateIP ipv6Addresses
            then inl (ThrownPixelServe ForbiddenError
                        "Private IP addresses are not allowed")
            else inr url
  end.

(** The address [a.b.c.d]. *)
Definition dotted_quad (a b c d : nat) : string :=
  decimal (Z.of_nat a) +:+ "." +:+ decimal (Z.of_nat b) +:+ "."
  +:+ decimal (Z.of_nat c) +:+ "." +:+ decimal (Z.of_nat d).

(** The addresses that the seven patterns for IPv4 cover, by their first
    two numbers. *)
Definition private_range (a b : nat) : bool :=
  ((a =? 127) || (a =? 10) || ((a =? 172) && (16 <=? b) && (b <=? 31))
   || ((a =? 192) && (b =? 168)) || ((a =? 169) && (b =? 254)) || (a =? 0)
   || ((a =? 100) && (64 <=? b) && (b <=? 129)))%nat.

(** A pattern of which every alternative starts with [^]. *)
Fixpoint anchored (r : regex) : bool :=
  match r with
  | Bol => true
  | Seq r1 _ => anchored r1
  | Alt r1 r2 => anchored r1 && anchored r2
  | _ => false
  end.

(** * [src/services/image-fetcher.ts] *)

(** The white space that [parseInt] skips, in UTF-8: U+0009 to U+000D,
    U+0020, U+00A0, U+1680, U+2000 to U+200A, U+2028, U+2029, U+202F,
    U+205F, U+3000 and U+FEFF. *)
Definition string_of_bytes (l : list nat) : string :=
  string_of_list_ascii (List.map ascii_of_nat l).

Definition white_space : list string :=
  List.map string_of_bytes
    ([[9]; [10]; [11]; [12]; [13]; [32]; [194; 160]; [225; 154; 128]]
     ++ List.map (fun n => [226; 128; n]) (seq 128 11)
     ++ [[226; 128; 168]; [226; 128; 169]; [226; 128; 175]; [226; 129; 159];
         [227; 128; 128]; [239; 187; 191]])%nat.

Fixpoint strip_any (prefixes : list string) (s : string) : option string :=
  match prefixes with
  | [] => None
  | p :: prefixes' =>
      match strip_prefix p s with
      | Some s' => Some s'
      | None => strip_any prefixes' s
      end
  end.

Fixpoint skip_white_space (fuel : nat) (s : string) : string :=
  match fuel with
  | O => s
  | S fuel' =>
      match strip_any white_space s with
      | Some s' => skip_white_space fuel' s'
      | None => s
      end
  end.

(** The value of the decimal digits at the start of [s], after [acc];
    [None] when there is none. *)
Fixpoint leading_digits (acc : option Z) (s : string) : option Z :=
  match s with
  | String c s' =>
      let n := nat_of_ascii c in
      if ((48 <=? n) && (n <=? 57))%nat
      then leading_digits
             (Some (10 * match acc with Some a => a | None => 0 end
                    + Z.of_nat (n - 48)))
             s'
      else acc
  | EmptyString => acc
  end.

(** [parseInt(s, 10)]; [None] is NaN. *)
Definition parseInt (s : string) : option Z :=
  match skip_white_space (String.length s) s with
  | String "-" s' => option_map Z.opp (leading_digits None s')
  | String "+" s' => leading_digits None s'
  | s' => leading_digits None s'
  end.

(** What the code reads of the response of [fetch]; [arrayBuffer] is the
    body, or what reading it throws. *)
Record HttpResponse := {
  ok : bool;
  status : Z;
  statusText : string;
  content_type : option string;
  content_length : option string;
  arrayBuffer : Thrown + list Byte.byte
}.

(** [h || d] on a header. *)
Definition header_or (h : option string) (d : string) : string :=
  match h with
  | Some s => if truthy s then s else d
  | None => d
  end.

(** The message about the limit: [Math.round(maxImageSize / 1024 / 1024)]
    rounds the half up. *)
Definition size_limit_message (maxImageSize : Z) : string :=
  "Image exceeds maximum size limit ("
  +:+ Number_toString ((maxImageSize + 524288) / 1048576) +:+ "MB)".

(** The [catch] clause of [fetchImage]. *)
Definition fetchImage_catch (error : Thrown) : Thrown :=
  match error with
  | ThrownError name _ =>
      if String.eqb name "AbortError"
      then ThrownPixelServe TimeoutError "Image fetch timed out"
      else error
  | ThrownPixelServe _ _ => error
  | ThrownValue => error
  end.

(** The body of the [try] of [fetchImage]. *)
Definition fetchImage_try (maxImageSize : Z) (response : HttpResponse)
  : Thrown + list Byte.byte :=
  if negb (ok response)
  then inl (ThrownPixelServe FetchError
              ("Failed to fetch image: " +:+ Number_toString (status response)
               +:+ " " +:+ statusText response))
  else
    let contentType := header_or (content_type response) "" in
    if negb (String.prefix "image/" contentType)
    then inl (ThrownPixelServe ValidationError
                ("URL does not return an image (got " +:+ contentType +:+ ")"))
    else
      let contentLength := parseInt (header_or (content_length response) "0") in
      if match contentLength with
         | Some n => (n >? 0) && (n >? maxImageSize)
         | None => false
         end
      then inl (ThrownPixelServe ValidationError (size_limit_message maxImageSize))
      else
        match arrayBuffer response with
        | inl error => inl error
        | inr bytes =>
            if Z.of_nat (length bytes) >? maxImageSize
            then inl (ThrownPixelServe ValidationError
                        (size_limit_message maxImageSize))
            else inr bytes
        end.

(** [fetchImage]: [validated] is the result of [validateUrl], [fetch] the
    request for the address, which returns a response or throws; an abort
    by the timer makes it throw an error of name [AbortError]. *)
Definition fetchImage (maxImageSize : Z) (validated : Thrown + URL)
    (fetch : string -> Thrown + HttpResponse) : Thrown + list Byte.byte :=
  match validated with
  | inl error => inl error
  | inr url =>
      match fetch (href url) with
      | inl error => inl (fetchImage_catch error)
      | inr response =>
          match fetchImage_try maxImageSize response with
          | inl error => inl (fetchImage_catch error)
          | inr bytes => inr bytes
          end
      end
  end.

(** * Checks of the embedding on known values *)

Example sha256_hex_empty :
  sha256_hex "" = "e3b0c44298fc1c149afbf4c8996fb92427ae41e4649b934ca495991b7852b855"%string.
Proof. vm_compute. reflexivity. Qed.

Example sha256_hex_abc :
  sha256_hex "abc" = "ba7816bf8f01cfea414140de5dae2223b00361a396177a9cb410ff61f20015ad"%string.
Proof. vm_compute. reflexivity. Qed.

Example sha256_hex_two_blocks :
  sha256_hex "aaaaaaaaaaaaaaaaaaaaaaaaaaaaaaaaaaaaaaaaaaaaaaaaaaaaaaaa"
  = "b35439a4ac6f0948b6d6f9e3c6af0f5f590ce20f1bde7090ef7970686ec6738a"%string.
Proof. vm_compute. reflexivity. Qed.

Example localeCompare_root_a_B : localeCompare_root "a" "B" = -1.
Proof. reflexivity. Qed.

Example localeCompare_root_a_A : localeCompare_root "a" "A" = -1.
Proof. reflexivity. Qed.

Example localeCompare_root_Aa_ab : localeCompare_root "Aa" "ab" = -1.
Proof. reflexivity. Qed.

Example localeCompare_root_w_wm : localeCompare_root "w" "wm_text" = -1.
Proof. reflexivity. Qed.

Example bytewiseCompare_a_B : bytewiseCompare "a" "B" = 1.
Proof. reflexivity. Qed.

Example cacheKeyInput_example :
  cacheKeyInput localeCompare_root
    [("w", VNumber 800); ("url", VString "https://example.com/image.png");
     ("h", VNumber 600); ("q", VUndefined); ("grayscale", VBoolean true)]
  = "grayscale=true&h=600&url=https://example.com/image.png&w=800"%string.
Proof. reflexivity. Qed.

Example generateCacheKey_example :
  generateCacheKey localeCompare_root
    [("w", VNumber 800); ("url", VString "https://example.com/image.png");
     ("h", VNumber 600)]
  = "32715181b1e87b3d852d54e58ee39d6beb9fc834c125b06a1db879b5bd1dd44c"%string.
Proof. vm_compute. reflexivity. Qed.


(** * Sorting *)

Section ArraySortFacts.
Context {A : Type} (compareFn : A -> A -> Z).

Let R (x y : A) : Prop := compareFn x y <= 0.

Lemma sort_insert_perm (x : A) (l : list A) :
  sort_insert compareFn x l ≡ₚ x :: l.
Proof.
  induction l as [|y l IH]; simpl; [reflexivity|].
  destruct (compareFn x y <=? 0); [reflexivity|].
  rewrite IH. apply perm_swap.
Qed.

Lemma Array_sort_perm (l : list A) : Array_sort compareFn l ≡ₚ l.
Proof.
  induction l as [|x l IH]; simpl; [reflexivity|].
  rewrite sort_insert_perm. by rewrite IH.
Qed.

Lemma sort_insert_sorted (x : A) (s : list A) :
  (forall y, y ∈ s -> R x y \/ R y x) ->
  (forall y z, y ∈ s -> z ∈ s -> R x y -> R y z -> R x z) ->
  StronglySorted R s ->
  StronglySorted R (sort_insert compareFn x s).
Proof.
  induction s as [|y s IH]; intros Htot Htr Hs; simpl.
  - repeat constructor.
  - inversion Hs as [|? ? Hs' Hall]; subst.
    destruct (Z.leb_spec (compareFn x y) 0) as [Hle|Hgt].
    + constructor; [exact Hs|].
      constructor; [exact Hle|].
      rewrite Forall_forall in Hall |- *. intros z Hz.
      apply (Htr y z); [left | right | exact Hle | by apply Hall]; done.
    + constructor.
      * apply IH; [| |exact Hs'].
        -- intros z Hz. apply Htot. by right.
        -- intros z1 z2 Hz1 Hz2. apply Htr; by right.
      * rewrite Forall_forall. intros z Hz.
        rewrite sort_insert_perm in Hz. apply elem_of_cons in Hz as [->|Hz].
        -- destruct (Htot y) as [H|H]; [left| |exact H]. unfold R in H. lia.
        -- rewrite Forall_forall in Hall. by apply Hall.
Qed.

Lemma Array_sort_sorted (l : list A) :
  (forall x y, x ∈ l -> y ∈ l -> R x y \/ R y x) ->
  (forall x y z, x ∈ l -> y ∈ l -> z ∈ l -> R x y -> R y z -> R x z) ->
  StronglySorted R (Array_sort compareFn l).
Proof.
  induction l as [|x l IH]; intros Htot Htr; simpl; [constructor|].
  apply sort_insert_sorted.
  - intros y Hy. rewrite Array_sort_perm in Hy.
    apply Htot; [left | by right].
  - intros y z Hy Hz. rewrite Array_sort_perm in Hy, Hz.
    apply Htr; [left | by right | by right].
  - apply IH.
    + intros y z Hy Hz. apply Htot; by right.
    + intros y z w Hy Hz Hw. apply Htr; by right.
Qed.

(** Two sorted arrangements of the same elements are the same list, when
    the order tells the elements apart. *)
Lemma sorted_perm_unique (l1 l2 : list A) :
  StronglySorted R l1 -> StronglySorted R l2 -> l1 ≡ₚ l2 ->
  (forall x y, x ∈ l1 -> y ∈ l1 -> R x y -> R y x -> x = y) ->
  l1 = l2.
Proof.
  revert l2. induction l1 as [|a l1 IH]; intros l2 H1 H2 Hp Hanti.
  - by apply Permutation_nil in Hp.
  - destruct l2 as [|b l2]; [by apply Permutation_sym, Permutation_nil in Hp|].
    inversion H1 as [|? ? H1' Ha]; subst.
    inversion H2 as [|? ? H2' Hb]; subst.
    rewrite Forall_forall in Ha, Hb.
    assert (a = b) as ->.
    { assert (a ∈ b :: l2) as Hab by (rewrite <- Hp; left).
      assert (b ∈ a :: l1) as Hba by (rewrite Hp; left).
      apply elem_of_cons in Hab as [->|Hab]; [done|].
      apply elem_of_cons in Hba as [->|Hba]; [done|].
      apply Hanti; [left | by right | by apply Ha | by apply Hb]. }
    f_equal. apply IH; [done | done | by apply Permutation_cons_inv in Hp |].
    intros x y Hx Hy. apply Hanti; by right.
Qed.

(** In a sorted list without repetition, an element that the order puts
    strictly first stands first. *)
Lemma sorted_before (l : list A) (a b : A) :
  StronglySorted R l -> a ∈ l -> b ∈ l -> a <> b -> ~ R b a ->
  before a b l.
Proof.
  intros Hs Ha Hb Hne Hnot.
  apply list_elem_of_split in Ha as (l1 & l2 & ->).
  apply elem_of_app in Hb as [Hb|Hb].
  - exfalso. apply Hnot.
    apply (StronglySorted_app_1_elem_of R l1 (a :: l2)); [done | done | left].
  - apply elem_of_cons in Hb as [->|Hb]; [done|].
    apply list_elem_of_split in Hb as (k1 & k2 & ->).
    by exists l1, k1, k2.
Qed.

End ArraySortFacts.


(** * Strings *)

Lemma append_cons (c : ascii) (s t : string) :
  String c s +:+ t = String c (s +:+ t).
Proof. reflexivity. Qed.

Lemma append_nil_l (t : string) : "" +:+ t = t.
Proof. reflexivity. Qed.

Lemma append_nil_r (s : string) : s +:+ "" = s.
Proof. induction s as [|c s IH]; [done|]. by rewrite append_cons, IH. Qed.

Lemma append_assoc (s t u : string) : (s +:+ t) +:+ u = s +:+ (t +:+ u).
Proof. induction s as [|c s IH]; [done|]. by rewrite !append_cons, IH. Qed.

(** * Fingerprint generator *)

Lemma ordersb_correct (cmp : string -> string -> Z) (ks : list string) :
  ordersb cmp ks = true -> orders cmp ks.
Proof.
  unfold ordersb, orders. rewrite forallb_forall. intros H. split.
  - intros a b Ha Hb. apply list_elem_of_In in Ha, Hb.
    specialize (H a Ha). rewrite forallb_forall in H. specialize (H b Hb).
    apply andb_true_iff in H as [H _]. apply orb_true_iff in H. lia.
  - intros a b c Ha Hb Hc Hab Hbc. apply list_elem_of_In in Ha, Hb, Hc.
    specialize (H a Ha). rewrite forallb_forall in H. specialize (H b Hb).
    apply andb_true_iff in H as [_ H]. rewrite forallb_forall in H.
    specialize (H c Hc).
    destruct (Z.leb_spec (cmp a b) 0), (Z.leb_spec (cmp b c) 0),
      (Z.leb_spec (cmp a c) 0); simpl in H; (done || lia).
Qed.

Lemma separatesb_correct (cmp : string -> string -> Z) (ks : list string) :
  separatesb cmp ks = true -> separates cmp ks.
Proof.
  unfold separatesb, separates. rewrite forallb_forall.
  intros H a b Ha Hb Hab Hba. apply list_elem_of_In in Ha, Hb.
  specialize (H a Ha). rewrite forallb_forall in H. specialize (H b Hb).
  destruct (Z.leb_spec (cmp a b) 0), (Z.leb_spec (cmp b a) 0); try lia.
  simpl in H. by apply String.eqb_eq.
Qed.

Lemma names_elem_of (p : list entry) (e : entry) : e ∈ p -> fst e ∈ names p.
Proof.
  intros H. apply list_elem_of_In. apply in_map. by apply list_elem_of_In.
Qed.

Lemma defined_elem_of (p : list entry) (e : entry) :
  e ∈ List.filter is_defined p <-> e ∈ p /\ is_defined e = true.
Proof. rewrite !list_elem_of_In. apply filter_In. Qed.

Lemma names_NoDup_entries (p : list entry) : NoDup (names p) -> NoDup p.
Proof. apply NoDup_fmap_1. Qed.

Lemma defined_NoDup (p : list entry) :
  NoDup p -> NoDup (List.filter is_defined p).
Proof.
  induction 1 as [|e p Hnotin _ IH]; simpl; [constructor|].
  destruct (is_defined e); [|exact IH].
  constructor; [|exact IH].
  rewrite list_elem_of_In, filter_In, <- list_elem_of_In. tauto.
Qed.

(** An object holds a name once: two entries with one name are one entry. *)
Lemma entry_by_name (p : list entry) (e1 e2 : entry) :
  NoDup (names p) -> e1 ∈ p -> e2 ∈ p -> fst e1 = fst e2 -> e1 = e2.
Proof.
  induction p as [|e p IH]; intros Hnd H1 H2 Heq.
  - by apply elem_of_nil in H1.
  - simpl in Hnd. apply NoDup_cons in Hnd as [Hnotin Hnd].
    apply elem_of_cons in H1 as [->|H1]; apply elem_of_cons in H2 as [->|H2].
    + done.
    + exfalso. apply Hnotin. rewrite Heq. by apply names_elem_of.
    + exfalso. apply Hnotin. rewrite <- Heq. by apply names_elem_of.
    + by apply IH.
Qed.

(** ** Numbers *)

(** The decimal numeral of an integer reads back as that integer. *)
Lemma decimal_reads_back (n : Z) :
  option_map Z.of_int (NilZero.int_of_string (decimal n)) = Some n.
Proof.
  unfold decimal. rewrite NilZero.isi.
  - simpl. f_equal. apply DecimalZ.of_to.
  - destruct n; simpl; try discriminate.
    intros [= H]. by apply (DecimalPos.Unsigned.to_uint_nonnil p).
  - destruct n; simpl; try discriminate.
    intros [= H]. by apply (DecimalPos.Unsigned.to_uint_nonnil p).
Qed.

Lemma strip_zeros_empty (d : string) :
  strip_zeros d = ""%string -> d = zeros (String.length d).
Proof.
  induction d as [|c d IH]; simpl; [done|].
  destruct (Ascii.eqb_spec c "0") as [->|Hc]; simpl; [|discriminate].
  destruct (String.eqb_spec (strip_zeros d) "") as [Hr|Hr]; [|discriminate].
  intros _. by rewrite <- IH.
Qed.

Lemma strip_zeros_length (d : string) :
  (String.length (strip_zeros d) <= String.length d)%nat.
Proof.
  induction d as [|c d IH]; simpl; [done|].
  destruct (Ascii.eqb c "0" && String.eqb (strip_zeros d) ""); simpl; lia.
Qed.

(** The zeros that were taken off put back give the numeral. *)
Lemma strip_zeros_app (d : string) :
  strip_zeros d +:+ zeros (String.length d - String.length (strip_zeros d)) = d.
Proof.
  induction d as [|c d IH]; simpl; [done|].
  destruct (Ascii.eqb_spec c "0") as [->|Hc]; simpl.
  - destruct (String.eqb_spec (strip_zeros d) "") as [Hr|Hr]; simpl.
    + rewrite append_nil_l. f_equal. symmetry. by apply strip_zeros_empty.
    + rewrite append_cons. f_equal. exact IH.
  - rewrite append_cons. f_equal. exact IH.
Qed.

Lemma string_of_uint_length (d : Decimal.uint) :
  String.length (NilEmpty.string_of_uint d) = Decimal.nb_digits d.
Proof. induction d; simpl; congruence. Qed.

Lemma usize_nb_digits (d : Decimal.uint) :
  DecimalPos.Unsigned.usize d = N.of_nat (Decimal.nb_digits d).
Proof.
  induction d; simpl DecimalPos.Unsigned.usize; simpl Decimal.nb_digits;
    rewrite ?IHd, ?Nat2N.inj_succ; reflexivity.
Qed.

(** A numeral of a positive number does not start with 0. *)
Lemma to_uint_head (p : positive) :
  match Pos.to_uint p with
  | Decimal.Nil | Decimal.D0 _ => False
  | _ => True
  end.
Proof.
  pose proof (DecimalPos.Unsigned.to_of (Pos.to_uint p)) as Hnorm.
  rewrite DecimalPos.Unsigned.of_to in Hnorm. simpl in Hnorm.
  pose proof (DecimalPos.Unsigned.to_uint_nonnil p) as Hnil.
  pose proof (DecimalPos.Unsigned.to_uint_nonzero p) as Hzero.
  destruct (Pos.to_uint p) as [|d| | | | | | | | |] eqn:Hd; try done.
  rewrite DecimalFacts.unorm_D0 in Hnorm.
  destruct (Decimal.uint_eq_dec d Decimal.Nil) as [->|Hne]; [done|].
  pose proof (DecimalFacts.nb_digits_unorm d Hne) as Hlen.
  rewrite <- Hnorm in Hlen. simpl in Hlen. lia.
Qed.

(** A number of [m + 1] digits is at least [10^m]. *)
Lemma to_uint_lower_bound (p : positive) :
  (10 ^ N.of_nat (Decimal.nb_digits (Pos.to_uint p) - 1) <= Npos p)%N.
Proof.
  pose proof (to_uint_head p) as Hhead.
  rewrite <- (DecimalPos.Unsigned.of_to p).
  rewrite DecimalPos.Unsigned.of_uint_alt.
  destruct (Pos.to_uint p) as [|d|d|d|d|d|d|d|d|d|d]; try done;
    unfold Decimal.rev; simpl Decimal.revapp;
    rewrite DecimalPos.Unsigned.of_lu_revapp, usize_nb_digits;
    simpl Decimal.nb_digits; rewrite ?Nat.sub_0_r;
    simpl DecimalPos.Unsigned.of_lu.
  all: replace (S (Decimal.nb_digits d) - 1)%nat with (Decimal.nb_digits d) by lia;
    generalize (10 ^ N.of_nat (Decimal.nb_digits d))%N
               (DecimalPos.Unsigned.of_lu (Decimal.rev d));
    intros; lia.
Qed.

Lemma decimal_length (p : positive) (m : nat) :
  Z.pos p < 10 ^ Z.of_nat m -> (String.length (decimal (Z.pos p)) <= m)%nat.
Proof.
  intros Hp. unfold decimal. simpl.
  pose proof (to_uint_lower_bound p) as Hlow.
  pose proof (DecimalPos.Unsigned.to_uint_nonnil p) as Hnil.
  assert (NilZero.string_of_uint (Pos.to_uint p)
          = NilEmpty.string_of_uint (Pos.to_uint p)) as ->
    by (by destruct (Pos.to_uint p)).
  rewrite string_of_uint_length.
  destruct (Nat.le_gt_cases (Decimal.nb_digits (Pos.to_uint p)) m) as [|Hgt]; [done|].
  exfalso.
  assert (10 ^ Z.of_nat m <= Z.pos p); [|lia].
  apply N2Z.inj_le in Hlow. rewrite N2Z.inj_pow in Hlow. simpl Z.of_N in Hlow.
  rewrite nat_N_Z in Hlow.
  etrans; [|exact Hlow]. apply Z.pow_le_mono_r; lia.
Qed.

Lemma round53_small (a : Z) : 0 < a < 2 ^ 53 -> round53 a = a.
Proof.
  intros Ha. unfold round53.
  assert (Z.log2 a < 53) by (apply Z.log2_lt_pow2; lia).
  destruct (Z.leb_spec (Z.log2 a + 1) 53); [done | lia].
Qed.

Lemma digits_toString_integer (d : string) :
  (String.length d <= 21)%nat ->
  digits_toString (strip_zeros d) (Z.of_nat (String.length d)) = d.
Proof.
  intros Hlen. unfold digits_toString.
  pose proof (strip_zeros_length d) as Hk.
  rewrite (proj2 (Z.leb_le _ _)) by lia.
  rewrite (proj2 (Z.leb_le _ _)) by lia. simpl.
  rewrite <- Nat2Z.inj_sub, Nat2Z.id by done.
  apply strip_zeros_app.
Qed.

(** An integer of magnitude below 2^53 is written as its decimal
    numeral. *)
Lemma Number_toString_integer (n : Z) :
  - 2 ^ 53 < n < 2 ^ 53 -> Number_toString (Number_of_Z n) = decimal n.
Proof.
  intros Hn. destruct n as [|p|p]; [reflexivity| |].
  - unfold Number_of_Z. change (Z.pos p =? 0) with false.
    change (Z.abs (Z.pos p)) with (Z.pos p).
    rewrite round53_small by lia.
    rewrite (proj2 (Z.ltb_lt _ _)) by lia.
    change (Z.pos p <? 0) with false. unfold Number_toString.
    rewrite append_nil_l. apply digits_toString_integer.
    apply decimal_length. change (10 ^ Z.of_nat 21) with 1000000000000000000000.
    change (2 ^ 53) with 9007199254740992 in Hn. lia.
  - unfold Number_of_Z. change (Z.neg p =? 0) with false.
    change (Z.abs (Z.neg p)) with (Z.pos p).
    rewrite round53_small by lia.
    rewrite (proj2 (Z.ltb_lt _ _)) by lia.
    change (Z.neg p <? 0) with true. unfold Number_toString.
    rewrite digits_toString_integer.
    + reflexivity.
    + apply decimal_length. change (10 ^ Z.of_nat 21) with 1000000000000000000000.
      change (2 ^ 53) with 9007199254740992 in Hn. lia.
Qed.

(** Numbers as JavaScript writes them: integers, integers from 2^53 on
    (2^60, 2^64, 2^53 + 3), numbers from 10^21 on (10^21, 2^70, 10^23),
    fractions (0.3, 0.1 + 0.2, 1.5, 10^-6, 10^-7, the least and the
    greatest Number). *)
Example Number_toString_examples :
  List.map (fun z : Z => Number_toString z)
    [800; 0; -5; 2 ^ 60; - 2 ^ 64; 2 ^ 53 + 3; 10 ^ 21; 2 ^ 70; 10 ^ 23]
  = ["800"; "0"; "-5"; "1152921504606847000"; "-18446744073709552000";
     "9007199254740996"; "1e+21"; "1.1805916207174113e+21"; "1e+23"]%string /\
  List.map Number_toString
    [NumFinite false "3" 0; NumFinite false "30000000000000004" 0;
     NumFinite false "15" 1; NumFinite true "125" 0; NumFinite false "1" (-5);
     NumFinite false "1" (-6); NumFinite false "5" (-323);
     NumFinite false "17976931348623157" 309; NumNaN; NumInfinity true;
     NumZero true]
  = ["0.3"; "0.30000000000000004"; "1.5"; "-0.125"; "0.000001"; "1e-7";
     "5e-324"; "1.7976931348623157e+308"; "NaN"; "-Infinity"; "0"]%string.
Proof. vm_compute. split; reflexivity. Qed.

Section FingerprintFacts.
Variable localeCompare : string -> string -> Z.

Let byName (a b : entry) : Z := localeCompare (fst a) (fst b).

Lemma sorted_defined_entries (l : list entry) :
  orders localeCompare (names l) ->
  StronglySorted (fun a b => byName a b <= 0) (Array_sort byName l).
Proof.
  intros [Htot Htr]. apply Array_sort_sorted.
  - intros x y Hx Hy. apply Htot; by apply names_elem_of.
  - intros x y z Hx Hy Hz. apply Htr; by apply names_elem_of.
Qed.

Lemma orders_perm (l k : list entry) :
  l ≡ₚ k -> orders localeCompare (names l) -> orders localeCompare (names k).
Proof.
  intros Hp [Htot Htr].
  assert (forall a, a ∈ names k -> a ∈ names l) as Hin.
  { intros a. unfold names. by rewrite (Permutation_map fst Hp). }
  split.
  - intros a b Ha Hb. apply Htot; by apply Hin.
  - intros a b c Ha Hb Hc. apply Htr; by apply Hin.
Qed.

(** C1, amended.  Two parameter sets with the same defined fields, in
    whatever order and with whatever undefined entries besides, get the
    same key, when [localeCompare] orders the defined names and tells them
    apart. *)
Theorem generateCacheKey_same_defined_fields (p q : list entry) :
  NoDup (names p) -> NoDup (names q) ->
  (forall e, is_defined e = true -> (e ∈ p <-> e ∈ q)) ->
  orders localeCompare (names (List.filter is_defined p)) ->
  separates localeCompare (names (List.filter is_defined p)) ->
  generateCacheKey localeCompare p = generateCacheKey localeCompare q.
Proof.
  intros Hp Hq Hsame Hord Hsep.
  unfold generateCacheKey, cacheKeyInput. do 3 f_equal.
  assert (List.filter is_defined p ≡ₚ List.filter is_defined q) as Hperm.
  { apply NoDup_Permutation.
    - by apply defined_NoDup, names_NoDup_entries.
    - by apply defined_NoDup, names_NoDup_entries.
    - intros e. rewrite !defined_elem_of. split; intros [Hin Hd].
      + split; [by apply Hsame | done].
      + split; [by apply Hsame | done]. }
  apply (sorted_perm_unique byName).
  - by apply sorted_defined_entries.
  - apply sorted_defined_entries. by apply (orders_perm _ _ Hperm).
  - by rewrite !Array_sort_perm.
  - intros x y Hx Hy Hxy Hyx. rewrite Array_sort_perm in Hx, Hy.
    apply (entry_by_name p); [done | | |].
    + by apply defined_elem_of in Hx as [? _].
    + by apply defined_elem_of in Hy as [? _].
    + apply Hsep; [by apply names_elem_of | by apply names_elem_of | done | done].
Qed.

(** C2, amended.  The string that is hashed joins with "&" the
    [name=value] texts of the defined entries, each once, in ascending
    order of [localeCompare] on the names: of two defined names the one
    that [localeCompare] puts strictly first stands first.  A number is
    written as [Number::toString] writes it, an integer of magnitude below
    2^53 as its decimal numeral; a boolean as [true] or [false]; a string
    as it is. *)
Theorem cacheKeyInput_sorted_by_localeCompare (p : list entry) :
  orders localeCompare (names (List.filter is_defined p)) ->
  exists L : list entry,
    L ≡ₚ List.filter is_defined p /\
    StronglySorted (fun a b => localeCompare (fst a) (fst b) <= 0) L /\
    cacheKeyInput localeCompare p
    = Array_join "&" (List.map (fun e => fst e +:+ "=" +:+ ToString (snd e)) L) /\
    generateCacheKey localeCompare p = sha256_hex (cacheKeyInput localeCompare p) /\
    (forall a b, a ∈ names L -> b ∈ names L ->
                 localeCompare a b <= 0 -> ~ localeCompare b a <= 0 ->
                 before a b (names L)) /\
    (forall x, ToString (VNumber x) = Number_toString x) /\
    (forall n : Z, - 2 ^ 53 < n < 2 ^ 53 ->
       ToString (VNumber n) = decimal n /\
       option_map Z.of_int (NilZero.int_of_string (ToString (VNumber n))) = Some n) /\
    ToString (VBoolean true) = "true"%string /\
    ToString (VBoolean false) = "false"%string /\
    (forall s, ToString (VString s) = s).
Proof.
  intros Hord.
  exists (Array_sort byName (List.filter is_defined p)).
  assert (StronglySorted (fun a b => localeCompare (fst a) (fst b) <= 0)
            (Array_sort byName (List.filter is_defined p))) as Hsorted
    by (by apply sorted_defined_entries).
  split; [apply Array_sort_perm|].
  split; [exact Hsorted|].
  split; [reflexivity|].
  split; [reflexivity|].
  split; [|split; [done|]; split; [|done]].
  2: { intros n Hn. simpl. rewrite Number_toString_integer by done.
       split; [done | apply decimal_reads_back]. }
  intros a b Ha Hb Hab Hba.
  assert (StronglySorted (fun a b => localeCompare a b <= 0)
            (names (Array_sort byName (List.filter is_defined p)))) as Hn.
  { clear -Hsorted. unfold names.
    induction Hsorted as [|x l Hs IH Hall]; simpl; constructor; [done|].
    rewrite Forall_forall in Hall. rewrite Forall_forall. intros k Hk.
    apply list_elem_of_In, in_map_iff in Hk as (e & <- & He).
    apply Hall. by apply list_elem_of_In. }
  apply (sorted_before (fun a b => localeCompare a b)); try done.
  intros ->. lia.
Qed.

End FingerprintFacts.


(** The first example of the specification, by the theorem. *)
Lemma generateCacheKey_same_defined_fields_witness :
  generateCacheKey localeCompare_root [("w", VNumber 800); ("url", VString "x")]
  = generateCacheKey localeCompare_root [("url", VString "x"); ("w", VNumber 800)].
Proof.
  apply generateCacheKey_same_defined_fields.
  - apply (bool_decide_unpack _). vm_compute. exact I.
  - apply (bool_decide_unpack _). vm_compute. exact I.
  - intros e _. rewrite !elem_of_cons, !elem_of_nil. tauto.
  - apply ordersb_correct. vm_compute. reflexivity.
  - apply separatesb_correct. vm_compute. reflexivity.
Defined.

(** The second example: an entry whose value is undefined does not count. *)
Example generateCacheKey_undefined_omitted :
  generateCacheKey localeCompare_root [("url", VString "x"); ("h", VUndefined)]
  = generateCacheKey localeCompare_root [("url", VString "x")].
Proof. reflexivity. Qed.

(** C1 as stated does not hold: the collation ignores the control
    character U+0001, so the names "w" and "w" followed by U+0001 compare
    equal, the stable sort leaves them in the order of insertion, and the
    two orders of insertion get two keys. *)
Lemma generateCacheKey_order_dependent :
  [("w", VNumber 1); ("w" +:+ SOH, VNumber 2)]
    ≡ₚ [("w" +:+ SOH, VNumber 2); ("w", VNumber 1)] /\
  "w"%string <> ("w" +:+ SOH) /\
  localeCompare_root "w" ("w" +:+ SOH) = 0 /\
  cacheKeyInput localeCompare_root [("w", VNumber 1); ("w" +:+ SOH, VNumber 2)]
  = "w=1&w" +:+ SOH +:+ "=2" /\
  cacheKeyInput localeCompare_root [("w" +:+ SOH, VNumber 2); ("w", VNumber 1)]
  = "w" +:+ SOH +:+ "=2&w=1" /\
  generateCacheKey localeCompare_root [("w", VNumber 1); ("w" +:+ SOH, VNumber 2)]
  <> generateCacheKey localeCompare_root [("w" +:+ SOH, VNumber 2); ("w", VNumber 1)].
Proof.
  split; [apply perm_swap|].
  split; [discriminate|].
  split; [reflexivity|].
  split; [reflexivity|].
  split; [reflexivity|].
  vm_compute. discriminate.
Qed.

Lemma cacheKeyInput_sorted_by_localeCompare_witness :
  exists L : list entry,
    L ≡ₚ List.filter is_defined
           [("w", VNumber 800); ("url", VString "x"); ("h", VUndefined)] /\
    StronglySorted (fun a b => localeCompare_root (fst a) (fst b) <= 0) L /\
    cacheKeyInput localeCompare_root
      [("w", VNumber 800); ("url", VString "x"); ("h", VUndefined)]
    = Array_join "&" (List.map (fun e => fst e +:+ "=" +:+ ToString (snd e)) L) /\
    generateCacheKey localeCompare_root
      [("w", VNumber 800); ("url", VString "x"); ("h", VUndefined)]
    = sha256_hex (cacheKeyInput localeCompare_root
                    [("w", VNumber 800); ("url", VString "x"); ("h", VUndefined)]) /\
    (forall a b, a ∈ names L -> b ∈ names L ->
                 localeCompare_root a b <= 0 -> ~ localeCompare_root b a <= 0 ->
                 before a b (names L)) /\
    (forall x, ToString (VNumber x) = Number_toString x) /\
    (forall n : Z, - 2 ^ 53 < n < 2 ^ 53 ->
       ToString (VNumber n) = decimal n /\
       option_map Z.of_int (NilZero.int_of_string (ToString (VNumber n))) = Some n) /\
    ToString (VBoolean true) = "true"%string /\
    ToString (VBoolean false) = "false"%string /\
    (forall s, ToString (VString s) = s).
Proof.
  apply cacheKeyInput_sorted_by_localeCompare.
  apply ordersb_correct. vm_compute. reflexivity.
Defined.

(** The numbers of a request as they are written: a fraction, a number
    from 10^21 on, an integer. *)
Example cacheKeyInput_number_forms :
  cacheKeyInput localeCompare_root
    [("url", VString "x"); ("rotate", VNumber (10 ^ 21));
     ("blur", VNumber (NumFinite false "3" 0)); ("w", VNumber 800)]
  = "blur=0.3&rotate=1e+21&url=x&w=800"%string.
Proof. vm_compute. reflexivity. Qed.

(** C2 as stated does not hold: the bytes of "B" are smaller than those of
    "a", and "a" comes first in the string that is hashed. *)
Lemma cacheKeyInput_not_bytewise :
  bytewiseCompare "B" "a" = -1 /\
  cacheKeyInput localeCompare_root [("a", VNumber 1); ("B", VNumber 2)]
  = "a=1&B=2"%string /\
  cacheKeyInput_bytewise [("a", VNumber 1); ("B", VNumber 2)]
  = "B=2&a=1"%string.
Proof. repeat split; reflexivity. Qed.

(** On the field names of the routes the two orders agree. *)
Example cacheKeyInput_og_names :
  cacheKeyInput localeCompare_root
    [("type", VString "og"); ("title", VString "T"); ("titleColor", VString "fff");
     ("description", VString "D"); ("descColor", VString "000"); ("w", VNumber 1200)]
  = cacheKeyInput_bytewise
    [("type", VString "og"); ("title", VString "T"); ("titleColor", VString "fff");
     ("description", VString "D"); ("descColor", VString "000"); ("w", VNumber 1200)].
Proof. reflexivity. Qed.

(** The cases of the unit tests of the repository. *)
Example generateCacheKey_empty_params :
  generateCacheKey localeCompare_root []
  = "e3b0c44298fc1c149afbf4c8996fb92427ae41e4649b934ca495991b7852b855"%string.
Proof. vm_compute. reflexivity. Qed.

Example generateCacheKey_different_params :
  generateCacheKey localeCompare_root
    [("url", VString "https://example.com/image.png"); ("w", VNumber 800)]
  <> generateCacheKey localeCompare_root
    [("url", VString "https://example.com/image.png"); ("w", VNumber 900)].
Proof. vm_compute. discriminate. Qed.

Example generateCacheKey_boolean_values :
  generateCacheKey localeCompare_root
    [("url", VString "https://example.com/image.png"); ("grayscale", VBoolean true)]
  <> generateCacheKey localeCompare_root
    [("url", VString "https://example.com/image.png"); ("grayscale", VBoolean false)].
Proof. vm_compute. discriminate. Qed.

Example generateCacheKey_is_cache_key :
  isCacheKey
    (generateCacheKey localeCompare_root
       [("url", VString "https://example.com/image.png?foo=bar&baz=qux")])
  = true.
Proof. vm_compute. reflexivity. Qed.

(** Nothing is escaped: a value keeps its "&" and "=". *)
Example cacheKeyInput_unescaped :
  cacheKeyInput localeCompare_root
    [("url", VString "https://example.com/image.png?foo=bar&baz=qux"); ("w", VNumber 800)]
  = "url=https://example.com/image.png?foo=bar&baz=qux&w=800"%string.
Proof. reflexivity. Qed.


(** * [Map] *)

Section JSMapFacts.
Context {V : Type}.
Implicit Types (m : list (string * V)) (k key : string) (v : V).

Lemma Map_get_None key m : Map_get key m = None <-> key ∉ Map_keys m.
Proof.
  induction m as [|[k x] m IH]; simpl.
  - split; [intros _; apply not_elem_of_nil | done].
  - rewrite not_elem_of_cons. destruct (String.eqb_spec k key) as [->|Hne].
    + split; [done | intros [? _]; done].
    + rewrite IH. split; [intros ?; split; [congruence | done] | tauto].
Qed.

Lemma Map_get_Some key v m : Map_get key m = Some v -> (key, v) ∈ m.
Proof.
  induction m as [|[k x] m IH]; simpl; [done|].
  destruct (String.eqb_spec k key) as [->|Hne].
  - intros [= ->]. left.
  - intros H. right. by apply IH.
Qed.

Lemma Map_get_is_Some key m : key ∈ Map_keys m -> exists v, Map_get key m = Some v.
Proof.
  intros Hin. destruct (Map_get key m) as [v|] eqn:E; [by exists v|].
  by apply Map_get_None in E.
Qed.

Lemma Map_delete_absent key m : key ∉ Map_keys m -> Map_delete key m = m.
Proof.
  induction m as [|[k x] m IH]; simpl; [done|].
  rewrite not_elem_of_cons. intros [Hne Hnotin].
  destruct (String.eqb_spec k key); [congruence|]. by rewrite IH.
Qed.

Lemma Map_delete_keys_incl key k m :
  k ∈ Map_keys (Map_delete key m) -> k ∈ Map_keys m.
Proof.
  induction m as [|[k' x] m IH]; simpl; [done|].
  destruct (String.eqb k' key); simpl.
  - intros ?. by right.
  - rewrite !elem_of_cons. intros [->|?]; [by left | right; by apply IH].
Qed.

Lemma Map_delete_NoDup key m :
  NoDup (Map_keys m) -> NoDup (Map_keys (Map_delete key m)).
Proof.
  induction m as [|[k x] m IH]; simpl; [done|].
  rewrite NoDup_cons. intros [Hnotin Hnd].
  destruct (String.eqb k key); simpl; [done|].
  apply NoDup_cons. split; [|by apply IH].
  intros Hin. by apply Hnotin, (Map_delete_keys_incl key).
Qed.

Lemma Map_delete_gone key m :
  NoDup (Map_keys m) -> key ∉ Map_keys (Map_delete key m).
Proof.
  induction m as [|[k x] m IH]; simpl; [intros _; apply not_elem_of_nil|].
  rewrite NoDup_cons. intros [Hnotin Hnd].
  destruct (String.eqb_spec k key) as [->|Hne]; simpl; [done|].
  rewrite not_elem_of_cons. split; [congruence | by apply IH].
Qed.

Lemma Map_get_delete_ne key k m :
  k <> key -> Map_get k (Map_delete key m) = Map_get k m.
Proof.
  intros Hne. induction m as [|[k' x] m IH]; simpl; [done|].
  destruct (String.eqb_spec k' key) as [->|Hne'].
  - destruct (String.eqb_spec key k); [congruence | done].
  - simpl. by rewrite IH.
Qed.

Lemma Map_delete_length key v m :
  Map_get key m = Some v -> S (length (Map_delete key m)) = length m.
Proof.
  induction m as [|[k x] m IH]; simpl; [done|].
  destruct (String.eqb k key); simpl; [done|].
  intros H. by rewrite IH.
Qed.

Lemma Map_set_fresh key v m :
  key ∉ Map_keys m -> Map_set key v m = m ++ [(key, v)].
Proof.
  induction m as [|[k x] m IH]; simpl; [done|].
  rewrite not_elem_of_cons. intros [Hne Hnotin].
  destruct (String.eqb_spec k key); [congruence|]. by rewrite IH.
Qed.

(** A key that is present keeps its place. *)
Lemma Map_set_present_keys key v m :
  key ∈ Map_keys m -> Map_keys (Map_set key v m) = Map_keys m.
Proof.
  induction m as [|[k x] m IH]; simpl; [by rewrite elem_of_nil|].
  destruct (String.eqb_spec k key) as [->|Hne]; simpl; [done|].
  rewrite elem_of_cons. intros [?|Hin]; [congruence|]. by rewrite IH.
Qed.

Lemma Map_get_set_eq key v m : Map_get key (Map_set key v m) = Some v.
Proof.
  induction m as [|[k x] m IH]; simpl.
  - by rewrite String.eqb_refl.
  - destruct (String.eqb_spec k key) as [->|Hne]; simpl.
    + by rewrite String.eqb_refl.
    + destruct (String.eqb_spec k key); [congruence | done].
Qed.

Lemma Map_get_set_ne key k v m :
  k <> key -> Map_get k (Map_set key v m) = Map_get k m.
Proof.
  intros Hne. induction m as [|[k' x] m IH]; simpl.
  - destruct (String.eqb_spec key k); [congruence | done].
  - destruct (String.eqb_spec k' key) as [->|Hne']; simpl.
    + destruct (String.eqb_spec key k); [congruence | done].
    + by rewrite IH.
Qed.

Lemma Map_set_length_le key v m : (length (Map_set key v m) <= S (length m))%nat.
Proof.
  induction m as [|[k x] m IH]; simpl; [lia|].
  destruct (String.eqb k key); simpl; lia.
Qed.

Lemma Map_set_keys key v m :
  forall k, k ∈ Map_keys (Map_set key v m) <-> k = key \/ k ∈ Map_keys m.
Proof.
  intros k0. induction m as [|[k x] m IH]; simpl.
  - rewrite elem_of_cons, elem_of_nil. tauto.
  - destruct (String.eqb_spec k key) as [->|Hne]; simpl.
    + rewrite !elem_of_cons. tauto.
    + rewrite !elem_of_cons, IH. tauto.
Qed.

Lemma Map_set_NoDup key v m :
  NoDup (Map_keys m) -> NoDup (Map_keys (Map_set key v m)).
Proof.
  induction m as [|[k x] m IH]; simpl.
  - intros _. apply NoDup_singleton.
  - rewrite NoDup_cons. intros [Hnotin Hnd].
    destruct (String.eqb_spec k key) as [->|Hne]; simpl.
    + by apply NoDup_cons.
    + apply NoDup_cons. split; [|by apply IH].
      rewrite Map_set_keys. intros [?|?]; [congruence | done].
Qed.

End JSMapFacts.


(** * Memory backend *)

Lemma truthy_nonempty (s : string) : truthy s = true <-> s <> ""%string.
Proof.
  unfold truthy. destruct (String.eqb_spec s ""); simpl; split; congruence.
Qed.

(** The loop of [set] needs no more rounds than the map has entries. *)
Lemma evict_oldest_fuel (maxItems : nat) (fuel1 fuel2 : nat)
    (cache : list (string * MemoryCacheEntry)) :
  (length cache <= fuel1)%nat -> (length cache <= fuel2)%nat ->
  evict_oldest fuel1 maxItems cache = evict_oldest fuel2 maxItems cache.
Proof.
  revert fuel2 cache. induction fuel1 as [|f1 IH]; intros f2 cache H1 H2.
  - destruct cache; [|simpl in H1; lia].
    destruct f2; simpl; [done|]. by destruct (maxItems <=? 0)%nat.
  - destruct f2 as [|f2].
    + destruct cache; [|simpl in H2; lia].
      simpl. by destruct (maxItems <=? 0)%nat.
    + simpl. destruct (maxItems <=? length cache)%nat; [|done].
      destruct cache as [|[k e] rest]; simpl; [done|].
      destruct (truthy k); [|done].
      rewrite String.eqb_refl. apply IH; simpl in *; lia.
Qed.

(** With keys that are not empty, the loop leaves room for one entry: it
    drops the oldest entries down to [maxItems - 1]. *)
Lemma evict_oldest_drop (maxItems : nat) (fuel : nat)
    (cache : list (string * MemoryCacheEntry)) :
  Forall (fun k => k <> ""%string) (Map_keys cache) ->
  (1 <= maxItems)%nat -> (length cache <= fuel)%nat ->
  evict_oldest fuel maxItems cache = drop (S (length cache) - maxItems) cache.
Proof.
  revert cache. induction fuel as [|f IH]; intros cache Hne HN Hf.
  - destruct cache; [|simpl in Hf; lia]. by rewrite drop_nil.
  - simpl. destruct (Nat.leb_spec maxItems (length cache)) as [Hle|Hlt].
    + destruct cache as [|[k e] rest]; [simpl in Hle; lia|].
      simpl in Hne. apply Forall_cons in Hne as [Hk Hne].
      simpl Map_first_key. cbv iota beta.
      apply truthy_nonempty in Hk. rewrite Hk. simpl Map_delete.
      rewrite String.eqb_refl. rewrite IH; [|done|done|simpl in Hf; lia].
      simpl length in *.
      replace (S (S (length rest)) - maxItems)%nat
        with (S (S (length rest) - maxItems)) by lia.
      done.
    + replace (S (length cache) - maxItems)%nat with O by lia. done.
Qed.

Lemma LRUCache_set_drop (maxItems : nat) (key : string) (bytes : list Byte.byte)
    (now : Z) (cache : list (string * MemoryCacheEntry)) :
  Forall (fun k => k <> ""%string) (Map_keys cache) ->
  (1 <= maxItems)%nat ->
  LRUCache_set maxItems key bytes now cache
  = Map_set key {| data := bytes; createdAt := now |}
      (drop (S (length cache) - maxItems) cache).
Proof.
  intros Hne HN. unfold LRUCache_set. by rewrite evict_oldest_drop.
Qed.

Lemma Map_delete_nonempty_keys (key : string) (cache : list (string * MemoryCacheEntry)) :
  Forall (fun k => k <> ""%string) (Map_keys cache) ->
  Forall (fun k => k <> ""%string) (Map_keys (Map_delete key cache)).
Proof.
  rewrite !Forall_forall. intros H k Hk. by apply H, (Map_delete_keys_incl key).
Qed.

Lemma Map_delete_length_le (key : string) (cache : list (string * MemoryCacheEntry)) :
  (length (Map_delete key cache) <= length cache)%nat.
Proof.
  induction cache as [|[k e] rest IH]; simpl; [lia|].
  destruct (String.eqb k key); simpl; lia.
Qed.

Lemma cache_ok_delete (maxItems : nat) (key : string)
    (cache : list (string * MemoryCacheEntry)) :
  cache_ok maxItems cache -> cache_ok maxItems (Map_delete key cache).
Proof.
  intros (Hnd & Hne & Hlen). split; [by apply Map_delete_NoDup|].
  split; [by apply Map_delete_nonempty_keys|].
  pose proof (Map_delete_length_le key cache). lia.
Qed.

Lemma cache_ok_get (cfg : Config) (key : string) (now : Z)
    (cache : list (string * MemoryCacheEntry)) :
  cache_ok (maxMemoryCacheItems cfg) cache ->
  cache_ok (maxMemoryCacheItems cfg) (snd (LRUCache_get cfg key now cache)).
Proof.
  intros Hok. unfold LRUCache_get.
  destruct (Map_get key cache) as [entry|] eqn:Hget; [|done].
  destruct (now - createdAt entry >? cacheTTL cfg * 1000); simpl.
  - by apply cache_ok_delete.
  - destruct Hok as (Hnd & Hne & Hlen).
    rewrite Map_set_fresh by (by apply Map_delete_gone).
    split; [|split].
    + apply Map_set_NoDup with (key := key) (v := entry) in Hnd as Hnd'.
      unfold Map_keys. rewrite map_app. simpl.
      apply NoDup_app. split; [by apply Map_delete_NoDup|].
      split; [|apply NoDup_singleton].
      intros k Hk Hk'. apply list_elem_of_singleton in Hk' as ->.
      by apply (Map_delete_gone key cache).
    + unfold Map_keys. rewrite map_app. apply Forall_app. split.
      * by apply Map_delete_nonempty_keys.
      * simpl. constructor; [|constructor].
        rewrite Forall_forall in Hne. apply Hne.
        apply Map_get_Some, list_elem_of_In in Hget.
        apply list_elem_of_In. by apply (in_map fst) in Hget.
    + rewrite length_app. simpl.
      pose proof (Map_delete_length key entry cache Hget). lia.
Qed.

Lemma cache_ok_drop (maxItems n : nat) (cache : list (string * MemoryCacheEntry)) :
  NoDup (Map_keys cache) ->
  Forall (fun k => k <> ""%string) (Map_keys cache) ->
  NoDup (Map_keys (drop n cache)) /\
  Forall (fun k => k <> ""%string) (Map_keys (drop n cache)).
Proof.
  intros Hnd Hne. unfold Map_keys.
  change (List.map fst (drop n cache)) with (fst <$> drop n cache).
  rewrite fmap_drop. split.
  - eapply sublist_NoDup; [exact Hnd | apply sublist_drop].
  - apply (Forall_drop _ n) in Hne. done.
Qed.

Lemma cache_ok_set (maxItems : nat) (key : string) (bytes : list Byte.byte) (now : Z)
    (cache : list (string * MemoryCacheEntry)) :
  (1 <= maxItems)%nat -> key <> ""%string ->
  cache_ok maxItems cache ->
  cache_ok maxItems (LRUCache_set maxItems key bytes now cache).
Proof.
  intros HN Hkey (Hnd & Hne & Hlen).
  rewrite LRUCache_set_drop by done.
  destruct (cache_ok_drop maxItems (S (length cache) - maxItems) cache Hnd Hne)
    as [Hnd' Hne'].
  split; [by apply Map_set_NoDup|]. split.
  - rewrite Forall_forall in Hne'. rewrite Forall_forall. intros k Hk.
    apply Map_set_keys in Hk as [->|Hk]; [done | by apply Hne'].
  - etransitivity; [apply Map_set_length_le|]. rewrite length_drop. lia.
Qed.

Lemma cache_ok_cleanup (cfg : Config) (now : Z)
    (cache : list (string * MemoryCacheEntry)) :
  cache_ok (maxMemoryCacheItems cfg) cache ->
  cache_ok (maxMemoryCacheItems cfg) (snd (LRUCache_cleanup cfg now cache)).
Proof.
  unfold LRUCache_cleanup. generalize O. generalize cache at 2 as todo.
  intros todo. revert cache.
  induction todo as [|e todo IH]; intros cache n Hok; simpl; [done|].
  destruct (now - createdAt e.2 >? cacheTTL cfg * 1000); apply IH;
    [by apply cache_ok_delete | done].
Qed.

Lemma reachable_ok (cfg : Config) (cache : list (string * MemoryCacheEntry)) :
  (1 <= maxMemoryCacheItems cfg)%nat ->
  reachable cfg cache -> cache_ok (maxMemoryCacheItems cfg) cache.
Proof.
  intros HN.
  assert (cache_ok (maxMemoryCacheItems cfg) []) as Hempty
    by (split; [constructor|]; split; [constructor | simpl; lia]).
  induction 1 as [|key now cache _ IH|key bytes now cache Hkey _ IH
                  |now cache _ IH|cache _ IH].
  - exact Hempty.
  - by apply cache_ok_get.
  - by apply cache_ok_set.
  - by apply cache_ok_cleanup.
  - exact Hempty.
Qed.


Lemma Map_keys_app (c1 c2 : list (string * MemoryCacheEntry)) :
  Map_keys (c1 ++ c2) = Map_keys c1 ++ Map_keys c2.
Proof. apply map_app. Qed.

Lemma Map_keys_drop (n : nat) (c : list (string * MemoryCacheEntry)) :
  Map_keys (drop n c) = drop n (Map_keys c).
Proof. unfold Map_keys. apply (fmap_drop fst). Qed.

Lemma Map_keys_length (c : list (string * MemoryCacheEntry)) :
  length (Map_keys c) = length c.
Proof. apply length_map. Qed.

(** After any sequence of writes of different keys, the keys present are
    the last [maxItems] keys written, oldest first. *)
Lemma set_all_keys (maxItems : nat) (writes : list (string * list Byte.byte * Z)) :
  (1 <= maxItems)%nat ->
  NoDup (write_keys writes) ->
  Forall (fun k => k <> ""%string) (write_keys writes) ->
  cache_ok maxItems (set_all maxItems writes []) /\
  Map_keys (set_all maxItems writes [])
  = drop (length writes - maxItems) (write_keys writes).
Proof.
  intros HN. induction writes as [|w writes IH] using rev_ind; intros Hnd Hne.
  - split; [|done]. split; [constructor|]. split; [constructor | simpl; lia].
  - unfold write_keys in Hnd, Hne. rewrite map_app in Hnd, Hne. simpl in Hnd, Hne.
    apply NoDup_app in Hnd as (Hnd & Hfresh & _).
    apply Forall_app in Hne as [Hne Hw]. apply Forall_cons in Hw as [Hw _].
    destruct (IH Hnd Hne) as [Hok Hkeys]. clear IH.
    unfold set_all in *. rewrite fold_left_app. simpl.
    set (c := fold_left _ writes []) in *.
    split; [by apply cache_ok_set|].
    destruct Hok as (Hcnd & Hcne & Hclen).
    rewrite LRUCache_set_drop by done.
    assert (length c = length writes - (length writes - maxItems))%nat as Hlen.
    { rewrite <- Map_keys_length, Hkeys, length_drop.
      unfold write_keys. by rewrite length_map. }
    rewrite Map_set_fresh.
    + rewrite Map_keys_app, Map_keys_drop, Hkeys, drop_drop. simpl.
      unfold write_keys. rewrite map_app, length_app. simpl.
      rewrite drop_app_le by (rewrite length_map; lia).
      f_equal. f_equal. lia.
    + rewrite Map_keys_drop, Hkeys, drop_drop. intros Hin.
      apply (Hfresh (fst (fst w))); [|left].
      eapply elem_of_sublist; [exact Hin | apply sublist_drop].
Qed.

(** With a maximum of at least one item, a [set] that finds the table full
    removes the first entry of the table, and only that one, before it
    inserts; and after [maxItems + 1] different keys have been inserted
    into the empty cache, [maxItems] keys are present: all but the first
    one written. *)
Lemma LRUCache_set_full_table_drops_first (cfg : Config) :
  (1 <= maxMemoryCacheItems cfg)%nat ->
  (forall cache key bytes now,
      reachable cfg cache ->
      (maxMemoryCacheItems cfg <= length cache)%nat ->
      exists lru rest,
        cache = lru :: rest /\
        LRUCache_set (maxMemoryCacheItems cfg) key bytes now cache
        = Map_set key {| data := bytes; createdAt := now |} rest) /\
  (forall writes,
      length writes = S (maxMemoryCacheItems cfg) ->
      NoDup (write_keys writes) ->
      Forall (fun k => k <> ""%string) (write_keys writes) ->
      Map_keys (set_all (maxMemoryCacheItems cfg) writes []) = tail (write_keys writes) /\
      LRUCache_size (set_all (maxMemoryCacheItems cfg) writes [])
      = maxMemoryCacheItems cfg /\
      (forall k, k ∈ write_keys writes ->
         k ∈ Map_keys (set_all (maxMemoryCacheItems cfg) writes [])
         <-> head (write_keys writes) <> Some k)).
Proof.
  intros HN. split.
  - intros cache key bytes now Hreach Hfull.
    destruct (reachable_ok cfg cache HN Hreach) as (Hnd & Hne & Hlen).
    destruct cache as [|lru rest]; [simpl in Hfull; lia|].
    exists lru, rest. split; [done|].
    rewrite LRUCache_set_drop by done.
    replace (S (length (lru :: rest)) - maxMemoryCacheItems cfg)%nat with 1%nat
      by lia.
    done.
  - intros writes Hlen Hnd Hne.
    destruct (set_all_keys _ writes HN Hnd Hne) as [_ Hkeys].
    rewrite Hlen in Hkeys.
    replace (S (maxMemoryCacheItems cfg) - maxMemoryCacheItems cfg)%nat with 1%nat
      in Hkeys by lia.
    assert (drop 1 (write_keys writes) = tail (write_keys writes)) as Htail
      by (by destruct (write_keys writes)).
    rewrite Htail in Hkeys. split; [exact Hkeys|]. split.
    + unfold LRUCache_size. rewrite <- Map_keys_length, Hkeys.
      assert (length (write_keys writes) = S (maxMemoryCacheItems cfg)) as Hl
        by (unfold write_keys; by rewrite length_map).
      destruct (write_keys writes); simpl in *; lia.
    + intros k Hk. rewrite Hkeys.
      destruct (write_keys writes) as [|k0 ks]; simpl; [by apply elem_of_nil in Hk|].
      apply NoDup_cons in Hnd as [Hnotin _].
      apply elem_of_cons in Hk as [->|Hk].
      * split; [done | intros H; by exfalso; apply H].
      * split; [intros _ [= ->]; done | done].
Qed.

Lemma LRUCache_set_full_table_drops_first_example :
  Map_keys (set_all (maxMemoryCacheItems (memoryConfig 2))
              [("aa", [], 1); ("bb", [], 2); ("cc", [], 3)] [])
  = ["bb"; "cc"].
Proof.
  assert (1 <= maxMemoryCacheItems (memoryConfig 2))%nat as HN by (simpl; lia).
  destruct (LRUCache_set_full_table_drops_first (memoryConfig 2) HN) as [_ H].
  apply (H [("aa", [], 1); ("bb", [], 2); ("cc", [], 3)]).
  - reflexivity.
  - apply (bool_decide_unpack _). vm_compute. exact I.
  - repeat constructor; discriminate.
Qed.

(** C3.  The entry that a [set] on a full table evicts is not always the
    least recently used one.  With room for three entries, after
    [set aa], [set bb], [set aa], [set cc] the table is full and its least
    recently used entry is [bb], last used by the second call, while [aa]
    was last used by the third; the next [set dd] evicts [aa] and keeps
    [bb]. *)
Theorem LRUCache_set_evicts_recently_written_entry :
  let cfg := memoryConfig 3 in
  let cs := [CacheSet "aa" [Byte.x01] 1; CacheSet "bb" [Byte.x02] 2;
             CacheSet "aa" [Byte.x03] 3; CacheSet "cc" [Byte.x04] 4] in
  LRUCache_size (calls cfg cs) = maxMemoryCacheItems cfg /\
  recency cfg [] [] cs = ["bb"; "aa"; "cc"]%string /\
  least_recently_used cfg cs = Some "bb"%string /\
  Map_keys (calls cfg (cs ++ [CacheSet "dd" [Byte.x05] 5]))
  = ["bb"; "cc"; "dd"]%string /\
  Map_get "aa" (calls cfg (cs ++ [CacheSet "dd" [Byte.x05] 5])) = None /\
  Map_get "bb" (calls cfg (cs ++ [CacheSet "dd" [Byte.x05] 5]))
  = Some {| data := [Byte.x02]; createdAt := 2 |}.
Proof. vm_compute. repeat split; reflexivity. Qed.


(** C5.  A [get] of an entry older than the time to live returns nothing
    and removes the entry, so that the table has one item less and the
    other entries are as before; a [get] of an entry that is not older
    returns its bytes, and the entry stays. *)
Theorem LRUCache_get_expiry (cfg : Config) (key : string) (now : Z)
    (cache : list (string * MemoryCacheEntry)) (entry : MemoryCacheEntry) :
  NoDup (Map_keys cache) ->
  Map_get key cache = Some entry ->
  (now - createdAt entry > cacheTTL cfg * 1000 ->
     fst (LRUCache_get cfg key now cache) = None /\
     Map_get key (snd (LRUCache_get cfg key now cache)) = None /\
     S (LRUCache_size (snd (LRUCache_get cfg key now cache))) = LRUCache_size cache /\
     (forall k, k <> key ->
        Map_get k (snd (LRUCache_get cfg key now cache)) = Map_get k cache)) /\
  (now - createdAt entry <= cacheTTL cfg * 1000 ->
     fst (LRUCache_get cfg key now cache) = Some (data entry) /\
     Map_get key (snd (LRUCache_get cfg key now cache)) = Some entry /\
     LRUCache_size (snd (LRUCache_get cfg key now cache)) = LRUCache_size cache).
Proof.
  intros Hnd Hget. unfold LRUCache_get, LRUCache_size. rewrite Hget. split.
  - intros Hold.
    destruct (Z.gtb_spec (now - createdAt entry) (cacheTTL cfg * 1000)); [|lia].
    simpl. split; [done|]. split; [|split].
    + by apply Map_get_None, Map_delete_gone.
    + by apply Map_delete_length with (v := entry).
    + intros k Hk. by apply Map_get_delete_ne.
  - intros Hfresh.
    destruct (Z.gtb_spec (now - createdAt entry) (cacheTTL cfg * 1000)); [lia|].
    simpl. split; [done|]. split; [apply Map_get_set_eq|].
    rewrite Map_set_fresh by (by apply Map_delete_gone).
    rewrite length_app. simpl.
    pose proof (Map_delete_length key entry cache Hget). lia.
Qed.

(** An entry written at time 0 and read after a day and a second, then one
    read within the day. *)
Lemma LRUCache_get_expiry_witness :
  (fst (LRUCache_get defaultConfig "ab" 86401000
          [("ab", {| data := [Byte.x2a]; createdAt := 0 |})]) = None /\
   LRUCache_size (snd (LRUCache_get defaultConfig "ab" 86401000
          [("ab", {| data := [Byte.x2a]; createdAt := 0 |})])) = 0%nat) /\
  fst (LRUCache_get defaultConfig "ab" 86400000
          [("ab", {| data := [Byte.x2a]; createdAt := 0 |})]) = Some [Byte.x2a].
Proof.
  pose proof (LRUCache_get_expiry defaultConfig "ab" 86401000
                [("ab", {| data := [Byte.x2a]; createdAt := 0 |})]
                {| data := [Byte.x2a]; createdAt := 0 |}) as Hold.
  pose proof (LRUCache_get_expiry defaultConfig "ab" 86400000
                [("ab", {| data := [Byte.x2a]; createdAt := 0 |})]
                {| data := [Byte.x2a]; createdAt := 0 |}) as Hfresh.
  split.
  - destruct Hold as [Hold _].
    + apply (bool_decide_unpack _). vm_compute. exact I.
    + reflexivity.
    + destruct Hold as (H1 & _ & H3 & _); [simpl; lia|].
      split; [exact H1 | exact (eq_add_S _ 0%nat H3)].
  - destruct Hfresh as [_ Hfresh].
    + apply (bool_decide_unpack _). vm_compute. exact I.
    + reflexivity.
    + apply Hfresh. simpl. lia.
Defined.

(** ** The recency order *)

(** A hit moves the entry to the end of the order. *)
Lemma LRUCache_get_hit_moves_to_end (cfg : Config) (key : string) (now : Z)
    (cache : list (string * MemoryCacheEntry)) (entry : MemoryCacheEntry) :
  NoDup (Map_keys cache) ->
  Map_get key cache = Some entry ->
  now - createdAt entry <= cacheTTL cfg * 1000 ->
  snd (LRUCache_get cfg key now cache) = Map_delete key cache ++ [(key, entry)].
Proof.
  intros Hnd Hget Hfresh. unfold LRUCache_get. rewrite Hget.
  destruct (Z.gtb_spec (now - createdAt entry) (cacheTTL cfg * 1000)); [lia|].
  simpl. apply Map_set_fresh. by apply Map_delete_gone.
Qed.

(** A [set] of a key that is not present puts it at the end. *)
Lemma LRUCache_set_new_key_at_end (maxItems : nat) (key : string)
    (bytes : list Byte.byte) (now : Z) (cache : list (string * MemoryCacheEntry)) :
  (1 <= maxItems)%nat ->
  Forall (fun k => k <> ""%string) (Map_keys cache) ->
  key ∉ Map_keys cache ->
  LRUCache_set maxItems key bytes now cache
  = drop (S (length cache) - maxItems) cache
      ++ [(key, {| data := bytes; createdAt := now |})].
Proof.
  intros HN Hne Hnotin. rewrite LRUCache_set_drop by done.
  apply Map_set_fresh. rewrite Map_keys_drop. intros Hin. apply Hnotin.
  eapply elem_of_sublist; [exact Hin | apply sublist_drop].
Qed.

(** A [set] of a key that is present, in a table that is not full, leaves
    the order as it is: the entry is not moved to the end. *)
Lemma LRUCache_set_present_key_order (maxItems : nat) (key : string)
    (bytes : list Byte.byte) (now : Z) (cache : list (string * MemoryCacheEntry)) :
  (length cache < maxItems)%nat ->
  key ∈ Map_keys cache ->
  Map_keys (LRUCache_set maxItems key bytes now cache) = Map_keys cache.
Proof.
  intros Hlen Hin. unfold LRUCache_set.
  assert (evict_oldest (length cache) maxItems cache = cache) as ->.
  { destruct (length cache) eqn:E; simpl; [done|].
    destruct (Nat.leb_spec maxItems (length cache)); [lia | done]. }
  by apply Map_set_present_keys.
Qed.

(** C4, where the code departs from it.  With room for three items, "aa"
    and "bb" are written and then "aa" is written again: "aa" stays at the
    head of the order instead of moving behind "bb", and two more writes
    evict "aa", the entry written last of the two, and keep "bb". *)
Theorem LRUCache_set_present_key_not_moved :
  Map_keys (set_all 3 [("aa", [Byte.x01], 1); ("bb", [Byte.x02], 2);
                       ("aa", [Byte.x03], 3)] [])
  = ["aa"; "bb"] /\
  Map_keys (set_all 3 [("aa", [Byte.x01], 1); ("bb", [Byte.x02], 2);
                       ("aa", [Byte.x03], 3); ("cc", [Byte.x04], 4);
                       ("dd", [Byte.x05], 5)] [])
  = ["bb"; "cc"; "dd"].
Proof. split; reflexivity. Qed.

(** Why the keys are taken to be cache keys: the loop of [set] tests the
    first key for truth, and an empty key at the head of the order would
    stop the eviction. *)
Example LRUCache_set_empty_first_key :
  Map_keys (set_all 1 [(""%string, [Byte.x01], 1); ("aa"%string, [Byte.x02], 2)] [])
  = [""%string; "aa"%string].
Proof. reflexivity. Qed.

(** A hit moves the entry behind the others, so that the next eviction
    takes another one. *)
Example LRUCache_get_then_set :
  Map_keys
    (LRUCache_set 2 "cc" [Byte.x03] 3
       (snd (LRUCache_get (memoryConfig 2) "aa" 2
               (set_all 2 [("aa"%string, [Byte.x01], 0); ("bb"%string, [Byte.x02], 1)] []))))
  = ["aa"%string; "cc"%string].
Proof. reflexivity. Qed.


(** * Paths *)

Lemma split_slash_app (cur a b : string) :
  split_slash cur (a +:+ String "/" b) = split_slash cur a ++ split_slash "" b.
Proof.
  revert cur. induction a as [|c a IH]; intros cur; [done|].
  rewrite append_cons. simpl. destruct (Ascii.eqb c "/"); simpl; by rewrite IH.
Qed.

Lemma plain_segment_spec (s : string) :
  plain_segment s = true ->
  forallb (fun c => negb (Ascii.eqb c "/")) (list_ascii_of_string s) = true /\
  String.eqb s "" = false /\ String.eqb s "." = false /\ String.eqb s ".." = false.
Proof.
  unfold plain_segment. rewrite !andb_true_iff, !negb_true_iff. tauto.
Qed.

Lemma split_slash_plain (cur s : string) :
  forallb (fun c => negb (Ascii.eqb c "/")) (list_ascii_of_string s) = true ->
  split_slash cur s = [cur +:+ s].
Proof.
  revert cur. induction s as [|c s IH]; intros cur Hs; simpl.
  - by rewrite append_nil_r.
  - simpl in Hs. apply andb_true_iff in Hs as [Hc Hs].
    apply negb_true_iff in Hc. rewrite Hc, IH by done.
    by rewrite append_assoc.
Qed.

Lemma normalize_segments_snoc (allow : bool) (res l : list string) (s : string) :
  plain_segment s = true ->
  normalize_segments allow res (l ++ [s]) = normalize_segments allow res l ++ [s].
Proof.
  intros Hs. apply plain_segment_spec in Hs as (_ & H0 & H1 & H2).
  revert res. induction l as [|x l IH]; intros res; simpl.
  - by rewrite H0, H1, H2.
  - destruct (String.eqb x "" || String.eqb x "."); [apply IH|].
    destruct (String.eqb x ".."); [|apply IH].
    destruct res as [|last res']; [destruct allow; apply IH|].
    destruct (String.eqb last ".."); [destruct allow|]; apply IH.
Qed.

Lemma ends_with_slash_app (a k : string) :
  k <> ""%string -> ends_with_slash (a +:+ k) = ends_with_slash k.
Proof.
  intros Hk. induction a as [|c a IH]; [done|].
  rewrite append_cons. simpl ends_with_slash. rewrite IH.
  destruct (a +:+ k) eqn:E; [|done].
  destruct a; [by rewrite append_nil_l in E | by rewrite append_cons in E].
Qed.

Lemma ends_with_slash_plain (k : string) :
  forallb (fun c => negb (Ascii.eqb c "/")) (list_ascii_of_string k) = true ->
  ends_with_slash k = false.
Proof.
  induction k as [|c k IH]; [done|]. simpl. intros H.
  apply andb_true_iff in H as [Hc Hk]. apply negb_true_iff in Hc.
  destruct k; [done | by apply IH].
Qed.

Lemma Array_join_snoc_nonempty (l : list string) (s k : string) :
  Array_join "/" (l ++ [s; k]) <> ""%string.
Proof.
  induction l as [|x l IH]; simpl.
  - by destruct s.
  - destruct (l ++ [s; k]) eqn:E; [by destruct l|]. by destruct x.
Qed.

(** The path that [join] makes of a directory and two plain segments: the
    segments of the directory, then the two. *)
Lemma path_join_plain (dir s k : string) :
  dir <> ""%string -> plain_segment s = true -> plain_segment k = true ->
  path_join [dir; s; k]
  = (if is_absolute dir then "/" else "")
      +:+ Array_join "/" (root_segments dir ++ [s; k]).
Proof.
  intros Hdir Hs Hk.
  destruct (plain_segment_spec s Hs) as (Hs1 & Hs0 & _).
  destruct (plain_segment_spec k Hk) as (Hk1 & Hk0 & _).
  assert (List.filter truthy [dir; s; k] = [dir; s; k]) as Hf.
  { simpl. apply truthy_nonempty in Hdir. rewrite Hdir.
    unfold truthy. by rewrite Hs0, Hk0. }
  unfold path_join. rewrite Hf.
  change (Array_join "/" [dir; s; k]) with (dir +:+ String "/" (s +:+ String "/" k)).
  unfold path_normalize.
  assert (String.eqb (dir +:+ String "/" (s +:+ String "/" k)) "" = false) as ->
    by (by destruct dir).
  assert (is_absolute (dir +:+ String "/" (s +:+ String "/" k)) = is_absolute dir) as ->
    by (by destruct dir).
  assert (ends_with_slash (dir +:+ String "/" (s +:+ String "/" k)) = false) as ->.
  { rewrite ends_with_slash_app by discriminate.
    change (String "/" (s +:+ String "/" k)) with (("/" +:+ s) +:+ String "/" k).
    rewrite ends_with_slash_app by discriminate.
    change (String "/" k) with ("/" +:+ k).
    rewrite ends_with_slash_app by (intros ->; discriminate).
    by apply ends_with_slash_plain. }
  rewrite !split_slash_app.
  rewrite (split_slash_plain "" s), (split_slash_plain "" k) by done.
  rewrite !append_nil_l.
  change [s; k] with ([s] ++ [k]). rewrite !app_assoc.
  rewrite !normalize_segments_snoc by done. rewrite <- !app_assoc. simpl app.
  fold (root_segments dir).
  destruct (String.eqb_spec (Array_join "/" (root_segments dir ++ [s; k])) "")
    as [Hempty|_]; [by apply Array_join_snoc_nonempty in Hempty|].
  by destruct (is_absolute dir).
Qed.

Lemma hex_digit_plain (c : ascii) :
  is_hex_digit c = true -> Ascii.eqb c "/" = false /\ Ascii.eqb c "." = false.
Proof.
  destruct c as [[] [] [] [] [] [] [] []]; vm_compute; intros H;
    (discriminate || (split; reflexivity)).
Qed.

Lemma isCacheKey_segments (key : string) :
  isCacheKey key = true ->
  plain_segment key = true /\ plain_segment (substring 0 2 key) = true /\
  String.length (substring 0 2 key) = 2%nat /\
  String.prefix (substring 0 2 key) key = true.
Proof.
  unfold isCacheKey. rewrite andb_true_iff, Nat.eqb_eq. intros [Hlen Hhex].
  destruct key as [|c1 [|c2 key]]; try discriminate.
  simpl in Hhex. apply andb_true_iff in Hhex as [H1 Hhex].
  apply andb_true_iff in Hhex as [H2 Hhex].
  destruct (hex_digit_plain c1 H1) as [H1s H1d].
  destruct (hex_digit_plain c2 H2) as [H2s H2d].
  assert (forallb (fun c => negb (Ascii.eqb c "/")) (list_ascii_of_string key) = true)
    as Hrest.
  { apply forallb_forall. intros c Hc. rewrite forallb_forall in Hhex.
    by destruct (hex_digit_plain c (Hhex c Hc)) as [-> _]. }
  assert (substring 0 2 (String c1 (String c2 key)) = String c1 (String c2 ""))
    as -> by (simpl; by destruct key).
  unfold plain_segment. simpl. rewrite H1s, H2s, Hrest. simpl.
  rewrite H1d. simpl.
  destruct (ascii_dec c1 c1); [|done]. destruct (ascii_dec c2 c2); [|done].
  repeat split. by destruct key.
Qed.


(** * Disk backend *)

(** C6.  When the write succeeds, a [set] leaves the bytes in the cache
    file of the key, and a [get] of the key before the time to live has
    passed returns these bytes: right after the [set], and from any later
    disk in which the file is still as it was written.  The cache file of a
    cache key is at root/shard/key: its path is made of the segments of the
    cache directory, then the first two characters of the key, then the
    key. *)
Theorem disk_round_trip (cfg : Config) (host : Host) (key : string)
    (bytes : list Byte.byte) (t_set t_get : Z) (disk0 : gmap string File) :
  write_succeeds host (getCachePath cfg key) = true ->
  t_get - t_set < cacheTTL cfg * 1000 ->
  setDiskCache cfg host key bytes t_set disk0 !! getCachePath cfg key
  = Some {| contents := bytes; mtime := t_set |} /\
  fst (getDiskCached cfg host key t_get (setDiskCache cfg host key bytes t_set disk0))
  = Some bytes /\
  (forall later : gmap string File,
      later !! getCachePath cfg key = Some {| contents := bytes; mtime := t_set |} ->
      getDiskCached cfg host key t_get later = (Some bytes, later)) /\
  (isCacheKey key = true -> cacheDir cfg <> ""%string ->
   getCachePath cfg key
   = (if is_absolute (cacheDir cfg) then "/" else "")
       +:+ Array_join "/" (root_segments (cacheDir cfg) ++ [substring 0 2 key; key]) /\
   String.length (substring 0 2 key) = 2%nat /\
   String.prefix (substring 0 2 key) key = true).
Proof.
  intros Hw Hfresh.
  assert (forall later : gmap string File,
             later !! getCachePath cfg key = Some {| contents := bytes; mtime := t_set |} ->
             getDiskCached cfg host key t_get later = (Some bytes, later)) as Hget.
  { intros later Hfile. unfold getDiskCached. rewrite Hfile. simpl.
    destruct (Z.ltb_spec (t_get - t_set) (cacheTTL cfg * 1000)); [done | lia]. }
  assert (setDiskCache cfg host key bytes t_set disk0 !! getCachePath cfg key
          = Some {| contents := bytes; mtime := t_set |}) as Hset.
  { unfold setDiskCache. rewrite Hw. apply lookup_insert_eq. }
  split; [exact Hset|]. split; [by rewrite (Hget _ Hset)|]. split; [exact Hget|].
  intros Hkey Hdir.
  destruct (isCacheKey_segments key Hkey) as (Hk & Hs & Hlen & Hpre).
  split; [|done]. unfold getCachePath. by apply path_join_plain.
Qed.

Lemma disk_round_trip_witness :
  fst (getDiskCached defaultConfig (reliableHost GnuFind)
         "32715181b1e87b3d852d54e58ee39d6beb9fc834c125b06a1db879b5bd1dd44c" 86399999
         (setDiskCache defaultConfig (reliableHost GnuFind)
            "32715181b1e87b3d852d54e58ee39d6beb9fc834c125b06a1db879b5bd1dd44c"
            [Byte.x89; Byte.x50; Byte.x4e; Byte.x47] 0 ∅))
  = Some [Byte.x89; Byte.x50; Byte.x4e; Byte.x47] /\
  getCachePath defaultConfig
    "32715181b1e87b3d852d54e58ee39d6beb9fc834c125b06a1db879b5bd1dd44c"
  = "cache/32/32715181b1e87b3d852d54e58ee39d6beb9fc834c125b06a1db879b5bd1dd44c"%string.
Proof.
  destruct (disk_round_trip defaultConfig (reliableHost GnuFind)
              "32715181b1e87b3d852d54e58ee39d6beb9fc834c125b06a1db879b5bd1dd44c"
              [Byte.x89; Byte.x50; Byte.x4e; Byte.x47] 0 86399999 ∅)
    as (_ & Hget & _ & Hpath).
  - reflexivity.
  - simpl. lia.
  - split; [exact Hget|].
    destruct Hpath as (-> & _); [reflexivity | discriminate | reflexivity].
Defined.

(** At the time to live exactly the file is no longer served. *)
Example getDiskCached_at_ttl :
  fst (getDiskCached defaultConfig (reliableHost GnuFind) "ab12cd" 86400000
         (setDiskCache defaultConfig (reliableHost GnuFind) "ab12cd" [Byte.x89] 0 ∅))
  = None.
Proof. vm_compute. reflexivity. Qed.

Example path_join_examples :
  path_join ["./cache"; "ab"; "ab12cd"] = "cache/ab/ab12cd"%string /\
  path_join ["/var/cache/"; "ab"; "ab12cd"] = "/var/cache/ab/ab12cd"%string /\
  path_join ["cache"; ".."; "ab"] = "ab"%string /\
  path_join ["../cache"; "ab"; "ab12cd"] = "../cache/ab/ab12cd"%string /\
  path_join [""; ""] = "."%string.
Proof. repeat split; reflexivity. Qed.

(** ** The sweep *)

Section Sweep.
Variable host : Host.

Let step (acc : Z * gmap string File) (file : string) : Z * gmap string File :=
  if rm_succeeds host file then (fst acc + 1, delete file (snd acc)) else acc.

Lemma sweep_fold (paths : list string) (n : Z) (d : gmap string File) :
  fst (fold_left step paths (n, d))
  = n + Z.of_nat (length (List.filter (rm_succeeds host) paths)) /\
  forall p, snd (fold_left step paths (n, d)) !! p
            = if bool_decide (p ∈ paths) && rm_succeeds host p then None else d !! p.
Proof.
  revert n d. induction paths as [|q paths IH]; intros n d; simpl.
  - split; [lia | done].
  - unfold step at 2 4. destruct (rm_succeeds host q) eqn:Hq; simpl.
    + destruct (IH (n + 1) (delete q d)) as [Hn Hd]. split; [rewrite Hn; lia|].
      intros p. rewrite Hd.
      destruct (decide (p = q)) as [->|Hne].
      * rewrite Hq, lookup_delete_eq.
        rewrite (bool_decide_eq_true_2 (q ∈ q :: paths)) by left.
        by destruct (bool_decide (q ∈ paths)).
      * rewrite lookup_delete_ne by done.
        rewrite (bool_decide_ext (p ∈ q :: paths) (p ∈ paths)); [done|].
        rewrite elem_of_cons. tauto.
    + destruct (IH n d) as [Hn Hd]. split; [exact Hn|].
      intros p. rewrite Hd.
      destruct (decide (p = q)) as [->|Hne].
      * rewrite Hq. by rewrite !andb_false_r.
      * rewrite (bool_decide_ext (p ∈ q :: paths) (p ∈ paths)); [done|].
        rewrite elem_of_cons. tauto.
Qed.

Lemma find_mmin_elem_of (n now : Z) (d : gmap string File) (p : string) :
  p ∈ find_mmin host n now d
  <-> exists f, d !! p = Some f /\ mmin_plus (find host) n now f = true.
Proof.
  unfold find_mmin. rewrite list_elem_of_In, in_map_iff. split.
  - intros ([q f] & <- & Hin). apply filter_In in Hin as [Hin Hold].
    apply list_elem_of_In, elem_of_map_to_list in Hin. by exists f.
  - intros (f & Hf & Hold). exists (p, f). split; [done|].
    apply filter_In. split; [|done].
    by apply list_elem_of_In, elem_of_map_to_list.
Qed.

Lemma filter_map_fst_length (P : File -> bool) (l : list (string * File)) :
  length (List.filter (rm_succeeds host) (List.map fst (List.filter (fun pf => P (snd pf)) l)))
  = length (List.filter (fun pf => P (snd pf) && rm_succeeds host (fst pf)) l).
Proof.
  induction l as [|[p f] l IH]; simpl; [done|].
  destruct (P f); simpl; [|exact IH].
  destruct (rm_succeeds host p); simpl; by rewrite IH.
Qed.

End Sweep.

(** What the sweep does: it deletes the files that [find -mmin +n] reports,
    [n] being the time to live in whole minutes, and whose removal
    succeeds, and no other; a removal that fails leaves its file and the
    sweep goes on; the count returned is the number of files removed.  With
    GNU find and a time to live of whole minutes, the files reported are
    those whose modification time is older than now - ttl. *)
Lemma cleanupDisk_removes_what_find_reports (cfg : Config) (host : Host)
    (now : Z) (disk0 : gmap string File) :
  (forall path,
      snd (cleanupDisk cfg host now disk0) !! path
      = match disk0 !! path with
        | Some file =>
            if mmin_plus (find host) (cacheTTL cfg / 60) now file
               && rm_succeeds host path
            then None else Some file
        | None => None
        end) /\
  fst (cleanupDisk cfg host now disk0)
  = Z.of_nat (length (List.filter
                        (fun pf : string * File =>
                           mmin_plus (find host) (cacheTTL cfg / 60) now (snd pf)
                           && rm_succeeds host (fst pf))
                        (map_to_list disk0))) /\
  (forall file,
      cacheTTL cfg mod 60 = 0 ->
      (mmin_plus GnuFind (cacheTTL cfg / 60) now file = true
       <-> mtime file < now - cacheTTL cfg * 1000)).
Proof.
  unfold cleanupDisk.
  destruct (sweep_fold host (find_mmin host (cacheTTL cfg / 60) now disk0) 0 disk0)
    as [Hn Hd].
  split; [|split].
  - intros path. rewrite Hd. clear Hn Hd.
    destruct (disk0 !! path) as [file|] eqn:Hfile.
    + destruct (mmin_plus (find host) (cacheTTL cfg / 60) now file) eqn:Hold.
      * rewrite bool_decide_eq_true_2; [done|].
        apply find_mmin_elem_of. by exists file.
      * rewrite bool_decide_eq_false_2; [done|].
        rewrite find_mmin_elem_of. intros (f & Hf & Hold'). congruence.
    + rewrite bool_decide_eq_false_2; [done|].
      rewrite find_mmin_elem_of. intros (f & Hf & _). congruence.
  - rewrite Hn. unfold find_mmin.
    by rewrite (filter_map_fst_length host
                  (mmin_plus (find host) (cacheTTL cfg / 60) now)).
  - intros file Hmod. simpl. rewrite Z.ltb_lt.
    assert (cacheTTL cfg = 60 * (cacheTTL cfg / 60)) as Hdiv
      by (apply Z.div_exact; lia).
    lia.
Qed.

(** With the time to live of a day and GNU find, a sweep 25 hours after the
    first file and 3 hours after the second removes the first alone. *)
Lemma cleanupDisk_removes_what_find_reports_example :
  snd (cleanupDisk defaultConfig (reliableHost GnuFind) 90000000
         {[ "cache/ab/ab12cd"%string := {| contents := [Byte.x89]; mtime := 0 |};
            "cache/cd/cd34ef"%string := {| contents := [Byte.x50]; mtime := 79200000 |} ]})
    !! "cache/ab/ab12cd"%string = None /\
  snd (cleanupDisk defaultConfig (reliableHost GnuFind) 90000000
         {[ "cache/ab/ab12cd"%string := {| contents := [Byte.x89]; mtime := 0 |};
            "cache/cd/cd34ef"%string := {| contents := [Byte.x50]; mtime := 79200000 |} ]})
    !! "cache/cd/cd34ef"%string = Some {| contents := [Byte.x50]; mtime := 79200000 |} /\
  fst (cleanupDisk defaultConfig (reliableHost GnuFind) 90000000
         {[ "cache/ab/ab12cd"%string := {| contents := [Byte.x89]; mtime := 0 |};
            "cache/cd/cd34ef"%string := {| contents := [Byte.x50]; mtime := 79200000 |} ]})
  = 1.
Proof.
  destruct (cleanupDisk_removes_what_find_reports defaultConfig (reliableHost GnuFind)
              90000000
              {[ "cache/ab/ab12cd"%string := {| contents := [Byte.x89]; mtime := 0 |};
                 "cache/cd/cd34ef"%string :=
                   {| contents := [Byte.x50]; mtime := 79200000 |} ]})
    as (Hfiles & Hcount & _).
  rewrite !Hfiles, Hcount. vm_compute. repeat split; reflexivity.
Qed.

(** The files that the sweep removes are not those that are older than the
    time to live.  With a time to live of 90 seconds GNU find is asked for
    the files older than one minute: a file written 70 seconds ago is
    deleted.  BusyBox find reports a file from two minutes on: a file
    written 100 seconds ago is kept; and so is, with the time to live of a
    day, a file that is a day and 30 seconds old. *)
Lemma cleanupDisk_not_exactly_ttl :
  (let disk0 : gmap string File :=
     {[ "cache/ab/ab12cd"%string := {| contents := [Byte.x89]; mtime := 930000 |} ]} in
   at_least_as_new 1000000 90 930000 = true /\
   fst (getDiskCached (configWith ModeDisk 90) (reliableHost GnuFind) "ab12cd"
          1000000 disk0) = Some [Byte.x89] /\
   fst (cleanupDisk (configWith ModeDisk 90) (reliableHost GnuFind) 1000000 disk0) = 1 /\
   snd (cleanupDisk (configWith ModeDisk 90) (reliableHost GnuFind) 1000000 disk0)
     !! "cache/ab/ab12cd"%string = None) /\
  (let disk0 : gmap string File :=
     {[ "cache/ab/ab12cd"%string := {| contents := [Byte.x89]; mtime := 900000 |} ]} in
   at_least_as_new 1000000 90 900000 = false /\
   fst (cleanupDisk (configWith ModeDisk 90) (reliableHost BusyBoxFind) 1000000 disk0) = 0 /\
   snd (cleanupDisk (configWith ModeDisk 90) (reliableHost BusyBoxFind) 1000000 disk0)
     !! "cache/ab/ab12cd"%string = Some {| contents := [Byte.x89]; mtime := 900000 |}) /\
  (let disk0 : gmap string File :=
     {[ "cache/ab/ab12cd"%string := {| contents := [Byte.x89]; mtime := 0 |} ]} in
   at_least_as_new 86430000 86400 0 = false /\
   fst (cleanupDisk defaultConfig (reliableHost BusyBoxFind) 86430000 disk0) = 0).
Proof. vm_compute. repeat split; reflexivity. Qed.

(** C7.  The sweep deletes files that are not older than the time to live.
    With a time to live of 90 seconds and GNU find, a file written 70
    seconds before the sweep, which is at least as new as now - ttl and
    which [getDiskCached] returns at that time, is deleted and counted as
    removed; with a time to live of 59 seconds, a file written one second
    before the sweep is. *)
Theorem cleanupDisk_deletes_unexpired_file :
  (let cfg := configWith ModeDisk 90 in
   let host := reliableHost GnuFind in
   let now := 1000000 in
   let disk0 : gmap string File :=
     {[ "cache/ab/ab12cd"%string := {| contents := [Byte.x89]; mtime := 930000 |} ]} in
   getCachePath cfg "ab12cd" = "cache/ab/ab12cd"%string /\
   at_least_as_new now (cacheTTL cfg) 930000 = true /\
   fst (getDiskCached cfg host "ab12cd" now disk0) = Some [Byte.x89] /\
   cleanupCache cfg host now {| memoryCache := []; disk := disk0 |}
   = (1, {| memoryCache := []; disk := ∅ |}) /\
   fst (getDiskCached cfg host "ab12cd" now
          (disk (snd (cleanupCache cfg host now
                        {| memoryCache := []; disk := disk0 |})))) = None) /\
  (let cfg := configWith ModeDisk 59 in
   let host := reliableHost GnuFind in
   let now := 1000000 in
   let disk0 : gmap string File :=
     {[ "cache/ab/ab12cd"%string := {| contents := [Byte.x89]; mtime := 999000 |} ]} in
   at_least_as_new now (cacheTTL cfg) 999000 = true /\
   fst (getDiskCached cfg host "ab12cd" now disk0) = Some [Byte.x89] /\
   cleanupCache cfg host now {| memoryCache := []; disk := disk0 |}
   = (1, {| memoryCache := []; disk := ∅ |})).
Proof. vm_compute. repeat split; reflexivity. Qed.


(** * Cache facade *)

Lemma setCache_all_unchanged (cfg : Config) (host : Host)
    (writes : list (string * list Byte.byte * string * Z)) (st : State) :
  (forall key bytes format now s, setCache cfg host key bytes format now s = s) ->
  setCache_all cfg host writes st = st.
Proof.
  intros Hset. unfold setCache_all.
  induction writes as [|w writes IH]; simpl; [done|]. by rewrite Hset.
Qed.

(** C8.  In mode [none] a [getCached] returns nothing and leaves the state
    as it is, a [setCache] leaves the memory table and the disk as they
    are, and so a [getCached] after any [setCache] calls returns nothing. *)
Theorem none_mode_caches_nothing (cfg : Config) (host : Host) :
  cacheMode cfg = ModeNone ->
  (forall key now st, getCached cfg host key now st = (None, st)) /\
  (forall key bytes format now st,
      setCache cfg host key bytes format now st = st) /\
  (forall writes key now st,
      getCached cfg host key now (setCache_all cfg host writes st) = (None, st)).
Proof.
  intros Hmode.
  assert (forall key bytes format now st,
             setCache cfg host key bytes format now st = st) as Hset
    by (intros; unfold setCache; by rewrite Hmode).
  split; [|split].
  - intros. unfold getCached. by rewrite Hmode.
  - exact Hset.
  - intros. rewrite setCache_all_unchanged by exact Hset.
    unfold getCached. by rewrite Hmode.
Qed.

Lemma none_mode_caches_nothing_witness :
  getCached (configWith ModeNone 86400) (reliableHost GnuFind) "ab12cd" 2
    (setCache_all (configWith ModeNone 86400) (reliableHost GnuFind)
       [("ab12cd", [Byte.x89], "png"%string, 1)]
       {| memoryCache := []; disk := ∅ |})
  = (None, {| memoryCache := []; disk := ∅ |}).
Proof.
  apply (none_mode_caches_nothing (configWith ModeNone 86400) (reliableHost GnuFind)).
  reflexivity.
Defined.

(** C10.  The schema of the configuration accepts "hybrid".  In that mode a
    [getCached] returns nothing, a [setCache] changes nothing, as in mode
    [none], and [getCacheStats] returns no value, where mode [none]
    returns its mode tag. *)
Theorem hybrid_mode_caches_nothing (cfg : Config) (host : Host) :
  cacheMode cfg = ModeHybrid ->
  CacheModeSchema "hybrid" = Some ModeHybrid /\
  (forall key now st, getCached cfg host key now st = (None, st)) /\
  (forall key bytes format now st,
      setCache cfg host key bytes format now st = st) /\
  (forall writes key now st,
      getCached cfg host key now (setCache_all cfg host writes st) = (None, st)) /\
  (forall st, getCacheStats cfg st = None) /\
  (forall cfg' st, cacheMode cfg' = ModeNone ->
      getCacheStats cfg' st
      = Some {| mode := ModeNone; items := None; directory := None |}).
Proof.
  intros Hmode.
  assert (forall key bytes format now st,
             setCache cfg host key bytes format now st = st) as Hset
    by (intros; unfold setCache; by rewrite Hmode).
  split; [reflexivity|]. split; [|split; [exact Hset|split; [|split]]].
  - intros. unfold getCached. by rewrite Hmode.
  - intros. rewrite setCache_all_unchanged by exact Hset.
    unfold getCached. by rewrite Hmode.
  - intros. unfold getCacheStats. by rewrite Hmode.
  - intros cfg' st Hnone. unfold getCacheStats. by rewrite Hnone.
Qed.

Lemma hybrid_mode_caches_nothing_witness :
  getCached (configWith ModeHybrid 86400) (reliableHost GnuFind) "ab12cd" 2
    (setCache_all (configWith ModeHybrid 86400) (reliableHost GnuFind)
       [("ab12cd", [Byte.x89], "png"%string, 1)]
       {| memoryCache := []; disk := ∅ |})
  = (None, {| memoryCache := []; disk := ∅ |}) /\
  getCacheStats (configWith ModeHybrid 86400) {| memoryCache := []; disk := ∅ |} = None.
Proof.
  destruct (hybrid_mode_caches_nothing (configWith ModeHybrid 86400)
              (reliableHost GnuFind) eq_refl) as (_ & _ & _ & Hget & Hstats & _).
  split; [apply Hget | apply Hstats].
Defined.

(** The periodic sweep is another matter: in mode [hybrid] it runs the
    disk sweep, in mode [none] it does nothing. *)
Example cleanupCache_hybrid_sweeps_disk :
  fst (cleanupCache (configWith ModeHybrid 60) (reliableHost GnuFind) 1000000
         {| memoryCache := [];
            disk := {[ "cache/ab/ab12cd"%string := {| contents := []; mtime := 0 |} ]} |})
  = 1.
Proof. vm_compute. reflexivity. Qed.

(** * Response headers *)

Lemma MIME_TYPES_other (format : string) :
  format ∉ ImageFormat_names -> MIME_TYPES !! format = None.
Proof.
  intros Hnotin. unfold MIME_TYPES. apply not_elem_of_list_to_map_1. exact Hnotin.
Qed.

(** C9, amended.  [jpg] and [jpeg] both get [image/jpeg] and the other four
    formats their own type; a format that is none of the six, and not the
    name of a property that an object inherits, gets [image/jpeg]; whatever
    the format, Cache-Control is [public, max-age=<browser TTL>, immutable]
    and Vary is [Accept]. *)
Theorem getCacheHeaders_mapping (cfg : Config) :
  Content_Type (getCacheHeaders cfg "jpg") = PString "image/jpeg" /\
  Content_Type (getCacheHeaders cfg "jpeg") = PString "image/jpeg" /\
  Content_Type (getCacheHeaders cfg "webp") = PString "image/webp" /\
  Content_Type (getCacheHeaders cfg "avif") = PString "image/avif" /\
  Content_Type (getCacheHeaders cfg "png") = PString "image/png" /\
  Content_Type (getCacheHeaders cfg "gif") = PString "image/gif" /\
  (forall format,
      format ∉ ImageFormat_names -> format ∉ Object_prototype_names ->
      Content_Type (getCacheHeaders cfg format) = PString "image/jpeg") /\
  (forall format,
      Cache_Control (getCacheHeaders cfg format)
      = "public, max-age=" +:+ Number_toString (browserCacheTTL cfg) +:+ ", immutable" /\
      Vary (getCacheHeaders cfg format) = "Accept"%string).
Proof.
  do 6 (split; [reflexivity|]). split; [|done].
  intros format Hformat Hproto. unfold getCacheHeaders, MIME_TYPES_get. simpl.
  rewrite MIME_TYPES_other by done.
  by rewrite bool_decide_eq_false_2.
Qed.

Lemma getCacheHeaders_mapping_witness :
  Content_Type (getCacheHeaders defaultConfig "bmp") = PString "image/jpeg" /\
  Cache_Control (getCacheHeaders defaultConfig "bmp")
  = "public, max-age=31536000, immutable"%string.
Proof.
  destruct (getCacheHeaders_mapping defaultConfig) as (_ & _ & _ & _ & _ & _ & Hother & Hall).
  split.
  - apply Hother; apply (bool_decide_unpack _); vm_compute; exact I.
  - by destruct (Hall "bmp"%string) as [-> _].
Defined.

(** C9 as stated does not hold: "constructor" is none of the six formats,
    and the property read finds the constructor that every object
    inherits, which is not [undefined], so that there is no fall back. *)
Lemma getCacheHeaders_inherited_name :
  bool_decide ("constructor"%string ∈ ImageFormat_names) = false /\
  Content_Type (getCacheHeaders defaultConfig "constructor") = PInherited "constructor" /\
  Content_Type (getCacheHeaders defaultConfig "constructor") <> PString "image/jpeg".
Proof.
  split; [|split; [reflexivity | discriminate]].
  vm_compute. reflexivity.
Qed.

Example getCacheHeaders_default :
  Cache_Control (getCacheHeaders defaultConfig "webp")
  = "public, max-age=31536000, immutable"%string /\
  Content_Type (getCacheHeaders defaultConfig "bmp") = PString "image/jpeg".
Proof. split; reflexivity. Qed.


(** * Further properties of the memory backend *)

Lemma LRUCache_set_then_get_fst (cfg : Config) (maxItems : nat) (key : string)
    (bytes : list Byte.byte) (t_set t_get : Z)
    (cache : list (string * MemoryCacheEntry)) :
  fst (LRUCache_get cfg key t_get (LRUCache_set maxItems key bytes t_set cache))
  = if t_get - t_set >? cacheTTL cfg * 1000 then None else Some bytes.
Proof.
  unfold LRUCache_get, LRUCache_set. rewrite Map_get_set_eq. simpl.
  by destruct (t_get - t_set >? cacheTTL cfg * 1000).
Qed.

(** X1.  What [set] has written, [get] returns, whatever the table held
    and however large it may be, as long as the entry is not older than
    the time to live; once it is older, [get] returns nothing. *)
Theorem LRUCache_set_then_get (cfg : Config) (maxItems : nat) (key : string)
    (bytes : list Byte.byte) (t_set t_get : Z)
    (cache : list (string * MemoryCacheEntry)) :
  fst (LRUCache_get cfg key t_get (LRUCache_set maxItems key bytes t_set cache))
  = if t_get - t_set >? cacheTTL cfg * 1000 then None else Some bytes.
Proof.
  unfold LRUCache_get, LRUCache_set. rewrite Map_get_set_eq. simpl.
  by destruct (t_get - t_set >? cacheTTL cfg * 1000).
Qed.

(** X2.  A [get] never adds or changes an entry: what the table holds
    afterwards it held before, and it holds no more entries than before;
    a [get] of a key that is absent leaves the table as it is. *)
Theorem LRUCache_get_never_adds (cfg : Config) (key : string) (now : Z)
    (cache : list (string * MemoryCacheEntry)) :
  NoDup (Map_keys cache) ->
  (forall k e, Map_get k (snd (LRUCache_get cfg key now cache)) = Some e ->
               Map_get k cache = Some e) /\
  (LRUCache_size (snd (LRUCache_get cfg key now cache)) <= LRUCache_size cache)%nat /\
  (Map_get key cache = None -> LRUCache_get cfg key now cache = (None, cache)).
Proof.
  intros Hnd. unfold LRUCache_get, LRUCache_size.
  destruct (Map_get key cache) as [entry|] eqn:Hget; [|by repeat split].
  pose proof (Map_delete_length key entry cache Hget) as Hlen.
  destruct (now - createdAt entry >? cacheTTL cfg * 1000); simpl.
  - split; [|split; [lia | done]].
    intros k e Hk. destruct (decide (k = key)) as [->|Hne].
    + apply Map_get_Some, list_elem_of_In, (in_map fst), list_elem_of_In in Hk.
      by apply (Map_delete_gone key cache) in Hnd.
    + by rewrite Map_get_delete_ne in Hk.
  - split; [|split; [|done]].
    + intros k e Hk. destruct (decide (k = key)) as [->|Hne].
      * rewrite Map_get_set_eq in Hk. congruence.
      * by rewrite Map_get_set_ne, Map_get_delete_ne in Hk.
    + rewrite Map_set_fresh by (by apply Map_delete_gone).
      rewrite length_app. simpl. lia.
Qed.

Lemma LRUCache_get_never_adds_witness :
  LRUCache_get (memoryConfig 2) "bb" 5
    [("aa"%string, {| data := [Byte.x01]; createdAt := 0 |})]
  = (None, [("aa"%string, {| data := [Byte.x01]; createdAt := 0 |})]).
Proof.
  apply (LRUCache_get_never_adds (memoryConfig 2) "bb" 5
           [("aa"%string, {| data := [Byte.x01]; createdAt := 0 |})]).
  - apply (bool_decide_unpack _). vm_compute. exact I.
  - reflexivity.
Defined.

(** X3.  With a maximum of at least one item and cache keys, the table
    never holds more than the maximum, and never a key twice, whatever
    calls of [get], [set], [cleanup] and [clear] have been made. *)
Theorem LRUCache_size_bounded (cfg : Config) (cache : list (string * MemoryCacheEntry)) :
  (1 <= maxMemoryCacheItems cfg)%nat ->
  reachable cfg cache ->
  (LRUCache_size cache <= maxMemoryCacheItems cfg)%nat /\ NoDup (Map_keys cache).
Proof.
  intros HN Hreach. destruct (reachable_ok cfg cache HN Hreach) as (Hnd & _ & Hlen).
  by split.
Qed.

Lemma LRUCache_size_bounded_witness :
  (LRUCache_size
     (LRUCache_set 2 "cc" [Byte.x03] 3
        (LRUCache_set 2 "bb" [Byte.x02] 2 (LRUCache_set 2 "aa" [Byte.x01] 1 [])))
   <= 2)%nat.
Proof.
  apply (LRUCache_size_bounded (memoryConfig 2)).
  - simpl. lia.
  - repeat (apply (reachable_set (memoryConfig 2)); [discriminate|]).
    apply reachable_new.
Defined.


Lemma Map_delete_app_fresh (key : string) (v : MemoryCacheEntry)
    (pre rest : list (string * MemoryCacheEntry)) :
  key ∉ Map_keys pre ->
  Map_delete key (pre ++ (key, v) :: rest) = pre ++ rest.
Proof.
  induction pre as [|[k x] pre IH]; simpl; intros Hnotin.
  - by rewrite String.eqb_refl.
  - apply not_elem_of_cons in Hnotin as [Hne Hnotin].
    destruct (String.eqb_spec k key); [congruence|]. by rewrite IH.
Qed.

Lemma LRUCache_cleanup_fold (cfg : Config) (now : Z) (n : nat)
    (pre todo : list (string * MemoryCacheEntry)) :
  NoDup (Map_keys (pre ++ todo)) ->
  fold_left
    (fun (acc : nat * list (string * MemoryCacheEntry)) (e : string * MemoryCacheEntry) =>
       if now - createdAt (snd e) >? cacheTTL cfg * 1000
       then (S (fst acc), Map_delete (fst e) (snd acc))
       else acc)
    todo (n, pre ++ todo)
  = ((n + length (List.filter (expired cfg now) todo))%nat,
     pre ++ List.filter (fun e => negb (expired cfg now e)) todo).
Proof.
  revert n pre. induction todo as [|[k e] todo IH]; intros n pre Hnd; simpl.
  - by rewrite Nat.add_0_r.
  - assert (expired cfg now (k, e) = (now - createdAt e >? cacheTTL cfg * 1000))
      as -> by reflexivity.
    destruct (now - createdAt e >? cacheTTL cfg * 1000); simpl.
    + rewrite Map_delete_app_fresh.
      * rewrite IH; [by rewrite Nat.add_succ_r|].
        unfold Map_keys in *. rewrite map_app in *. simpl in Hnd.
        apply NoDup_app in Hnd as (H1 & H2 & H3). apply NoDup_cons in H3 as [_ H3].
        apply NoDup_app. split; [done|]. split; [|done].
        intros x Hx Hx'. apply (H2 x Hx). by right.
      * unfold Map_keys in *. rewrite map_app in Hnd. simpl in Hnd.
        apply NoDup_app in Hnd as (_ & H2 & _). intros Hin.
        apply (H2 k Hin). left.
    + replace (pre ++ (k, e) :: todo) with ((pre ++ [(k, e)]) ++ todo)
        by (by rewrite <- app_assoc).
      rewrite IH by (by rewrite <- app_assoc).
      by rewrite <- app_assoc.
Qed.

Lemma LRUCache_cleanup_filter (cfg : Config) (now : Z)
    (cache : list (string * MemoryCacheEntry)) :
  NoDup (Map_keys cache) ->
  LRUCache_cleanup cfg now cache
  = (length (List.filter (expired cfg now) cache),
     List.filter (fun e => negb (expired cfg now e)) cache).
Proof.
  intros Hnd. exact (LRUCache_cleanup_fold cfg now 0 [] cache Hnd).
Qed.

(** X4.  [cleanup] removes the expired entries and no other, leaves the
    rest in their order, and returns the number of entries removed; every
    entry that is left is one that [get] returns at that time. *)
Theorem LRUCache_cleanup_removes_expired (cfg : Config) (now : Z)
    (cache : list (string * MemoryCacheEntry)) :
  NoDup (Map_keys cache) ->
  LRUCache_cleanup cfg now cache
  = (length (List.filter (expired cfg now) cache),
     List.filter (fun e => negb (expired cfg now e)) cache) /\
  (fst (LRUCache_cleanup cfg now cache)
   + LRUCache_size (snd (LRUCache_cleanup cfg now cache)) = LRUCache_size cache)%nat /\
  (forall k e,
      Map_get k (snd (LRUCache_cleanup cfg now cache)) = Some e ->
      fst (LRUCache_get cfg k now (snd (LRUCache_cleanup cfg now cache)))
      = Some (data e)).
Proof.
  intros Hnd.
  assert (LRUCache_cleanup cfg now cache
          = (length (List.filter (expired cfg now) cache),
             List.filter (fun e => negb (expired cfg now e)) cache)) as Heq.
  { exact (LRUCache_cleanup_fold cfg now 0 [] cache Hnd). }
  split; [exact Heq|]. rewrite Heq. simpl. split.
  - unfold LRUCache_size. clear. induction cache as [|e cache IH]; simpl; [done|].
    destruct (expired cfg now e); simpl; lia.
  - intros k e Hk. unfold LRUCache_get. rewrite Hk.
    apply Map_get_Some, list_elem_of_In, filter_In in Hk as [_ Hfresh].
    unfold expired in Hfresh. simpl in Hfresh.
    apply negb_true_iff in Hfresh. by rewrite Hfresh.
Qed.

Lemma LRUCache_cleanup_removes_expired_witness :
  LRUCache_cleanup (memoryConfig 3) 86400001
    [("aa"%string, {| data := [Byte.x01]; createdAt := 0 |});
     ("bb"%string, {| data := [Byte.x02]; createdAt := 1 |});
     ("cc"%string, {| data := [Byte.x03]; createdAt := 0 |})]
  = (2%nat, [("bb"%string, {| data := [Byte.x02]; createdAt := 1 |})]).
Proof.
  apply (LRUCache_cleanup_removes_expired (memoryConfig 3) 86400001).
  apply (bool_decide_unpack _). vm_compute. exact I.
Defined.

(** X5.  A [set] of a key that is present in a full table, and is not the
    oldest, evicts the oldest entry all the same: the table is left with
    one entry less than the maximum. *)
Theorem LRUCache_set_present_key_evicts (cfg : Config) (key : string)
    (bytes : list Byte.byte) (now : Z) (cache : list (string * MemoryCacheEntry)) :
  (1 <= maxMemoryCacheItems cfg)%nat ->
  reachable cfg cache ->
  length cache = maxMemoryCacheItems cfg ->
  key ∈ Map_keys cache ->
  Map_first_key cache <> Some key ->
  S (LRUCache_size (LRUCache_set (maxMemoryCacheItems cfg) key bytes now cache))
  = maxMemoryCacheItems cfg /\
  (forall oldest, Map_first_key cache = Some oldest ->
     oldest ∉ Map_keys (LRUCache_set (maxMemoryCacheItems cfg) key bytes now cache)).
Proof.
  intros HN Hreach Hfull Hin Hnotfirst.
  destruct (reachable_ok cfg cache HN Hreach) as (Hnd & Hne & _).
  rewrite LRUCache_set_drop by done.
  replace (S (length cache) - maxMemoryCacheItems cfg)%nat with 1%nat by lia.
  destruct cache as [|[k0 e0] rest]; [by apply elem_of_nil in Hin|].
  change (drop 1 ((k0, e0) :: rest)) with rest.
  change (Map_keys ((k0, e0) :: rest)) with (k0 :: Map_keys rest) in Hin, Hnd.
  apply elem_of_cons in Hin as [->|Hin]; [done|].
  apply NoDup_cons in Hnd as [Hk0 Hnd].
  assert (Map_keys (Map_set key {| data := bytes; createdAt := now |} rest)
          = Map_keys rest) as Hkeys by (by apply Map_set_present_keys).
  split.
  - unfold LRUCache_size. rewrite <- Map_keys_length, Hkeys, Map_keys_length.
    simpl in Hfull. lia.
  - intros oldest [= <-]. by rewrite Hkeys.
Qed.

Lemma LRUCache_set_present_key_evicts_witness :
  S (LRUCache_size
       (LRUCache_set 2 "bb" [Byte.x03] 3
          (LRUCache_set 2 "bb" [Byte.x02] 2 (LRUCache_set 2 "aa" [Byte.x01] 1 []))))
  = 2%nat.
Proof.
  apply (LRUCache_set_present_key_evicts (memoryConfig 2) "bb" [Byte.x03] 3
           (LRUCache_set 2 "bb" [Byte.x02] 2 (LRUCache_set 2 "aa" [Byte.x01] 1 []))).
  - simpl. lia.
  - repeat (apply (reachable_set (memoryConfig 2)); [discriminate|]).
    apply reachable_new.
  - reflexivity.
  - apply (bool_decide_unpack _). vm_compute. exact I.
  - discriminate.
Defined.

(** X6.  An entry under the empty key at the head of the order is never
    evicted: the loop of [set] stops at it, and a new key makes the table
    grow beyond its maximum. *)
Theorem LRUCache_set_empty_head_key (maxItems : nat) (key : string)
    (bytes : list Byte.byte) (now : Z) (e : MemoryCacheEntry)
    (rest : list (string * MemoryCacheEntry)) :
  (maxItems <= S (length rest))%nat ->
  LRUCache_set maxItems key bytes now ((""%string, e) :: rest)
  = Map_set key {| data := bytes; createdAt := now |} ((""%string, e) :: rest) /\
  (key ∉ Map_keys ((""%string, e) :: rest) ->
   (maxItems < LRUCache_size
                 (LRUCache_set maxItems key bytes now ((""%string, e) :: rest)))%nat).
Proof.
  intros Hfull.
  assert (LRUCache_set maxItems key bytes now ((""%string, e) :: rest)
          = Map_set key {| data := bytes; createdAt := now |} ((""%string, e) :: rest))
    as Heq.
  { unfold LRUCache_set. f_equal. simpl length. simpl evict_oldest.
    destruct (Nat.leb_spec maxItems (S (length rest))); [done | lia]. }
  split; [exact Heq|]. intros Hfresh. rewrite Heq.
  rewrite Map_set_fresh by done. unfold LRUCache_size.
  rewrite length_app. simpl. lia.
Qed.

Lemma LRUCache_set_empty_head_key_witness :
  LRUCache_set 1 "aa" [Byte.x02] 2 [(""%string, {| data := [Byte.x01]; createdAt := 1 |})]
  = [(""%string, {| data := [Byte.x01]; createdAt := 1 |});
     ("aa"%string, {| data := [Byte.x02]; createdAt := 2 |})].
Proof.
  apply (LRUCache_set_empty_head_key 1 "aa" [Byte.x02] 2
           {| data := [Byte.x01]; createdAt := 1 |} []).
  simpl. lia.
Defined.


(** * Recency *)

Lemma Map_get_app_fresh (key : string) (entry : MemoryCacheEntry)
    (m : list (string * MemoryCacheEntry)) :
  key ∉ Map_keys m -> Map_get key (m ++ [(key, entry)]) = Some entry.
Proof.
  induction m as [|[k x] m IH]; simpl.
  - intros _. by rewrite String.eqb_refl.
  - rewrite not_elem_of_cons. intros [Hne Hnotin].
    destruct (String.eqb_spec k key); [congruence | by apply IH].
Qed.

(** X23.  A hit protects an entry from the next eviction: with room for
    at least two entries, an entry that [get] has just returned is still
    in the table after the next [set] of another key, also when the table
    is full and the entry was the oldest one. *)
Theorem LRUCache_hit_survives_next_set (cfg : Config) (key key' : string)
    (now t : Z) (bytes : list Byte.byte)
    (cache : list (string * MemoryCacheEntry)) (entry : MemoryCacheEntry) :
  (2 <= maxMemoryCacheItems cfg)%nat ->
  reachable cfg cache ->
  Map_get key cache = Some entry ->
  now - createdAt entry <= cacheTTL cfg * 1000 ->
  key' <> key ->
  Map_get key
    (LRUCache_set (maxMemoryCacheItems cfg) key' bytes t
       (snd (LRUCache_get cfg key now cache)))
  = Some entry.
Proof.
  intros HN Hreach Hget Hfresh Hne.
  destruct (reachable_ok cfg cache ltac:(lia) Hreach) as (Hnd & Hkeys & Hlen).
  pose proof (cache_ok_get cfg key now cache (conj Hnd (conj Hkeys Hlen)))
    as (_ & Hkeys1 & _).
  rewrite LRUCache_set_drop by (done || lia).
  rewrite Map_get_set_ne by done.
  rewrite (LRUCache_get_hit_moves_to_end cfg key now cache entry Hnd Hget Hfresh).
  pose proof (Map_delete_length key entry cache Hget) as Hdel.
  pose proof (Map_delete_gone key cache Hnd) as Hgone.
  assert (length (Map_delete key cache ++ [(key, entry)]) = length cache) as Hsame
    by (rewrite length_app; simpl; lia).
  rewrite Hsame.
  assert (S (length cache) - maxMemoryCacheItems cfg = 0
          \/ S (length cache) - maxMemoryCacheItems cfg = 1)%nat
    as [-> | Hone] by lia.
  - by apply Map_get_app_fresh.
  - rewrite Hone. destruct (Map_delete key cache) as [|[k0 e0] rest].
    + simpl in Hdel. lia.
    + change (Map_keys ((k0, e0) :: rest)) with (k0 :: Map_keys rest) in Hgone.
      apply not_elem_of_cons in Hgone as [_ Hgone].
      by apply (Map_get_app_fresh key entry rest).
Qed.

Lemma LRUCache_hit_survives_next_set_witness :
  Map_get "aa"
    (LRUCache_set 2 "cc" [Byte.x03] 4
       (snd (LRUCache_get (memoryConfig 2) "aa" 3
               (LRUCache_set 2 "bb" [Byte.x02] 2
                  (LRUCache_set 2 "aa" [Byte.x01] 1 [])))))
  = Some {| data := [Byte.x01]; createdAt := 1 |}.
Proof.
  apply (LRUCache_hit_survives_next_set (memoryConfig 2) "aa" "cc" 3 4 [Byte.x03]).
  - simpl. lia.
  - repeat (apply (reachable_set (memoryConfig 2)); [discriminate|]).
    apply reachable_new.
  - reflexivity.
  - simpl. lia.
  - discriminate.
Defined.


(** * Further properties of the disk backend *)

(** X7.  A [get] never creates or changes a file: a file that is on the
    disk afterwards was there before, the same; the only file that it can
    remove is the file of the key, and only when that file is stale and
    its removal succeeds; and the bytes that it returns are those of a
    file younger than the time to live. *)
Theorem getDiskCached_frame (cfg : Config) (host : Host) (key : string) (now : Z)
    (disk0 : gmap string File) :
  (forall path file,
      snd (getDiskCached cfg host key now disk0) !! path = Some file ->
      disk0 !! path = Some file) /\
  (forall path file,
      disk0 !! path = Some file ->
      snd (getDiskCached cfg host key now disk0) !! path = None ->
      path = getCachePath cfg key /\
      cacheTTL cfg * 1000 <= now - mtime file /\
      rm_succeeds host path = true) /\
  (forall bytes,
      fst (getDiskCached cfg host key now disk0) = Some bytes ->
      exists file,
        disk0 !! getCachePath cfg key = Some file /\
        contents file = bytes /\ now - mtime file < cacheTTL cfg * 1000).
Proof.
  unfold getDiskCached.
  destruct (disk0 !! getCachePath cfg key) as [f|] eqn:Hf; simpl.
  - destruct (Z.ltb_spec (now - mtime f) (cacheTTL cfg * 1000)) as [Hfresh|Hstale];
      simpl.
    + split; [done|]. split; [intros path file H1 H2; congruence|].
      intros bytes [= <-]. by exists f.
    + destruct (rm_succeeds host (getCachePath cfg key)) eqn:Hrm.
      * split; [|split; [|done]].
        -- intros path file H. apply lookup_delete_Some in H. tauto.
        -- intros path file H1 H2. apply lookup_delete_None in H2 as [<-|H2].
           ++ split; [done|]. split; [|done]. congruence.
           ++ congruence.
      * split; [done|]. split; [intros path file H1 H2; congruence | done].
  - split; [done|]. split; [intros path file H1 H2; congruence | done].
Qed.

Lemma Array_join_snoc (l : list string) (k : string) :
  l <> [] -> Array_join "/" (l ++ [k]) = Array_join "/" l +:+ String "/" k.
Proof.
  induction l as [|x l IH]; intros Hl; [done|].
  destruct l as [|y l]; [reflexivity|].
  change (Array_join "/" ((x :: y :: l) ++ [k]))
    with (x +:+ "/" +:+ Array_join "/" ((y :: l) ++ [k])).
  rewrite IH by done.
  change (Array_join "/" (x :: y :: l)) with (x +:+ "/" +:+ Array_join "/" (y :: l)).
  by rewrite !append_assoc.
Qed.

(** The last segment of the path of a cache key is the key. *)
Lemma getCachePath_last_segment (cfg : Config) (key : string) :
  cacheDir cfg <> ""%string -> isCacheKey key = true ->
  List.last (split_slash "" (getCachePath cfg key)) ""%string = key.
Proof.
  intros Hdir Hkey.
  destruct (isCacheKey_segments key Hkey) as (Hk & Hs & _).
  unfold getCachePath. rewrite path_join_plain by done.
  change [substring 0 2 key; key] with ([substring 0 2 key] ++ [key]).
  rewrite app_assoc, Array_join_snoc by (by destruct (root_segments (cacheDir cfg))).
  rewrite <- append_assoc, split_slash_app.
  destruct (plain_segment_spec key Hk) as (Hplain & _).
  rewrite (split_slash_plain "" key Hplain), append_nil_l.
  apply last_last.
Qed.

(** X8.  Two different cache keys have two different files, so that a
    [set] of one key never changes what a [get] of the other returns. *)
Theorem disk_keys_do_not_interfere (cfg : Config) (host : Host) (key1 key2 : string) :
  cacheDir cfg <> ""%string ->
  isCacheKey key1 = true -> isCacheKey key2 = true -> key1 <> key2 ->
  getCachePath cfg key1 <> getCachePath cfg key2 /\
  (forall bytes t now disk0,
      fst (getDiskCached cfg host key2 now (setDiskCache cfg host key1 bytes t disk0))
      = fst (getDiskCached cfg host key2 now disk0)).
Proof.
  intros Hdir H1 H2 Hne.
  assert (getCachePath cfg key1 <> getCachePath cfg key2) as Hpaths.
  { intros Heq. apply Hne.
    rewrite <- (getCachePath_last_segment cfg key1 Hdir H1).
    rewrite <- (getCachePath_last_segment cfg key2 Hdir H2).
    by rewrite Heq. }
  split; [exact Hpaths|].
  intros bytes t now disk0. unfold getDiskCached, setDiskCache.
  destruct (write_succeeds host (getCachePath cfg key1)); [|done].
  rewrite lookup_insert_ne by exact Hpaths.
  destruct (disk0 !! getCachePath cfg key2) as [file|]; [|done].
  by destruct (now - mtime file <? cacheTTL cfg * 1000).
Qed.

Lemma disk_keys_do_not_interfere_witness :
  getCachePath defaultConfig
    "32715181b1e87b3d852d54e58ee39d6beb9fc834c125b06a1db879b5bd1dd44c"
  <> getCachePath defaultConfig
    "e3b0c44298fc1c149afbf4c8996fb92427ae41e4649b934ca495991b7852b855".
Proof.
  apply (disk_keys_do_not_interfere defaultConfig (reliableHost GnuFind)).
  - discriminate.
  - reflexivity.
  - reflexivity.
  - discriminate.
Defined.

Lemma cleanupDisk_lookup (cfg : Config) (host : Host) (now : Z)
    (disk0 : gmap string File) (path : string) :
  snd (cleanupDisk cfg host now disk0) !! path
  = match disk0 !! path with
    | Some file =>
        if mmin_plus (find host) (cacheTTL cfg / 60) now file && rm_succeeds host path
        then None else Some file
    | None => None
    end.
Proof.
  unfold cleanupDisk.
  destruct (sweep_fold host (find_mmin host (cacheTTL cfg / 60) now disk0) 0 disk0)
    as [_ Hd].
  rewrite Hd. destruct (disk0 !! path) as [file|] eqn:Hfile.
  - destruct (mmin_plus (find host) (cacheTTL cfg / 60) now file) eqn:Hold.
    + rewrite bool_decide_eq_true_2; [done|].
      apply find_mmin_elem_of. by exists file.
    + rewrite bool_decide_eq_false_2; [done|].
      rewrite find_mmin_elem_of. intros (f & Hf & Hold'). congruence.
  - rewrite bool_decide_eq_false_2; [done|].
    rewrite find_mmin_elem_of. intros (f & Hf & _). congruence.
Qed.

Lemma mmin_plus_fresh (cfg : Config) (host : Host) (now : Z) (file : File) :
  find host = BusyBoxFind \/ cacheTTL cfg mod 60 = 0 ->
  now - mtime file < cacheTTL cfg * 1000 ->
  mmin_plus (find host) (cacheTTL cfg / 60) now file = false.
Proof.
  intros Hcase Hfresh.
  pose proof (Z.div_mod (cacheTTL cfg) 60 ltac:(lia)) as Httl.
  pose proof (Z.mod_pos_bound (cacheTTL cfg) 60 ltac:(lia)) as Hr.
  unfold mmin_plus. destruct (find host) eqn:Hfind.
  - destruct Hcase as [?|Hmod]; [congruence|]. apply Z.ltb_ge. lia.
  - apply Z.leb_gt.
    pose proof (Z.div_mod now 1000 ltac:(lia)).
    pose proof (Z.mod_pos_bound now 1000 ltac:(lia)).
    pose proof (Z.div_mod (mtime file) 1000 ltac:(lia)).
    pose proof (Z.mod_pos_bound (mtime file) 1000 ltac:(lia)).
    lia.
Qed.

(** X9.  With BusyBox find, and with GNU find when the time to live is a
    whole number of minutes, the sweep removes only files that [get] no
    longer serves: a file that is younger than the time to live stays. *)
Theorem cleanupDisk_keeps_fresh_files (cfg : Config) (host : Host) (now : Z)
    (disk0 : gmap string File) (path : string) (file : File) :
  find host = BusyBoxFind \/ cacheTTL cfg mod 60 = 0 ->
  disk0 !! path = Some file ->
  now - mtime file < cacheTTL cfg * 1000 ->
  snd (cleanupDisk cfg host now disk0) !! path = Some file.
Proof.
  intros Hcase Hfile Hfresh. rewrite cleanupDisk_lookup, Hfile.
  by rewrite (mmin_plus_fresh cfg host now file Hcase Hfresh).
Qed.

Lemma cleanupDisk_keeps_fresh_files_witness :
  snd (cleanupDisk (configWith ModeDisk 90) (reliableHost BusyBoxFind) 1000000
         {[ "cache/ab/ab12cd"%string := {| contents := [Byte.x89]; mtime := 911000 |} ]})
    !! "cache/ab/ab12cd"%string
  = Some {| contents := [Byte.x89]; mtime := 911000 |}.
Proof.
  apply cleanupDisk_keeps_fresh_files.
  - by left.
  - vm_compute. reflexivity.
  - simpl. lia.
Defined.

Lemma filter_none {A : Type} (f : A -> bool) (l : list A) :
  (forall x, x ∈ l -> f x = false) -> List.filter f l = [].
Proof.
  induction l as [|x l IH]; intros H; simpl; [done|].
  rewrite (H x) by left. apply IH. intros y Hy. apply H. by right.
Qed.

(** X10.  A second sweep at the same time removes nothing: what the first
    one left is either young or cannot be removed. *)
Theorem cleanupDisk_twice (cfg : Config) (host : Host) (now : Z)
    (disk0 : gmap string File) :
  cleanupDisk cfg host now (snd (cleanupDisk cfg host now disk0))
  = (0, snd (cleanupDisk cfg host now disk0)).
Proof.
  set (disk1 := snd (cleanupDisk cfg host now disk0)).
  assert (forall p, p ∈ find_mmin host (cacheTTL cfg / 60) now disk1 ->
                    rm_succeeds host p = false) as Hleft.
  { intros p Hp. apply find_mmin_elem_of in Hp as (f & Hf & Hold).
    unfold disk1 in Hf. rewrite cleanupDisk_lookup in Hf.
    destruct (disk0 !! p) as [f0|]; [|done].
    destruct (mmin_plus (find host) (cacheTTL cfg / 60) now f0) eqn:Hold0;
      destruct (rm_succeeds host p); simpl in Hf; congruence. }
  unfold cleanupDisk at 1.
  destruct (sweep_fold host (find_mmin host (cacheTTL cfg / 60) now disk1) 0 disk1)
    as [Hn Hd].
  apply injective_projections.
  - rewrite Hn, (filter_none _ _ Hleft). done.
  - simpl. apply map_eq. intros p. rewrite Hd.
    destruct (bool_decide (p ∈ find_mmin host (cacheTTL cfg / 60) now disk1)) eqn:Hp;
      [|done].
    apply bool_decide_eq_true in Hp. by rewrite (Hleft p Hp).
Qed.

(** * Further properties of the facade *)

(** X11.  Through the facade: in memory mode what [setCache] wrote is
    returned by [getCached] until it is older than the time to live, the
    time to live itself included; in disk mode, when the write succeeds,
    while it is younger than the time to live, the time to live itself
    excluded; and a write that fails leaves [getCached] with what it
    returned before. *)
Theorem facade_set_then_get (cfg : Config) (host : Host) (key : string)
    (bytes : list Byte.byte) (format : string) (t_set t_get : Z) (st : State) :
  (cacheMode cfg = ModeMemory ->
   fst (getCached cfg host key t_get (setCache cfg host key bytes format t_set st))
   = if t_get - t_set >? cacheTTL cfg * 1000 then None else Some bytes) /\
  (cacheMode cfg = ModeDisk ->
   write_succeeds host (getCachePath cfg key) = true ->
   fst (getCached cfg host key t_get (setCache cfg host key bytes format t_set st))
   = if t_get - t_set <? cacheTTL cfg * 1000 then Some bytes else None) /\
  (cacheMode cfg = ModeDisk ->
   write_succeeds host (getCachePath cfg key) = false ->
   fst (getCached cfg host key t_get (setCache cfg host key bytes format t_set st))
   = fst (getCached cfg host key t_get st)).
Proof.
  unfold getCached, setCache. repeat split; intros Hmode; rewrite Hmode; simpl.
  - apply LRUCache_set_then_get_fst.
  - intros Hw. unfold getDiskCached, setDiskCache. rewrite Hw, lookup_insert_eq. simpl.
    by destruct (t_get - t_set <? cacheTTL cfg * 1000).
  - intros Hw. unfold setDiskCache. by rewrite Hw.
Qed.


Lemma Map_get_filter_fresh (cfg : Config) (now : Z) (key : string)
    (m : list (string * MemoryCacheEntry)) :
  NoDup (Map_keys m) ->
  Map_get key (List.filter (fun e => negb (expired cfg now e)) m)
  = match Map_get key m with
    | Some e => if now - createdAt e >? cacheTTL cfg * 1000 then None else Some e
    | None => None
    end.
Proof.
  induction m as [|[k e] m IH]; intros Hnd; [done|].
  change (Map_keys ((k, e) :: m)) with (k :: Map_keys m) in Hnd.
  apply NoDup_cons in Hnd as [Hk Hnd]. simpl.
  assert (expired cfg now (k, e) = (now - createdAt e >? cacheTTL cfg * 1000))
    as -> by reflexivity.
  destruct (String.eqb_spec k key) as [->|Hne].
  - destruct (now - createdAt e >? cacheTTL cfg * 1000); simpl.
    + rewrite IH by done. by rewrite (proj2 (Map_get_None key m) Hk).
    + by rewrite String.eqb_refl.
  - destruct (now - createdAt e >? cacheTTL cfg * 1000); simpl.
    + by apply IH.
    + destruct (String.eqb_spec k key); [done|]. by apply IH.
Qed.

(** X12.  A sweep does not change what a reader gets: in memory mode, and
    in disk mode with BusyBox find or a time to live of whole minutes,
    [getCached] returns after [cleanupCache] what it would have returned
    without it. *)
Theorem cleanupCache_invisible_to_getCached (cfg : Config) (host : Host)
    (key : string) (now : Z) (st : State) :
  NoDup (Map_keys (memoryCache st)) ->
  (cacheMode cfg = ModeDisk ->
   find host = BusyBoxFind \/ cacheTTL cfg mod 60 = 0) ->
  fst (getCached cfg host key now (snd (cleanupCache cfg host now st)))
  = fst (getCached cfg host key now st).
Proof.
  intros Hnd Hcase. unfold getCached, cleanupCache.
  destruct (cacheMode cfg) eqn:Hmode; simpl; [| |done|done].
  - unfold getDiskCached. rewrite cleanupDisk_lookup.
    destruct (disk st !! getCachePath cfg key) as [file|]; [|done].
    destruct (Z.ltb_spec (now - mtime file) (cacheTTL cfg * 1000)) as [Hfresh|Hstale].
    + rewrite (mmin_plus_fresh cfg host now file (Hcase eq_refl) Hfresh). simpl.
      by rewrite (proj2 (Z.ltb_lt _ _) Hfresh).
    + destruct (mmin_plus (find host) (cacheTTL cfg / 60) now file
                && rm_succeeds host (getCachePath cfg key)); [done|].
      by rewrite (proj2 (Z.ltb_ge _ _) Hstale).
  - rewrite (LRUCache_cleanup_filter cfg now (memoryCache st) Hnd). simpl.
    unfold LRUCache_get. rewrite (Map_get_filter_fresh cfg now key _ Hnd).
    destruct (Map_get key (memoryCache st)) as [e|]; [|done].
    destruct (now - createdAt e >? cacheTTL cfg * 1000) eqn:He; [done|].
    by rewrite He.
Qed.

Lemma cleanupCache_invisible_to_getCached_witness :
  fst (getCached (configWith ModeMemory 60) (reliableHost GnuFind) "bb" 60001
         (snd (cleanupCache (configWith ModeMemory 60) (reliableHost GnuFind) 60001
                 {| memoryCache :=
                      [("aa"%string, {| data := [Byte.x01]; createdAt := 0 |});
                       ("bb"%string, {| data := [Byte.x02]; createdAt := 1 |})];
                    disk := ∅ |})))
  = fst (getCached (configWith ModeMemory 60) (reliableHost GnuFind) "bb" 60001
           {| memoryCache :=
                [("aa"%string, {| data := [Byte.x01]; createdAt := 0 |});
                 ("bb"%string, {| data := [Byte.x02]; createdAt := 1 |})];
              disk := ∅ |}).
Proof.
  apply cleanupCache_invisible_to_getCached.
  - apply (bool_decide_unpack _). vm_compute. exact I.
  - discriminate.
Defined.

(** X13.  The timer of the periodic sweep, over any sequence of starts and
    stops from the initial state: in mode none no timer is ever
    installed; a timer that is installed has been unref'd, so that it
    does not keep the process alive; a start while a timer is installed
    is ignored, also when it asks for another interval; and after a stop
    a start installs a timer with the interval it is given, in every mode
    but none, hybrid included. *)
Theorem cleanup_timer_calls (cfg : Config) (calls : list TimerCall) :
  (cacheMode cfg = ModeNone -> fold_left (timer_call cfg) calls None = None) /\
  (forall i, fold_left (timer_call cfg) calls None = Some i -> unrefed i = true) /\
  (forall i ms,
      fold_left (timer_call cfg) calls None = Some i ->
      fold_left (timer_call cfg) (calls ++ [CallStart ms]) None = Some i) /\
  (forall ms,
      cacheMode cfg <> ModeNone ->
      fold_left (timer_call cfg) (calls ++ [CallStop; CallStart ms]) None
      = Some {| intervalMs := ms; unrefed := true |}).
Proof.
  assert (forall t, (forall i, t = Some i -> unrefed i = true) ->
                    forall i, fold_left (timer_call cfg) calls t = Some i ->
                              unrefed i = true) as Hunref.
  { induction calls as [|c calls IH]; intros t Ht i; simpl; [by apply Ht|].
    apply IH. intros j. destruct c as [ms|]; simpl.
    - unfold startCacheCleanup. destruct t; [by apply Ht|].
      destruct (cacheMode cfg); intros [= <-]; done.
    - unfold stopCacheCleanup. by destruct t. }
  repeat split.
  - intros Hmode. clear Hunref. induction calls as [|c calls IH]; simpl; [done|].
    destruct c as [ms|]; simpl; [|exact IH].
    unfold startCacheCleanup. by rewrite Hmode.
  - apply Hunref. done.
  - intros i ms Hi. rewrite fold_left_app, Hi. reflexivity.
  - intros ms Hmode. rewrite fold_left_app. simpl.
    assert (stopCacheCleanup (fold_left (timer_call cfg) calls None) = None) as ->.
    { unfold stopCacheCleanup. by destruct (fold_left _ _ _). }
    unfold startCacheCleanup. by destruct (cacheMode cfg).
Qed.


(** * The cache keys of the routes *)

Lemma sort_insert_ext {A : Type} (cmp1 cmp2 : A -> A -> Z) (x : A) (l : list A) :
  (forall y, y ∈ l -> (cmp1 x y <=? 0) = (cmp2 x y <=? 0)) ->
  sort_insert cmp1 x l = sort_insert cmp2 x l.
Proof.
  induction l as [|y l IH]; intros H; simpl; [done|].
  rewrite <- (H y) by left.
  destruct (cmp1 x y <=? 0); [done|].
  f_equal. apply IH. intros z Hz. apply H. by right.
Qed.

Lemma Array_sort_ext {A : Type} (cmp1 cmp2 : A -> A -> Z) (l : list A) :
  (forall x y, x ∈ l -> y ∈ l -> (cmp1 x y <=? 0) = (cmp2 x y <=? 0)) ->
  Array_sort cmp1 l = Array_sort cmp2 l.
Proof.
  induction l as [|x l IH]; intros H; simpl; [done|].
  rewrite IH by (intros y z Hy Hz; apply H; by right).
  apply sort_insert_ext. intros y Hy. rewrite Array_sort_perm in Hy.
  apply H; [left | by right].
Qed.

Lemma agreeb_correct (cmp1 cmp2 : string -> string -> Z) (ks : list string) :
  agreeb cmp1 cmp2 ks = true ->
  forall a b, a ∈ ks -> b ∈ ks -> (cmp1 a b <=? 0) = (cmp2 a b <=? 0).
Proof.
  unfold agreeb. rewrite forallb_forall. intros H a b Ha Hb.
  apply list_elem_of_In in Ha, Hb.
  specialize (H a Ha). rewrite forallb_forall in H.
  by apply Bool.eqb_prop, H.
Qed.

Lemma defined_names_incl (p : list entry) (e : entry) :
  e ∈ List.filter is_defined p -> fst e ∈ names p.
Proof.
  intros He. apply names_elem_of. by apply defined_elem_of in He as [? _].
Qed.

Lemma cacheKeyInput_agree (cmp1 cmp2 : string -> string -> Z) (p : list entry) :
  agreeb cmp1 cmp2 (names p) = true ->
  cacheKeyInput cmp1 p = cacheKeyInput cmp2 p.
Proof.
  intros H. unfold cacheKeyInput. do 2 f_equal.
  apply Array_sort_ext. intros x y Hx Hy.
  apply (agreeb_correct _ _ _ H); by apply defined_names_incl.
Qed.

Lemma names_image_params (query : Query) :
  names (image_params query) = ImageParams_names.
Proof.
  reflexivity.
Qed.

Lemma names_og_cache_params (query : Query) :
  names (og_cache_params query) = "type"%string :: OGParams_names.
Proof.
  reflexivity.
Qed.

(** X14.  On the parameter names of the two routes the collation of the
    host and the order of the bytes agree: for every request the string
    that is hashed is the one with the names in byte order, for the image
    route and for the Open Graph route. *)
Theorem route_cache_keys_in_byte_order (query : Query) :
  cacheKeyInput localeCompare_root (image_params query)
  = cacheKeyInput_bytewise (image_params query) /\
  cacheKeyInput localeCompare_root (og_cache_params query)
  = cacheKeyInput_bytewise (og_cache_params query).
Proof.
  split; apply cacheKeyInput_agree.
  - rewrite names_image_params. vm_compute. reflexivity.
  - rewrite names_og_cache_params. vm_compute. reflexivity.
Qed.

Lemma filter_perm {A : Type} (P : A -> bool) (l k : list A) :
  l ≡ₚ k -> List.filter P l ≡ₚ List.filter P k.
Proof.
  induction 1 as [|x l k Hp IH|x y l|l k m H1 IH1 H2 IH2]; simpl.
  - done.
  - destruct (P x); [by constructor | done].
  - destruct (P x), (P y); try done. apply perm_swap.
  - by etrans.
Qed.

Section RouteKeys.
Variable cmp : string -> string -> Z.
Variable query : Query.

Let byName (a b : entry) : Z := cmp (fst a) (fst b).
Let with_value (name : string) : entry := (name, query name).

Lemma sorted_names_entries (s : list string) :
  StronglySorted (fun a b => cmp a b <= 0) s ->
  StronglySorted (fun a b => byName a b <= 0)
    (List.filter is_defined (List.map with_value s)).
Proof.
  induction 1 as [|a s Hs IH Hall]; simpl; [constructor|].
  destruct (is_defined (with_value a)); [|done].
  constructor; [done|].
  rewrite Forall_forall in Hall. rewrite Forall_forall. intros e He.
  apply list_elem_of_In, filter_In in He as [He _].
  apply in_map_iff in He as (b & <- & Hb).
  apply Hall. by apply list_elem_of_In.
Qed.

(** The sorted entries of a route: the defined ones, by sorted name. *)
Lemma Array_sort_by_names (ks : list string) :
  orders cmp ks -> separates cmp ks ->
  Array_sort byName (List.filter is_defined (List.map with_value ks))
  = List.filter is_defined (List.map with_value (Array_sort cmp ks)).
Proof.
  intros [Htot Htr] Hsep.
  assert (forall e, e ∈ List.filter is_defined (List.map with_value ks) ->
                    fst e ∈ ks /\ e = with_value (fst e)) as Hin.
  { intros e He. apply list_elem_of_In, filter_In in He as [He _].
    apply in_map_iff in He as (b & <- & Hb). split; [|done].
    by apply list_elem_of_In. }
  apply (sorted_perm_unique byName).
  - apply Array_sort_sorted.
    + intros x y Hx Hy. apply Htot; by apply Hin.
    + intros x y z Hx Hy Hz. apply Htr; by apply Hin.
  - apply sorted_names_entries. by apply Array_sort_sorted.
  - rewrite Array_sort_perm. apply filter_perm, Permutation_map.
    symmetry. apply Array_sort_perm.
  - intros x y Hx Hy Hxy Hyx. rewrite Array_sort_perm in Hx, Hy.
    destruct (Hin x Hx) as [Hx1 Hx2], (Hin y Hy) as [Hy1 Hy2].
    rewrite Hx2, Hy2. f_equal. by apply Hsep.
Qed.

End RouteKeys.

Lemma Array_join_split (sep x y z : string) (pre post : list string) :
  x = y +:+ sep +:+ z ->
  Array_join sep (pre ++ x :: post) = Array_join sep (pre ++ y :: z :: post).
Proof.
  intros ->. induction pre as [|a pre IH].
  - simpl. destruct post as [|b post]; [done|]. by rewrite !append_assoc.
  - change (Array_join sep ((a :: pre) ++ (y +:+ sep +:+ z) :: post))
      with (match pre ++ (y +:+ sep +:+ z) :: post with
            | [] => a
            | _ => a +:+ sep +:+ Array_join sep (pre ++ (y +:+ sep +:+ z) :: post)
            end).
    change (Array_join sep ((a :: pre) ++ y :: z :: post))
      with (match pre ++ y :: z :: post with
            | [] => a
            | _ => a +:+ sep +:+ Array_join sep (pre ++ y :: z :: post)
            end).
    rewrite IH. by destruct pre.
Qed.

Lemma sorted_names_collision (q1 q2 : Query) (u : string) (n : Z)
    (pre post : list string) :
  q1 "url"%string = VString (u +:+ "&w=" +:+ Number_toString n) ->
  q1 "w"%string = VUndefined ->
  q2 "url"%string = VString u ->
  q2 "w"%string = VNumber n ->
  (forall name, name <> "url"%string -> name <> "w"%string -> q1 name = q2 name) ->
  Forall (fun name => name <> "url"%string /\ name <> "w"%string) pre ->
  Forall (fun name => name <> "url"%string /\ name <> "w"%string) post ->
  Array_join "&"
    (List.map pair_text
       (List.filter is_defined
          (List.map (fun name => (name, q1 name))
             (pre ++ "url"%string :: "w"%string :: post))))
  = Array_join "&"
      (List.map pair_text
         (List.filter is_defined
            (List.map (fun name => (name, q2 name))
               (pre ++ "url"%string :: "w"%string :: post)))).
Proof.
  intros Hu1 Hw1 Hu2 Hw2 Hsame Hpre Hpost.
  assert (forall l : list string,
             Forall (fun name => name <> "url"%string /\ name <> "w"%string) l ->
             List.map (fun name => (name, q1 name)) l
             = List.map (fun name => (name, q2 name)) l) as Hmap.
  { induction 1 as [|a l [Ha1 Ha2] _ IH]; simpl; [done|].
    by rewrite IH, (Hsame a Ha1 Ha2). }
  rewrite !List.map_app, !List.filter_app, !List.map_app. simpl.
  rewrite Hu1, Hw1, Hu2, Hw2. simpl.
  rewrite (Hmap pre Hpre), (Hmap post Hpost).
  apply Array_join_split. unfold pair_text. simpl.
  rewrite !append_assoc. reflexivity.
Qed.

(** X15.  The key does not tell the requests apart: a request for the
    source [u&w=n] without a width and a request for the source [u] with
    the width [n] have the same cache key, whatever their other
    parameters, the same in both. *)
Theorem image_route_key_collision (q1 q2 : Query) (u : string) (n : Z) :
  q1 "url"%string = VString (u +:+ "&w=" +:+ Number_toString n) ->
  q1 "w"%string = VUndefined ->
  q2 "url"%string = VString u ->
  q2 "w"%string = VNumber n ->
  (forall name, name <> "url"%string -> name <> "w"%string -> q1 name = q2 name) ->
  generateCacheKey localeCompare_root (image_params q1)
  = generateCacheKey localeCompare_root (image_params q2).
Proof.
  intros Hu1 Hw1 Hu2 Hw2 Hsame.
  unfold generateCacheKey, cacheKeyInput, image_params. f_equal.
  assert (orders localeCompare_root ImageParams_names) as Hord
    by (apply ordersb_correct; vm_compute; reflexivity).
  assert (separates localeCompare_root ImageParams_names) as Hsep
    by (apply separatesb_correct; vm_compute; reflexivity).
  rewrite !(Array_sort_by_names localeCompare_root _ ImageParams_names Hord Hsep).
  assert (Array_sort localeCompare_root ImageParams_names
          = ["blur"; "brightness"; "crop"; "fit"; "flip"; "flop"; "format";
             "grayscale"; "h"; "position"; "q"; "rotate"; "saturation";
             "sharpen"; "size"; "tint"; "trim"]%string
            ++ "url"%string :: "w"%string
            :: ["wm_color"; "wm_font"; "wm_fontsize"; "wm_image"; "wm_opacity";
                "wm_padding"; "wm_position"; "wm_scale"; "wm_text"]%string) as ->
    by (vm_compute; reflexivity).
  apply (sorted_names_collision q1 q2 u n); try done.
  - repeat constructor; discriminate.
  - repeat constructor; discriminate.
Qed.

Lemma image_route_key_collision_witness :
  generateCacheKey localeCompare_root
    (image_params (fun name =>
       if String.eqb name "url" then VString "http://a.example/i.png&w=100"
       else VUndefined))
  = generateCacheKey localeCompare_root
      (image_params (fun name =>
         if String.eqb name "url" then VString "http://a.example/i.png"
         else if String.eqb name "w" then VNumber 100 else VUndefined)).
Proof.
  apply (image_route_key_collision _ _ "http://a.example/i.png" 100).
  - reflexivity.
  - reflexivity.
  - reflexivity.
  - reflexivity.
  - intros name H1 H2.
    destruct (String.eqb_spec name "url"); [done|].
    by destruct (String.eqb_spec name "w").
Defined.


(** * The image route *)

Lemma getCached_after_setCache (cfg : Config) (host : Host) (key : string)
    (bytes : list Byte.byte) (format : string) (t_set t_get : Z) (st : State) :
  cacheMode cfg = ModeMemory /\ t_get - t_set <= cacheTTL cfg * 1000 \/
  cacheMode cfg = ModeDisk /\ write_succeeds host (getCachePath cfg key) = true /\
  t_get - t_set < cacheTTL cfg * 1000 ->
  fst (getCached cfg host key t_get (setCache cfg host key bytes format t_set st))
  = Some bytes.
Proof.
  unfold getCached, setCache. intros [[Hmode Hage]|(Hmode & Hw & Hage)]; rewrite Hmode; simpl.
  - rewrite LRUCache_set_then_get_fst.
    destruct (Z.gtb_spec (t_get - t_set) (cacheTTL cfg * 1000)); [lia | done].
  - unfold getDiskCached, setDiskCache. rewrite Hw, lookup_insert_eq. simpl.
    by rewrite (proj2 (Z.ltb_lt _ _) Hage).
Qed.

Lemma image_params_format (query : Query) :
  property (image_params query) "format" = query "format"%string.
Proof. reflexivity. Qed.

(** X16.  A request that is repeated while the entry lives is answered
    from the cache: with the bytes and the headers of the first answer,
    whatever the pipeline would produce now.  In memory mode the entry
    lives up to the time to live; in disk mode, once the write of the
    first request is done, while it is younger than the time to live. *)
Theorem image_handler_repeated_request (cfg : Config) (host : Host)
    (localeCompare : string -> string -> Z)
    (pipeline pipeline' : list entry -> Thrown + list Byte.byte)
    (query : Query) (t_get t_set t_get' t_set' : Z) (st : State)
    (buffer : list Byte.byte) :
  let cacheKey := generateCacheKey localeCompare (image_params query) in
  fst (getCached cfg host cacheKey t_get st) = None ->
  pipeline (image_params query) = inr buffer ->
  cacheMode cfg = ModeMemory /\ t_get' - t_set <= cacheTTL cfg * 1000 \/
  cacheMode cfg = ModeDisk /\
  write_succeeds host (getCachePath cfg cacheKey) = true /\
  t_get' - t_set < cacheTTL cfg * 1000 ->
  let first := image_handler cfg host localeCompare pipeline query t_get t_set st in
  fst first
  = inr {| body := buffer;
           headers := getCacheHeaders cfg (value_or (query "format"%string) "webp") |} /\
  fst (image_handler cfg host localeCompare pipeline' query t_get' t_set' (snd first))
  = fst first.
Proof.
  intros cacheKey Hmiss Hok Hlive first.
  assert (first
          = (inr {| body := buffer;
                    headers := getCacheHeaders cfg
                                 (value_or (query "format"%string) "webp") |},
             setCache cfg host cacheKey buffer
               (value_or (query "format"%string) "webp") t_set
               (snd (getCached cfg host cacheKey t_get st)))) as ->.
  { unfold first, image_handler. fold cacheKey. rewrite Hmiss.
    unfold processImage. rewrite Hok, image_params_format. reflexivity. }
  split; [done|]. simpl.
  unfold image_handler. fold cacheKey.
  rewrite (getCached_after_setCache cfg host cacheKey buffer _ t_set t_get' _ Hlive).
  by rewrite image_params_format.
Qed.

Lemma image_handler_repeated_request_witness :
  fst (image_handler (memoryConfig 2) (reliableHost GnuFind) localeCompare_root
         (fun _ => inl ThrownValue)
         (fun name => if String.eqb name "url" then VString "http://a.example/i.png"
                      else VUndefined)
         2000 2001
         (snd (image_handler (memoryConfig 2) (reliableHost GnuFind) localeCompare_root
                 (fun _ => inr [Byte.x89; Byte.x50])
                 (fun name => if String.eqb name "url"
                              then VString "http://a.example/i.png"
                              else VUndefined)
                 1000 1001 {| memoryCache := []; disk := ∅ |})))
  = inr {| body := [Byte.x89; Byte.x50];
           headers := getCacheHeaders (memoryConfig 2) "webp" |}.
Proof.
  pose proof (image_handler_repeated_request (memoryConfig 2) (reliableHost GnuFind)
                localeCompare_root (fun _ => inr [Byte.x89; Byte.x50])
                (fun _ => inl ThrownValue)
                (fun name => if String.eqb name "url"
                             then VString "http://a.example/i.png"
                             else VUndefined)
                1000 1001 2000 2001 {| memoryCache := []; disk := ∅ |}
                [Byte.x89; Byte.x50]) as H.
  destruct H as [H1 H2].
  - reflexivity.
  - reflexivity.
  - left. split; [reflexivity | simpl; lia].
  - exact (eq_trans H2 H1).
Defined.

(** X17.  A failure of the pipeline is answered with status 400 or 422
    and nothing else: the [catch] of [processImage] lets a validation
    error and a processing error through and turns every other error into
    a processing error, so that a blocked address (403), an upstream
    failure (502) and a timeout (504) all reach the client as 422, with
    the message of the error after [Image processing failed: ]; and a
    request that fails writes nothing to the cache. *)
Theorem image_handler_failure (cfg : Config) (host : Host)
    (localeCompare : string -> string -> Z)
    (pipeline : list entry -> Thrown + list Byte.byte)
    (query : Query) (t_get t_set : Z) (st : State) (thrown : Thrown) :
  let cacheKey := generateCacheKey localeCompare (image_params query) in
  fst (getCached cfg host cacheKey t_get st) = None ->
  pipeline (image_params query) = inl thrown ->
  exists error,
    image_handler cfg host localeCompare pipeline query t_get t_set st
    = (inl error, snd (getCached cfg host cacheKey t_get st)) /\
    (fst (onError error) = 400 \/ fst (onError error) = 422) /\
    (forall c message,
        thrown = ThrownPixelServe c message ->
        c <> ValidationError -> c <> ImageProcessingError ->
        onError error
        = (422, {| error_code := "IMAGE_PROCESSING_ERROR";
                   error_message := "Image processing failed: " +:+ message |})).
Proof.
  intros cacheKey Hmiss Hthrown. exists (processImage_catch thrown).
  split; [|split].
  - unfold image_handler. fold cacheKey. rewrite Hmiss.
    unfold processImage. by rewrite Hthrown.
  - destruct thrown as [[]| |]; simpl; auto.
  - intros c message -> H1 H2. by destruct c.
Qed.

Lemma image_handler_failure_witness :
  exists error,
    image_handler (memoryConfig 2) (reliableHost GnuFind) localeCompare_root
      (fun _ => inl (ThrownPixelServe ForbiddenError "Blocked domain"))
      (fun name => if String.eqb name "url" then VString "http://localhost/i.png"
                   else VUndefined)
      1000 1001 {| memoryCache := []; disk := ∅ |}
    = (inl error, {| memoryCache := []; disk := ∅ |}) /\
    onError error
    = (422, {| error_code := "IMAGE_PROCESSING_ERROR";
               error_message := "Image processing failed: Blocked domain" |}).
Proof.
  destruct (image_handler_failure (memoryConfig 2) (reliableHost GnuFind)
              localeCompare_root
              (fun _ => inl (ThrownPixelServe ForbiddenError "Blocked domain"))
              (fun name => if String.eqb name "url"
                           then VString "http://localhost/i.png"
                           else VUndefined)
              1000 1001 {| memoryCache := []; disk := ∅ |}
              (ThrownPixelServe ForbiddenError "Blocked domain"))
    as (error & H1 & _ & H3).
  - reflexivity.
  - reflexivity.
  - exists error. split; [exact H1|].
    by apply (H3 ForbiddenError "Blocked domain"%string).
Defined.


(** * The checks of [src/utils/url-validator.ts] *)

Lemma accept_anchored (r : regex) :
  anchored r = true -> forall s k, accept r s false k = false.
Proof.
  induction r as [| | | |r1 IH1 r2 IH2|r1 IH1 r2 IH2|]; simpl; try discriminate.
  - done.
  - intros H s k. by apply IH1.
  - intros [H1 H2]%andb_true_iff s k. by rewrite IH1, IH2.
Qed.

Lemma search_anchored (r : regex) (s : string) :
  anchored r = true -> search r s false = false.
Proof.
  intros H. induction s as [|c s IH]; simpl.
  - by rewrite accept_anchored.
  - by rewrite accept_anchored, IH.
Qed.

(** A pattern that is anchored matches at the start or not at all. *)
Lemma RegExp_test_anchored (r : regex) (s : string) :
  anchored r = true -> RegExp_test r s = accept r s true (fun _ _ => true).
Proof.
  intros H. unfold RegExp_test. destruct s as [|c s]; simpl.
  - apply orb_false_r.
  - by rewrite search_anchored, orb_false_r.
Qed.

Lemma existsb_test_anchored (l : list regex) (s : string) :
  forallb anchored l = true ->
  existsb (fun r => RegExp_test r s) l
  = existsb (fun r => accept r s true (fun _ _ => true)) l.
Proof.
  induction l as [|r l IH]; simpl; [done|].
  intros [H1 H2]%andb_true_iff. by rewrite RegExp_test_anchored, IH.
Qed.

Lemma private_ranges_checked (rest : string) :
  forallb (fun a =>
    forallb (fun b =>
      Bool.eqb
        (existsb
           (fun r =>
              accept r
                (decimal (Z.of_nat a) +:+ "." +:+
                 decimal (Z.of_nat b) +:+ "." +:+ rest)
                true (fun _ _ => true))
           PRIVATE_IP_RANGES)
        (private_range a b))
      (seq 0 256))
    (seq 0 256)
  = true.
Proof. vm_compute. reflexivity. Qed.

(** X18.  On an IPv4 address [a.b.c.d] the patterns of [isPrivateIP]
    decide by the first two numbers: 127, 10 and 0 with any second number,
    172.16 to 172.31, 192.168, 169.254, and 100.64 to 100.129, which is
    more than the shared address space 100.64 to 100.127. *)
Theorem isPrivateIP_dotted_quad (a b c d : nat) :
  (a < 256)%nat -> (b < 256)%nat ->
  isPrivateIP (dotted_quad a b c d) = private_range a b.
Proof.
  intros Ha Hb. unfold isPrivateIP.
  rewrite existsb_test_anchored by reflexivity.
  pose proof (private_ranges_checked
                (decimal (Z.of_nat c) +:+ "." +:+ decimal (Z.of_nat d)))
    as H.
  rewrite forallb_forall in H.
  specialize (H a (proj2 (in_seq 256 0 a) ltac:(lia))).
  rewrite forallb_forall in H.
  specialize (H b (proj2 (in_seq 256 0 b) ltac:(lia))).
  apply Bool.eqb_prop in H. exact H.
Qed.

Lemma isPrivateIP_dotted_quad_witness :
  isPrivateIP "100.128.0.1" = true /\ isPrivateIP "100.63.255.255" = false.
Proof.
  split.
  - apply (isPrivateIP_dotted_quad 100 128 0 1); lia.
  - apply (isPrivateIP_dotted_quad 100 63 255 255); lia.
Defined.

Lemma isValidHexColor_length_and_digits (color : string) :
  isValidHexColor color
  = ((String.length color =? 3)%nat || (String.length color =? 6)%nat)
    && forallb (fun c => in_ranges c hex_class) (list_ascii_of_string color).
Proof.
  unfold isValidHexColor. rewrite RegExp_test_anchored by reflexivity.
  destruct color as [|c1 [|c2 [|c3 [|c4 [|c5 [|c6 [|c7 color]]]]]]];
    cbn -[in_ranges hex_class];
    repeat match goal with
           | |- context [in_ranges ?c hex_class] =>
               destruct (in_ranges c hex_class); cbn -[in_ranges hex_class]
           end;
    reflexivity.
Qed.

(** X19.  [sanitizeHexColor] returns [cleaned] exactly when the colour is
    [cleaned] or [cleaned] after one [#], and [cleaned] is three or six
    hexadecimal digits; every other colour, a second [#] or four digits
    for instance, is refused. *)
Theorem sanitizeHexColor_accepts (color cleaned : string) :
  sanitizeHexColor color = inr cleaned <->
  (color = cleaned \/ color = String "#" cleaned) /\
  (String.length cleaned = 3 \/ String.length cleaned = 6)%nat /\
  forallb (fun c => in_ranges c hex_class) (list_ascii_of_string cleaned) = true.
Proof.
  unfold sanitizeHexColor. rewrite isValidHexColor_length_and_digits. split.
  - destruct (_ && _) eqn:Hvalid; simpl; [|discriminate].
    intros [= <-]. apply andb_true_iff in Hvalid as [Hlen Hhex].
    split; [|split; [|exact Hhex]].
    + unfold strip_hash. destruct color as [|c rest]; [by left|].
      destruct (Ascii.eqb_spec c "#") as [->|]; [by right | by left].
    + apply orb_true_iff in Hlen as [H|H]; apply Nat.eqb_eq in H; tauto.
  - intros (Hcolor & Hlen & Hhex).
    assert (strip_hash color = cleaned) as ->.
    { destruct Hcolor as [->| ->]; [|reflexivity].
      destruct cleaned as [|c rest]; [done|]. simpl in Hhex.
      apply andb_true_iff in Hhex as [Hc _]. unfold strip_hash.
      destruct (Ascii.eqb_spec c "#") as [->|]; [discriminate | done]. }
    rewrite Hhex, andb_true_r.
    destruct Hlen as [-> | ->]; reflexivity.
Qed.

Lemma existsb_false {A : Type} (f : A -> bool) (l : list A) :
  existsb f l = false <-> forall x, x ∈ l -> f x = false.
Proof.
  induction l as [|a l IH]; simpl.
  - split; [intros _ x Hx; by apply elem_of_nil in Hx | done].
  - rewrite orb_false_iff, IH. split.
    + intros [Ha Hl] x [->|Hx]%elem_of_cons; auto.
    + intros H. split; [apply H; left | intros x Hx; apply H; by right].
Qed.

Lemma existsb_true {A : Type} (f : A -> bool) (l : list A) :
  existsb f l = true <-> exists x, x ∈ l /\ f x = true.
Proof.
  rewrite existsb_exists. split; intros (x & Hx & Hf); exists x;
    (split; [by apply list_elem_of_In | done]).
Qed.

(** X20.  [validateUrl] returns the address exactly when it parses, its
    protocol is [http:] or [https:], its host name in lower case is no
    blocked domain and no name below one, it is an allowed domain or a
    name below one when the allow list is not empty, and none of the
    addresses that the two lookups give is private; a lookup that fails
    or gives nothing blocks nothing.  What it throws is a validation
    error for an address that does not parse, and a forbidden error in
    every other case. *)
Theorem validateUrl_accepts (allowedDomains : list string) (parsed : option URL)
    (resolve4 resolve6 : string -> option (list string)) :
  (forall url,
      validateUrl allowedDomains parsed resolve4 resolve6 = inr url <->
      parsed = Some url /\
      (protocol url = "http:"%string \/ protocol url = "https:"%string) /\
      (forall d, d ∈ blockedDomains ->
                 domain_matches (toLowerCase (hostname url)) d = false) /\
      (allowedDomains = [] \/
       exists d, d ∈ allowedDomains /\
                 domain_matches (toLowerCase (hostname url)) d = true) /\
      (forall ip,
          ip ∈ or_empty (resolve4 (toLowerCase (hostname url)))
               ++ or_empty (resolve6 (toLowerCase (hostname url))) ->
          isPrivateIP ip = false)) /\
  (forall error,
      validateUrl allowedDomains parsed resolve4 resolve6 = inl error ->
      (parsed = None /\ error = ThrownPixelServe ValidationError "Invalid URL format") \/
      (parsed <> None /\ exists message, error = ThrownPixelServe ForbiddenError message)).
Proof.
  unfold validateUrl. destruct parsed as [u|]; [|split].
  2: { intros url. split; [discriminate | by intros [? _]]. }
  2: { intros error [= <-]. by left. }
  set (host := toLowerCase (hostname u)).
  assert (bool_decide (protocol u ∈ ["http:"; "https:"]%string) = true
          <-> protocol u = "http:"%string \/ protocol u = "https:"%string) as Hproto.
  { rewrite bool_decide_eq_true, !elem_of_cons, elem_of_nil. tauto. }
  assert ((0 <? length allowedDomains)%nat
          && negb (existsb (domain_matches host) allowedDomains) = false
          <-> allowedDomains = [] \/
              exists d, d ∈ allowedDomains /\ domain_matches host d = true) as Hallow.
  { rewrite <- existsb_true. destruct allowedDomains as [|d l]; [simpl; tauto|].
    change (0 <? length (d :: l))%nat with true. rewrite andb_true_l, negb_false_iff.
    split; [by right | by intros [?|?]]. }
  split.
  - intros url.
    destruct (bool_decide (protocol u ∈ ["http:"; "https:"]%string)) eqn:Hp;
      cbv beta iota zeta.
    2: { split; [intros [=]|]. intros ([= ->] & Hpr & _).
         apply Hproto in Hpr. congruence. }
    destruct (existsb (domain_matches host) blockedDomains) eqn:Hb; cbv beta iota zeta.
    { split; [intros [=]|]. intros ([= <-] & _ & Hbl & _).
      apply existsb_false in Hbl. fold host in Hbl. congruence. }
    destruct ((0 <? length allowedDomains)%nat
              && negb (existsb (domain_matches host) allowedDomains)) eqn:Ha;
      cbv beta iota zeta.
    { split; [intros [=]|]. intros ([= <-] & _ & _ & Hal & _).
      apply Hallow in Hal. congruence. }
    destruct (existsb isPrivateIP (or_empty (resolve4 host))) eqn:H4; cbv beta iota zeta.
    { split; [intros [=]|]. intros ([= <-] & _ & _ & _ & Hip).
      apply existsb_true in H4 as (ip & Hin & Hpriv).
      rewrite (Hip ip) in Hpriv; [discriminate|]. apply elem_of_app. by left. }
    destruct (existsb isPrivateIP (or_empty (resolve6 host))) eqn:H6; cbv beta iota zeta.
    { split; [intros [=]|]. intros ([= <-] & _ & _ & _ & Hip).
      apply existsb_true in H6 as (ip & Hin & Hpriv).
      rewrite (Hip ip) in Hpriv; [discriminate|]. apply elem_of_app. by right. }
    split.
    + intros [= <-]. split; [done|]. split; [by apply Hproto|].
      split; [by apply existsb_false|]. split; [by apply Hallow|].
      intros ip [Hin|Hin]%elem_of_app.
      * by apply (proj1 (existsb_false _ _) H4).
      * by apply (proj1 (existsb_false _ _) H6).
    + by intros ([= ->] & _).
  - intros error H. right. split; [done|].
    repeat match type of H with
           | (if ?b then _ else _) = _ => destruct b
           end;
      try discriminate; injection H as <-; eauto.
Qed.


(** * The fetch of the source: [src/services/image-fetcher.ts] *)

(** X21.  What [fetchImage] returns is the body of a response to the
    validated address, with an [ok] status and a content type that starts
    with [image/], and never more than [maxImageSize] bytes, whatever the
    content length that the response announces; a response that announces
    more than the limit is refused without its body being read; a fetch
    that the timer aborts is reported as a timeout; and an error of the
    validation is passed on as it is. *)
Theorem fetchImage_returns (maxImageSize : Z) (validated : Thrown + URL)
    (fetch : string -> Thrown + HttpResponse) :
  (forall bytes,
      fetchImage maxImageSize validated fetch = inr bytes ->
      Z.of_nat (length bytes) <= maxImageSize /\
      exists url response contentType,
        validated = inr url /\ fetch (href url) = inr response /\
        ok response = true /\
        content_type response = Some contentType /\
        String.prefix "image/" contentType = true /\
        arrayBuffer response = inr bytes) /\
  (forall url response contentType n,
      validated = inr url -> fetch (href url) = inr response ->
      ok response = true ->
      content_type response = Some contentType ->
      String.prefix "image/" contentType = true ->
      parseInt (header_or (content_length response) "0") = Some n ->
      0 < n -> maxImageSize < n ->
      fetchImage maxImageSize validated fetch
      = inl (ThrownPixelServe ValidationError (size_limit_message maxImageSize))) /\
  (forall url message,
      validated = inr url ->
      fetch (href url) = inl (ThrownError "AbortError" message) ->
      fetchImage maxImageSize validated fetch
      = inl (ThrownPixelServe TimeoutError "Image fetch timed out")) /\
  (forall error,
      validated = inl error ->
      fetchImage maxImageSize validated fetch = inl error).
Proof.
  split; [|split; [|split]].
  - intros bytes. unfold fetchImage.
    destruct validated as [e|url]; [discriminate|].
    destruct (fetch (href url)) as [e|response] eqn:Hfetch; [discriminate|].
    destruct (fetchImage_try maxImageSize response) as [e|b] eqn:Htry; [discriminate|].
    intros [= ->]. unfold fetchImage_try in Htry.
    destruct (ok response) eqn:Hok; [|discriminate]. simpl in Htry.
    destruct (String.prefix "image/" (header_or (content_type response) ""))
      eqn:Hct; [|discriminate]. simpl in Htry.
    destruct (match parseInt (header_or (content_length response) "0") with
              | Some n => (n >? 0) && (n >? maxImageSize)
              | None => false
              end); [discriminate|].
    destruct (arrayBuffer response) as [e|b] eqn:Hbody; [discriminate|].
    destruct (Z.gtb_spec (Z.of_nat (length b)) maxImageSize) as [|Hsize];
      [discriminate|].
    injection Htry as ->. split; [exact Hsize|].
    unfold header_or in Hct.
    destruct (content_type response) as [ct|] eqn:Hheader; [|discriminate].
    destruct (truthy ct); [|discriminate].
    by exists url, response, ct.
  - intros url response ct n -> Hfetch Hok Hct Hprefix Hlen Hpos Hbig.
    unfold fetchImage. rewrite Hfetch. unfold fetchImage_try.
    rewrite Hok, Hct.
    assert (header_or (Some ct) "" = ct) as ->.
    { unfold header_or. destruct ct; [discriminate | reflexivity]. }
    rewrite Hprefix, Hlen.
    rewrite (proj2 (Z.gtb_gt n 0)), (proj2 (Z.gtb_gt n maxImageSize)) by lia.
    reflexivity.
  - intros url message -> Hfetch. unfold fetchImage. by rewrite Hfetch.
  - by intros error ->.
Qed.


(** * The form of the keys *)

Lemma hex_digit_is_hex (d : Z) :
  0 <= d < 16 -> is_hex_digit (SHA256.hex_digit d) = true.
Proof.
  intros Hd.
  assert (forallb (fun n => is_hex_digit (SHA256.hex_digit (Z.of_nat n))) (seq 0 16)
          = true) as H by (vm_compute; reflexivity).
  rewrite forallb_forall in H.
  rewrite <- (Z2Nat.id d) by lia. apply H, in_seq. lia.
Qed.

Lemma hex_of_bytes (bs : list Z) :
  Forall (fun b => 0 <= b < 256) bs ->
  String.length (SHA256.hex bs) = (2 * length bs)%nat /\
  forallb is_hex_digit (list_ascii_of_string (SHA256.hex bs)) = true.
Proof.
  induction 1 as [|b bs Hb _ [IH1 IH2]]; simpl; [done|].
  split; [rewrite IH1; lia|].
  rewrite !hex_digit_is_hex, IH2; [done | |].
  - apply Z.mod_pos_bound. lia.
  - split; [apply Z.div_pos; lia | apply Z.div_lt_upper_bound; lia].
Qed.

Lemma be_bytes_range (n : nat) (x : Z) :
  Forall (fun b => 0 <= b < 256) (SHA256.be_bytes n x) /\
  length (SHA256.be_bytes n x) = n.
Proof.
  unfold SHA256.be_bytes. split.
  - apply Forall_forall. intros b Hb. apply list_elem_of_In, in_map_iff in Hb as (i & <- & _).
    apply Z.mod_pos_bound. lia.
  - by rewrite length_map, length_rev, length_seq.
Qed.

Lemma compress_length (h block : list Z) :
  length h = 8%nat -> length (SHA256.compress h block) = 8%nat.
Proof.
  intros Hh. unfold SHA256.compress.
  rewrite length_map, length_combine, Hh. reflexivity.
Qed.

Lemma blocks_length (n : nat) (h bs : list Z) :
  length h = 8%nat -> length (SHA256.blocks n h bs) = 8%nat.
Proof.
  revert h bs. induction n as [|n IH]; intros h bs Hh; simpl; [done|].
  by apply IH, compress_length.
Qed.

Lemma flat_map_be_bytes (ws : list Z) :
  Forall (fun b => 0 <= b < 256) (List.flat_map (SHA256.be_bytes 4) ws) /\
  length (List.flat_map (SHA256.be_bytes 4) ws) = (4 * length ws)%nat.
Proof.
  induction ws as [|w ws [IH1 IH2]]; [done|].
  change (List.flat_map (SHA256.be_bytes 4) (w :: ws))
    with (SHA256.be_bytes 4 w ++ List.flat_map (SHA256.be_bytes 4) ws).
  destruct (be_bytes_range 4 w) as [H1 H2]. split.
  - by apply Forall_app.
  - rewrite length_app, H2, IH2. simpl. lia.
Qed.

Lemma sha256_hex_is_cache_key (s : string) : isCacheKey (sha256_hex s) = true.
Proof.
  unfold isCacheKey, sha256_hex, SHA256.digest.
  set (ws := SHA256.blocks _ _ _).
  assert (length ws = 8%nat) as Hws by (by apply blocks_length).
  destruct (flat_map_be_bytes ws) as [Hrange Hlen].
  destruct (hex_of_bytes _ Hrange) as [H1 H2].
  rewrite H1, Hlen, Hws, H2. reflexivity.
Qed.

(** X22.  Every key that [generateCacheKey] returns is 64 lowercase
    hexadecimal digits, whatever the parameters and the collation of the
    host; so it is never the empty string, and the last segment of the
    path of its file is the key itself, whatever the cache directory
    (the empty one apart). *)
Theorem generateCacheKey_is_hex_digest (localeCompare : string -> string -> Z)
    (params : list entry) :
  isCacheKey (generateCacheKey localeCompare params) = true /\
  generateCacheKey localeCompare params <> ""%string /\
  (forall cfg, cacheDir cfg <> ""%string ->
     List.last (split_slash "" (getCachePath cfg (generateCacheKey localeCompare params)))
       ""%string
     = generateCacheKey localeCompare params).
Proof.
  assert (isCacheKey (generateCacheKey localeCompare params) = true) as Hkey
    by apply sha256_hex_is_cache_key.
  split; [exact Hkey|]. split.
  - intros Heq. rewrite Heq in Hkey. discriminate.
  - intros cfg Hdir. by apply getCachePath_last_segment.
Qed.
